(** * Wheatley: the graph features extractor

    A shallow embedding of [models/features_extractor.py]
    (class [FeaturesExtractor]: [__init__] and [forward]).

    Conventions of the embedding.
    - A float tensor element is the rational it denotes ([Qc]).  The float
      arithmetic of this file's code (the in-place addition of the residual
      connection, the matrix product of the "avg" readout) rounds to
      binary32, to nearest with ties to even; infinities and NaN are not
      modelled.  A 2-D float tensor is the list of its rows.
    - The contents of a [LongTensor] are integers ([Z]): machine ids take the
      values [-1] and [-2], edge type codes are [machineid + 3].  Python ints
      that count things or index rows (sizes, pointers, graph ids) are [nat].
    - A Python exception or [sys.exit] is a [Raise] in the [result] monad.
    - The learned sub-modules (MLP embedder, convolutions, normalisations,
      edge embeddings) come from other files and libraries; they are
      parameters of the forward pass. *)

From Stdlib Require Import List ZArith Lia Bool Arith PeanoNat.
From Stdlib Require Import QArith Qcanon.
From Stdlib Require Import Permutation.
From Stdlib Require String.
Import ListNotations.
Import String.StringSyntax.

Local Open Scope nat_scope.

Set Implicit Arguments.

(** ** Exceptions *)

Inductive exn : Type :=
| IndexError
| RuntimeError
| NameError (name : String.string)
| ValueError
| SystemExit
| PoolingNotRecognized (mode : String.string).

Inductive result (A : Type) : Type :=
| Ok (a : A)
| Raise (e : exn).

Arguments Ok {A} a.
Arguments Raise {A} e.

Definition bind {A B : Type} (r : result A) (k : A -> result B) : result B :=
  match r with
  | Ok a => k a
  | Raise e => Raise e
  end.

Notation "x <- r ;; k" := (bind r (fun x => k))
  (at level 61, r at next level, right associativity).
Notation "' p <- r ;; k" := (bind r (fun p => k))
  (at level 61, p pattern, r at next level, right associativity).

Definition is_ok {A : Type} (r : result A) : bool :=
  match r with Ok _ => true | Raise _ => false end.

Fixpoint mapM {A B : Type} (f : A -> result B) (l : list A) : result (list B) :=
  match l with
  | [] => Ok []
  | a :: l' => b <- f a ;; bs <- mapM f l' ;; Ok (b :: bs)
  end.

(** ** Tensors *)

Abbreviation vector := (list Qc).
Abbreviation matrix := (list (list Qc)).

Definition Qc_eqb (a b : Qc) : bool := Qeq_bool a b.
Definition Qc_ltb (a b : Qc) : bool := negb (Qle_bool b a).

(** Truth value of a float in [torch.logical_and]: non-zero. *)
Definition truthy (a : Qc) : bool := negb (Qc_eqb a 0%Qc).

(** *** Float arithmetic

    The elements of a tensor are finite binary32 values, held as
    rationals.  Comparisons, maxima and copies are exact.  The arithmetic
    that the code itself performs ([+=], [torch.ones(n) / n],
    [torch.matmul]) rounds the exact result to binary32: to nearest, ties
    to even, with gradual underflow.  Infinities and NaN are not values of
    the model; [f32_finite] tells whether the rounded result of an
    operation is in the finite range. *)

Definition pow2 (e : Z) : Qc :=
  if (0 <=? e)%Z then Q2Qc (inject_Z (2 ^ e)) else Q2Qc (1 # Z.to_pos (2 ^ (- e))).

(** Rounding to [prec] significant bits with least exponent [emin]:
    [e] is the exponent of [q] (raised to [emin] for subnormal values),
    [2 ^ (- s)] the spacing of the format there, [k] the nearest multiple. *)
Definition round_binary (prec emin : Z) (q : Qc) : Qc :=
  let n := Qnum q in
  let d := Zpos (Qden q) in
  if (n =? 0)%Z then 0%Qc
  else
    let a := Z.abs n in
    let e0 := (Z.log2 a - Z.log2 d)%Z in
    let below :=
      if (0 <=? e0)%Z then (a <? d * 2 ^ e0)%Z else (a * 2 ^ (- e0) <? d)%Z in
    let e := if below then (e0 - 1)%Z else e0 in
    let e := Z.max e emin in
    let s := (prec - 1 - e)%Z in
    let N := if (0 <=? s)%Z then (a * 2 ^ s)%Z else a in
    let D := if (0 <=? s)%Z then d else (d * 2 ^ (- s))%Z in
    let k := (N / D)%Z in
    let r := (N mod D)%Z in
    let k := if (2 * r <? D)%Z then k
             else if (D <? 2 * r)%Z then (k + 1)%Z
             else if Z.even k then k else (k + 1)%Z in
    let k := if (n <? 0)%Z then (- k)%Z else k in
    (Q2Qc (inject_Z k) * pow2 (- s))%Qc.

Definition round_f32 : Qc -> Qc := round_binary 24 (-126).

(** The largest finite binary32 value, [(2 ^ 24 - 1) * 2 ^ 104]. *)
Definition f32_max : Qc := ((pow2 24 - 1) * pow2 104)%Qc.

Definition f32_finite (q : Qc) : bool :=
  Qle_bool (- f32_max)%Qc (round_f32 q) && Qle_bool (round_f32 q) f32_max.

Definition f32_add (a b : Qc) : Qc := round_f32 (a + b).
Definition f32_mul (a b : Qc) : Qc := round_f32 (a * b).
Definition f32_div (a b : Qc) : Qc := round_f32 (a / b).

Fixpoint vector_eqb (a b : vector) : bool :=
  match a, b with
  | [], [] => true
  | u :: a', v :: b' => Qc_eqb u v && vector_eqb a' b'
  | _, _ => false
  end.

(** [tensor.shape[1]] of a matrix given by its rows. *)
Definition width (m : matrix) : nat :=
  match m with
  | [] => 0
  | r :: _ => length r
  end.

Definition zeros (rows cols : nat) : matrix := repeat (repeat 0%Qc cols) rows.

(** Python slice [l[lo:hi]]. *)
Definition slice {A : Type} (lo hi : nat) (l : list A) : list A :=
  firstn (hi - lo) (skipn lo l).

(** [torch.max(row)]: the maximum and the index of its first occurrence;
    the reduction raises on an empty dimension. *)
Fixpoint max_from (i : nat) (best : Qc) (besti : nat) (r : vector) : Qc * nat :=
  match r with
  | [] => (best, besti)
  | v :: r' =>
      if Qc_ltb best v then max_from (S i) v i r' else max_from (S i) best besti r'
  end.

Definition torch_max (r : vector) : result (Qc * nat) :=
  match r with
  | [] => Raise IndexError
  | v :: r' => Ok (max_from 1 v 0 r')
  end.

(** [torch.all(row == 0)]. *)
Definition all_zero (r : vector) : bool := forallb (fun v => Qc_eqb v 0%Qc) r.

(** [torch.where(c, 1, 0).nonzero(as_tuple=True)[0]] over a 1-D condition. *)
Definition nonzero1 (n : nat) (c : nat -> bool) : list nat := filter c (seq 0 n).

(** The same over an [n] x [n] condition: the index pairs in row-major order. *)
Definition nonzero2 (n : nat) (c : nat -> nat -> bool) : list (nat * nat) :=
  flat_map (fun i => map (pair i) (filter (c i) (seq 0 n))) (seq 0 n).

(** ** The graph batch (torch_geometric [Batch]) and the observation *)

(** [edge_index] is a 2 x E tensor: the list of its E columns
    [(edge_index[0][k], edge_index[1][k])]. *)
Record GraphBatch : Type := {
  x : matrix;
  edge_index : list (Z * Z);
  batch : list nat;
  ptr : list nat;
  num_graphs : nat
}.

Record Observation : Type := {
  get_batch_size : nat;
  get_n_nodes : nat;
  to_graph : GraphBatch
}.

(** An edge under construction: its column of [edge_index] and its edge
    type code.  [edge_attr[layer]] is the layer's embedding of the codes,
    edge by edge; [edge_index] and every [edge_attr[layer]] are always
    extended together. *)
Abbreviation edge := (Z * Z * Z)%type.

Definition src (e : edge) : Z := fst (fst e).
Definition tgt (e : edge) : Z := snd (fst e).
Definition code (e : edge) : Z := snd e.

(** [graph_state.ptr[i]]. *)
Definition ptr_at (p : list nat) (i : nat) : result nat :=
  match nth_error p i with
  | Some v => Ok v
  | None => Raise IndexError
  end.

(** The rows [ptr[bi] : ptr[bi+1]] of graph [bi]; pointers that do not
    delimit rows of an [n]-row tensor make the tensor operations built on
    them raise. *)
Definition graph_range (p : list nat) (n bi : nat) : result (nat * nat) :=
  lo <- ptr_at p bi ;;
  hi <- ptr_at p (S bi) ;;
  if (lo <=? hi) && (hi <=? n) then Ok (lo, hi) else Raise RuntimeError.

(** ** Machine ids *)

(** [features[..., 6 : 6 + max_n_machines]] of one row. *)
Definition machine_block (M : nat) (row : vector) : vector := slice 6 (6 + M) row.

(** [torch.where(mmax[0] == 0, -1, mmax[1])] of one row. *)
Definition machineid_of_row (M : nat) (row : vector) : result Z :=
  '(v, i) <- torch_max (machine_block M row) ;;
  Ok (if Qc_eqb v 0%Qc then (-1)%Z else Z.of_nat i).

(** [machineid] for the rows of [f]; with no machine column the reduction
    raises whatever the number of rows. *)
Definition machine_ids (M : nat) (f : matrix) : result (list Z) :=
  if M =? 0 then Raise IndexError else mapM (machineid_of_row M) f.

(** [features[..., 0]]: the affectation flag. *)
Definition aff_of_row (row : vector) : result Qc :=
  match row with
  | [] => Raise IndexError
  | a :: _ => Ok a
  end.

Definition affectations (f : matrix) : result vector := mapM aff_of_row f.

(** ** Graph augmentation: the virtual pooling node (lines 237-264) *)

Definition Zn (n : nat) : Z := Z.of_nat n.

(** The pooling edges of graph [i], already zipped: [ei0] repeats the
    virtual node [node_offset + i], [ei1] ranges over the graph's nodes; the
    two are swapped when [reverse_adj] is set. *)
Definition pooling_edges_of_graph (reverse_adj : bool) (node_offset i lo hi : nat)
  : list edge :=
  map (fun r =>
         if negb reverse_adj
         then (Zn (node_offset + i), Zn r, 2%Z)
         else (Zn r, Zn (node_offset + i), 2%Z))
      (seq lo (hi - lo)).

Definition pooling_edges (reverse_adj : bool) (p : list nat) (node_offset n_batch : nat)
  : result (list edge) :=
  per_graph <- mapM (fun i =>
                       lo <- ptr_at p i ;;
                       hi <- ptr_at p (S i) ;;
                       Ok (pooling_edges_of_graph reverse_adj node_offset i lo hi))
                    (seq 0 n_batch) ;;
  Ok (concat per_graph).

(** ** Graph augmentation: clique conflicts (lines 267-371) *)

Definition m2_of (m : Z) : Z := if (m =? -1)%Z then (-2)%Z else m.

(** The condition matrix of the per-graph dense strategy, entry [i][j]. *)
Definition clique_cond (machineid : list Z) (aff : vector) (i j : nat) : bool :=
  (nth j machineid (-1)%Z =? m2_of (nth i machineid (-1)%Z))%Z
  && negb (truthy (nth j aff 0%Qc) && truthy (nth i aff 0%Qc))
  && negb (i =? j).

(** The condition matrix of the all-graphs-at-once strategy, entry [i][j]. *)
Definition clique_cond_batch (machineid : list Z) (aff : vector) (b : list nat)
  (i j : nat) : bool :=
  ((nth j machineid (-1)%Z =? m2_of (nth i machineid (-1)%Z))%Z
   && (nth j b 0 =? nth i b 0))
  && negb (truthy (nth j aff 0%Qc) && truthy (nth i aff 0%Qc))
  && negb (i =? j).

(** [highmem_conflict_clique]: one N x N comparison for the whole batch. *)
Definition clique_highmem (M : nat) (features : matrix) (nnodes : nat) (b : list nat)
  : result (list edge) :=
  let f := firstn nnodes features in
  machineid <- machine_ids M f ;;
  aff <- affectations f ;;
  if negb (length b =? nnodes) then Raise RuntimeError else
  let conflicts := nonzero2 nnodes (clique_cond_batch machineid aff b) in
  Ok (map (fun c => (Zn (fst c), Zn (snd c), (nth (fst c) machineid (-1) + 3)%Z))
          conflicts).

(** [mediummem_conflict_clique]: one dense comparison per graph. *)
Definition clique_of_graph (M : nat) (features : matrix) (lo hi : nat)
  : result (list edge) :=
  let f := slice lo hi features in
  let nnodes := hi - lo in
  machineid <- machine_ids M f ;;
  aff <- affectations f ;;
  let conflicts := nonzero2 nnodes (clique_cond machineid aff) in
  Ok (map (fun c => (Zn (fst c + lo), Zn (snd c + lo),
                     (nth (fst c) machineid (-1) + 3)%Z))
          conflicts).

Definition clique_mediummem (M : nat) (features : matrix) (p : list nat) (n_batch : nat)
  : result (list edge) :=
  per_graph <- mapM (fun bi =>
                       '(lo, hi) <- graph_range p (length features) bi ;;
                       clique_of_graph M features lo hi)
                    (seq 0 n_batch) ;;
  Ok (concat per_graph).

(** [torch.argmax(row)] of a row that is not empty. *)
Definition argmax (r : vector) : nat :=
  match r with
  | [] => 0
  | v :: r' => snd (max_from 1 v 0 r')
  end.

(** The exhaustive scan: the inner loop over [ni2] for one [ni1]. *)
Definition lowmem_inner (machinecpu : matrix) (aff : vector) (ni1 hi : nat)
  : list edge :=
  let machine1 := nth ni1 machinecpu [] in
  if all_zero machine1 then [] else
  let aff1 := Qc_eqb (nth ni1 aff 0%Qc) 1%Qc in
  let mid := (Zn (argmax machine1) + 3)%Z in
  flat_map (fun ni2 =>
              let machine2 := nth ni2 machinecpu [] in
              if all_zero machine2 then [] else
              let aff2 := Qc_eqb (nth ni2 aff 0%Qc) 1%Qc in
              if vector_eqb machine1 machine2 && negb (aff1 && aff2)
              then [(Zn ni1, Zn ni2, mid); (Zn ni2, Zn ni1, mid)]
              else [])
           (seq (ni1 + 1) (hi - (ni1 + 1))).

Definition clique_lowmem (M : nat) (features : matrix) (nnodes : nat) (p : list nat)
  (n_batch : nat) : result (list edge) :=
  let featcpu := firstn nnodes features in
  let machinecpu := map (machine_block M) featcpu in
  aff <- affectations featcpu ;;
  per_graph <- mapM (fun bi =>
                       '(lo, hi) <- graph_range p nnodes bi ;;
                       Ok (flat_map (fun ni1 => lowmem_inner machinecpu aff ni1 hi)
                                    (seq lo (hi - lo))))
                    (seq 0 n_batch) ;;
  Ok (concat per_graph).

(** ** Graph augmentation: machine hub nodes (lines 373-399) *)

(** [idxaffected]: the rows whose machine id is not [-1]. *)
Definition idxaffected_of (machineid : list Z) : list nat :=
  nonzero1 (length machineid) (fun i => negb (nth i machineid (-1)%Z =? -1)%Z).

(** One affected task: its row, its machine id and its hub node
    [bid * max_n_machines + machineid + node_offset]. *)
Definition hub_of (M node_offset : nat) (machineid : list Z) (b : list nat) (i : nat)
  : result (Z * Z * Z) :=
  match nth_error b i with
  | None => Raise IndexError
  | Some bid =>
      let m := nth i machineid (-1)%Z in
      Ok (Zn i, m, (Zn bid * Zn M + m + Zn node_offset)%Z)
  end.

Definition node_conflict_edges (M : nat) (features : matrix) (nnodes node_offset : nat)
  (b : list nat) : result (list edge) :=
  machineid <- machine_ids M (firstn nnodes features) ;;
  hubs <- mapM (hub_of M node_offset machineid b) (idxaffected_of machineid) ;;
  Ok (map (fun h => let '(i, m, t) := h in (i, t, (m + 3)%Z)) hubs
      ++ map (fun h => let '(i, m, t) := h in (t, i, (m + 3 + Zn M)%Z)) hubs).

(** [features[:, 6 : 6 + max_n_machines] = 0] on one row. *)
Definition zero_machine_block (M : nat) (row : vector) : vector :=
  firstn 6 row ++ repeat 0%Qc (length (machine_block M row)) ++ skipn (6 + M) row.

(** ** The module object *)

Local Open Scope string_scope.

(** The sub-modules [__init__] builds, by their constructor and sizes. *)
Inductive submodule : Type :=
| Embedding (num_embeddings embedding_dim : nat)
| MLP (n_layers input_dim hidden_dim output_dim : nat) (batch_norm : bool)
| GraphNorm (dim : nat)
| GATv2Conv (in_channels out_channels heads edge_dim : nat)
| EGConv (in_channels out_channels n_aggregators : nat)
| PDNConv (in_channels out_channels edge_dim hidden_channels : nat).

(** The arguments of [FeaturesExtractor.__init__] that the model reads. *)
Record Args : Type := {
  input_dim_features_extractor : nat;
  arg_gconv_type : String.string;
  arg_graph_pooling : String.string;
  arg_freeze_graph : bool;
  arg_graph_has_relu : bool;
  arg_max_n_nodes : nat;
  arg_max_n_machines : nat;
  n_mlp_layers_features_extractor : nat;
  arg_n_layers_features_extractor : nat;
  arg_hidden_dim_features_extractor : nat;
  n_attention_heads : nat;
  arg_reverse_adj : bool;
  arg_residual : bool;
  arg_normalize : bool;
  arg_conflicts : String.string
}.

Record FeaturesExtractor : Type := {
  conflicts : String.string;
  highmem_conflict_clique : bool;
  mediummem_conflict_clique : bool;
  residual : bool;
  normalize : bool;
  max_n_nodes : nat;
  features_dim : nat;
  max_n_machines : nat;
  freeze_graph : bool;
  reverse_adj : bool;
  hidden_dim_features_extractor : nat;
  gconv_type : String.string;
  graph_has_relu : bool;
  graph_pooling : String.string;
  n_layers_features_extractor : nat;
  features_extractors : list submodule;
  edge_embedder : list submodule;
  norms : list submodule;
  normsbis : list submodule;
  embedder : submodule;
  mlps : list submodule
}.

Definition streq (a b : String.string) : bool := String.eqb a b.

(** ** [__init__] (lines 61-210) *)

(** One pass of the loop over the layers (lines 135-204): the convolution
    appended to [features_extractors] and, for "gatv2", the MLP appended to
    [mlps].  [GINConv] is not among the names the file imports.  [EGConv] is
    called without [num_heads], which defaults to 8, and its constructor
    raises [ValueError] unless [out_channels] is a multiple of the number
    of heads. *)
Definition build_layer (a : Args) : result (submodule * list submodule) :=
  let h := arg_hidden_dim_features_extractor a in
  if streq (arg_gconv_type a) "gin" then
    Raise (NameError "GINConv")
  else if streq (arg_gconv_type a) "gatv2" then
    Ok (GATv2Conv h h (n_attention_heads a) h,
        [MLP (n_mlp_layers_features_extractor a) (h * n_attention_heads a)
             (h * n_attention_heads a) h false])
  else if streq (arg_gconv_type a) "eg" then
    if h mod 8 =? 0 then Ok (EGConv h h 7, []) else Raise ValueError
  else if streq (arg_gconv_type a) "pdn" then
    Ok (PDNConv h h 1 16, [])
  else
    Raise SystemExit.

Definition init (a : Args) : result FeaturesExtractor :=
  let L := arg_n_layers_features_extractor a in
  let h := arg_hidden_dim_features_extractor a in
  let M := arg_max_n_machines a in
  let features_dim := (input_dim_features_extractor a + h * (L + 1)) * 2 in
  let nmachineid :=
    if streq (arg_conflicts a) "clique" then M
    else if streq (arg_conflicts a) "node" then M * 2
    else 0 in
  let edge_dim := if streq (arg_gconv_type a) "gcn2" then 1 else h in
  let edge_embedder :=
    if streq (arg_conflicts a) "clique" || streq (arg_conflicts a) "node"
    then repeat (Embedding (5 + nmachineid + 1) edge_dim) L
    else repeat (Embedding 5 edge_dim) L in
  let norm_list := if arg_normalize a then repeat (GraphNorm h) L else [] in
  layers <- mapM (fun _ : nat => build_layer a) (seq 0 L) ;;
  Ok {| conflicts := arg_conflicts a;
        highmem_conflict_clique := false;
        mediummem_conflict_clique := true;
        residual := arg_residual a;
        normalize := arg_normalize a;
        max_n_nodes := arg_max_n_nodes a;
        features_dim := features_dim;
        max_n_machines := M;
        freeze_graph := arg_freeze_graph a;
        reverse_adj := arg_reverse_adj a;
        hidden_dim_features_extractor := h;
        gconv_type := arg_gconv_type a;
        graph_has_relu := arg_graph_has_relu a;
        graph_pooling := arg_graph_pooling a;
        n_layers_features_extractor := L;
        features_extractors := map fst layers;
        edge_embedder := edge_embedder;
        norms := norm_list;
        normsbis := norm_list;
        embedder := MLP (n_mlp_layers_features_extractor a)
                        (input_dim_features_extractor a) h h false;
        mlps := concat (map snd layers) |}.

(** The convolution types [__init__] has a branch for. *)
Definition recognized_gconv : list String.string := ["gin"; "gatv2"; "eg"; "pdn"].

(** ** [forward]: graph augmentation (lines 219-402) *)

Definition swap_edge (e : edge) : edge := (tgt e, src e, code e).

(** The conflict stage: the edges it appends. *)
Definition conflict_edges (fe : FeaturesExtractor) (features : matrix)
  (g : GraphBatch) (node_offset : nat) : result (list edge) :=
  let nnodes := length (x g) in
  let M := max_n_machines fe in
  if streq (conflicts fe) "clique" then
    if highmem_conflict_clique fe then
      clique_highmem M features nnodes (batch g)
    else if mediummem_conflict_clique fe then
      clique_mediummem M features (ptr g) (num_graphs g)
    else
      clique_lowmem M features nnodes (ptr g) (num_graphs g)
  else if streq (conflicts fe) "node" then
    node_conflict_edges M features nnodes node_offset (batch g)
  else Ok [].

Record Augmented : Type := {
  aug_features : matrix;
  aug_edges : list edge;
  aug_batch_id : list nat
}.

(** Lines 237-264: features, edges, batch ids and node offset after the
    virtual pooling nodes. *)
Definition pool_stage (fe : FeaturesExtractor) (g : GraphBatch)
  : result (matrix * list edge * list nat * nat) :=
  let n_batch := num_graphs g in
  let features := x g in
  let edges := map (fun c => (fst c, snd c, 1%Z)) (edge_index g) in
  let batch_id := batch g in
  let node_offset := length (x g) in
  if streq (graph_pooling fe) "learn" then
    new <- pooling_edges (reverse_adj fe) (ptr g) node_offset n_batch ;;
    Ok (features ++ zeros n_batch (width features),
        edges ++ new,
        batch_id ++ seq 0 n_batch,
        node_offset + n_batch)
  else Ok (features, edges, batch_id, node_offset).

Definition augment (fe : FeaturesExtractor) (g : GraphBatch) : result Augmented :=
  let n_batch := num_graphs g in
  let M := max_n_machines fe in
  '(features, edges, batch_id, node_offset) <- pool_stage fe g ;;
  (* conflicts *)
  new <- conflict_edges fe features g node_offset ;;
  let edges := edges ++ new in
  let '(features, batch_id) :=
    if streq (conflicts fe) "node" then
      (map (zero_machine_block M) (features ++ zeros (n_batch * M) (width features)),
       batch_id ++ flat_map (fun i => repeat i M) (seq 0 n_batch))
    else (features, batch_id) in
  (* message direction *)
  let edges := if negb (reverse_adj fe) then map swap_edge edges else edges in
  Ok {| aug_features := features; aug_edges := edges; aug_batch_id := batch_id |}.

(** ** [forward]: the message-passing stack (lines 404-430) *)

(** The learned sub-modules as functions: [embedder], [edge_embedder[layer]]
    on one edge type code, [features_extractors[layer]] on features, edge
    index and edge attributes, [elu], [mlps[layer]], and the graph
    normalisations on features and batch ids. *)
Record Learned : Type := {
  run_embedder : matrix -> matrix;
  run_edge_embedder : nat -> Z -> vector;
  run_conv : nat -> matrix -> list (Z * Z) -> list vector -> matrix;
  run_elu : matrix -> matrix;
  run_mlps : nat -> matrix -> matrix;
  run_norm0 : matrix -> list nat -> matrix;
  run_norm1 : matrix -> list nat -> matrix;
  run_norms : nat -> matrix -> list nat -> matrix;
  run_normsbis : nat -> matrix -> list nat -> matrix
}.

(** Tensors are objects: [features_list.append(features)] stores a
    reference, and [features += ...] updates the object in place.  The heap
    holds the tensors, a location is a reference. *)
Abbreviation loc := nat.
Abbreviation heap := (list (list (list Qc))).

Definition alloc (h : heap) (t : matrix) : heap * loc := (h ++ [t], length h).
Definition load (h : heap) (l : loc) : matrix := nth l h [].
Definition store (h : heap) (l : loc) (t : matrix) : heap :=
  firstn l h ++ t :: skipn (S l) h.

(** [a + b] with [b] broadcast to the shape of [a] (the in-place form),
    element by element in binary32. *)
Definition vadd (a b : vector) : result vector :=
  if length b =? length a then Ok (map (fun p => f32_add (fst p) (snd p)) (combine a b))
  else if length b =? 1 then Ok (map (fun u => f32_add u (nth 0 b 0%Qc)) a)
  else Raise RuntimeError.

Definition iadd (a b : matrix) : result matrix :=
  if length b =? length a then mapM (fun p => vadd (fst p) (snd p)) (combine a b)
  else if length b =? 1 then mapM (fun r => vadd r (nth 0 b [])) a
  else Raise RuntimeError.

(** [torch.cat(ts, axis=1)]. *)
Fixpoint cat1 (ts : list matrix) : result matrix :=
  match ts with
  | [] => Raise RuntimeError
  | [t] => Ok t
  | t :: ts' =>
      rest <- cat1 ts' ;;
      if length t =? length rest
      then Ok (map (fun p => fst p ++ snd p) (combine t rest))
      else Raise RuntimeError
  end.

Record Stack : Type := {
  st_heap : heap;
  st_features : loc;
  st_features_list : list loc
}.

Definition edge_columns (es : list edge) : list (Z * Z) := map fst es.

Definition edge_attr (lp : Learned) (layer : nat) (es : list edge) : list vector :=
  map (fun e => run_edge_embedder lp layer (code e)) es.

(** What a layer computes before it is recorded: the convolution, the
    nonlinearity and the auxiliary projection, then the normalisation. *)
Definition layer_output (lp : Learned) (fe : FeaturesExtractor) (es : list edge)
  (batch_id : list nat) (layer : nat) (features : matrix) : matrix :=
  let gat := streq (gconv_type fe) "gatv2" in
  let f := run_conv lp layer features (edge_columns es) (edge_attr lp layer es) in
  let f := if graph_has_relu fe || gat then run_elu lp f else f in
  let f := if gat then run_mlps lp layer f else f in
  if normalize fe then run_norms lp layer f batch_id else f.

(** One pass of the loop over the layers (lines 415-429). *)
Definition layer_step (lp : Learned) (fe : FeaturesExtractor) (es : list edge)
  (batch_id : list nat) (layer : nat) (st : Stack) : result Stack :=
  let out := layer_output lp fe es batch_id layer (load (st_heap st) (st_features st)) in
  let '(h, features) := alloc (st_heap st) out in
  let features_list := st_features_list st ++ [features] in
  if residual fe then
    let prev := nth (length features_list - 2) features_list 0 in
    sum <- iadd (load h features) (load h prev) ;;
    let h := store h features sum in
    if normalize fe then
      let '(h, features) := alloc h (run_normsbis lp layer (load h features) batch_id) in
      Ok {| st_heap := h; st_features := features; st_features_list := features_list |}
    else
      Ok {| st_heap := h; st_features := features; st_features_list := features_list |}
  else
    Ok {| st_heap := h; st_features := features; st_features_list := features_list |}.

Fixpoint layer_loop (lp : Learned) (fe : FeaturesExtractor) (es : list edge)
  (batch_id : list nat) (layers : list nat) (st : Stack) : result Stack :=
  match layers with
  | [] => Ok st
  | layer :: rest =>
      st' <- layer_step lp fe es batch_id layer st ;;
      layer_loop lp fe es batch_id rest st'
  end.

(** Lines 404-429: from the augmented graph to the list of layer embeddings. *)
Definition embed_layers (lp : Learned) (fe : FeaturesExtractor) (a : Augmented)
  : result Stack :=
  let batch_id := aug_batch_id a in
  let features := aug_features a in
  let features := if normalize fe then run_norm0 lp features batch_id else features in
  let '(h, l0) := alloc [] features in
  let features := run_embedder lp features in
  let features := if normalize fe then run_norm1 lp features batch_id else features in
  let '(h, l1) := alloc h features in
  layer_loop lp fe (aug_edges a) batch_id (seq 0 (n_layers_features_extractor fe))
             {| st_heap := h; st_features := l1; st_features_list := [l0; l1] |}.

(** Line 430: the concatenation of all layer embeddings. *)
Definition final_features (st : Stack) : result matrix :=
  cat1 (map (load (st_heap st)) (st_features_list st)).

(** ** [forward]: readout (lines 432-451) *)

Fixpoint take_chunks {A : Type} (k w : nat) (l : list A) : list (list A) :=
  match k with
  | 0 => []
  | S k' => firstn w l :: take_chunks k' w (skipn w l)
  end.

(** [t.reshape(d0, d1, -1)] of a 2-D tensor. *)
Definition reshape3 (d0 d1 : nat) (t : matrix) : result (list matrix) :=
  let flat := concat t in
  let numel := length flat in
  if d0 * d1 =? 0 then Raise RuntimeError
  else if negb (numel mod (d0 * d1) =? 0) then Raise RuntimeError
  else
    let w := numel / (d0 * d1) in
    Ok (take_chunks d0 d1 (take_chunks (d0 * d1) w flat)).

Definition Qc_max (a b : Qc) : Qc := if Qc_ltb a b then b else a.

Definition vmax (a b : vector) : vector :=
  map (fun p => Qc_max (fst p) (snd p)) (combine a b).

(** [torch.max(t, dim=0)] values of the rows of one graph. *)
Definition max_over_nodes (rows : matrix) : result vector :=
  match rows with
  | [] => Raise IndexError
  | r :: rs => Ok (fold_left vmax rs r)
  end.

(** The exact element-wise sum of two rows (used by the example
    convolution only). *)
Definition vplus (a b : vector) : vector :=
  map (fun p => (fst p + snd p)%Qc) (combine a b).

(** A row scaled by a weight and the sum of two rows, in binary32. *)
Definition f32_vscale (c : Qc) (v : vector) : vector := map (f32_mul c) v.

Definition f32_vplus (a b : vector) : vector :=
  map (fun p => f32_add (fst p) (snd p)) (combine a b).

(** [torch.ones(n) / n]: the quotient of 1.0 by [n] as a float. *)
Definition uniform_weights (n : nat) : vector :=
  repeat (f32_div 1 (round_f32 (Q2Qc (inject_Z (Zn n))))) n.

(** [torch.matmul(weights, rows)] for the rows of one graph, all of width
    [w]: for every column the products [weights[i] * rows[i][j]] are
    accumulated in the order of the rows, every product and every partial
    sum rounded to binary32. *)
Definition matmul_rows (weights : vector) (w : nat) (rows : matrix) : result vector :=
  if length weights =? length rows
  then Ok (fold_left (fun acc p => f32_vplus acc (f32_vscale (fst p) (snd p)))
                     (combine weights rows) (repeat 0%Qc w))
  else Raise RuntimeError.

(** [graph_embedding.expand(node_features.shape)] for one graph. *)
Definition expand_rows (n w : nat) (g : matrix) : result matrix :=
  match g with
  | [v] =>
      if length v =? w then Ok (repeat v n)
      else if length v =? 1 then Ok (repeat (repeat (nth 0 v 0%Qc) w) n)
      else Raise RuntimeError
  | _ => Raise RuntimeError
  end.

(** Lines 436-445. *)
Definition graph_embedding_of (fe : FeaturesExtractor) (n_nodes n_batch nnodes : nat)
  (features : matrix) (node_features : list matrix) : result matrix :=
  if streq (graph_pooling fe) "max" then
    mapM max_over_nodes node_features
  else if streq (graph_pooling fe) "avg" then
    mapM (fun rows => matmul_rows (uniform_weights n_nodes) (width rows) rows)
         node_features
  else if streq (graph_pooling fe) "learn" then
    Ok (slice nnodes (nnodes + n_batch) features)
  else
    Raise (PoolingNotRecognized (graph_pooling fe)).

(** Lines 432-451: from the concatenated embeddings to the output. *)
Definition readout (fe : FeaturesExtractor) (obs : Observation) (features : matrix)
  : result (list matrix) :=
  let batch_size := get_batch_size obs in
  let n_nodes := get_n_nodes obs in
  let g := to_graph obs in
  let nnodes := length (x g) in
  node_features <- reshape3 batch_size n_nodes (firstn nnodes features) ;;
  graph_embedding <- graph_embedding_of fe n_nodes (num_graphs g) nnodes features
                                        node_features ;;
  graph_embedding <- reshape3 batch_size 1 graph_embedding ;;
  mapM (fun p =>
          repeated <- expand_rows (length (fst p)) (width (fst p)) (snd p) ;;
          Ok (map (fun q => fst q ++ snd q) (combine (fst p) repeated)))
       (combine node_features graph_embedding).

Definition forward (lp : Learned) (fe : FeaturesExtractor) (obs : Observation)
  : result (list matrix) :=
  a <- augment fe (to_graph obs) ;;
  st <- embed_layers lp fe a ;;
  features <- final_features st ;;
  readout fe obs features.

(** ** Well-formed inputs *)

(** [torch.nn.functional.one_hot(k, num_classes=M)] as floats. *)
Definition one_hot (M k : nat) : vector :=
  repeat 0%Qc k ++ 1%Qc :: repeat 0%Qc (M - S k).

(** A machine block of the data model: all zero, or the one-hot code of a
    machine. *)
Definition block_okb (M : nat) (b : vector) : bool :=
  vector_eqb b (repeat 0%Qc M)
  || existsb (fun k => vector_eqb b (one_hot M k)) (seq 0 M).

(** The rows carry [M >= 1] machine columns after the six leading ones, and
    every machine block is all zero or one-hot. *)
Definition blocks_okb (M : nat) (f : matrix) : bool :=
  (0 <? M) && forallb (fun row => (6 + M <=? length row)
                                  && block_okb M (machine_block M row)) f.

(** Rows that carry a non-empty machine block without negative entries;
    the blocks of the data model (all zero or one-hot) are of this kind. *)
Definition block_nonnegb (b : vector) : bool :=
  forallb (fun v : Qc => Qle_bool 0%Qc v) b.

Definition blocks_nonnegb (M : nat) (f : matrix) : bool :=
  (0 <? M) && forallb (fun row => (6 <? length row)
                                  && block_nonnegb (machine_block M row)) f.

(** The affectation flag is 0.0 or 1.0. *)
Definition flags_okb (f : matrix) : bool :=
  forallb (fun row => match row with
                      | [] => false
                      | a :: _ => Qc_eqb a 0%Qc || Qc_eqb a 1%Qc
                      end) f.

(** Pointers and batch assignment of a torch_geometric batch: [ptr] has
    one entry more than there are graphs, does not decrease and ends at the
    number of nodes; node [k] lies in the range of graph [batch[k]]. *)
Definition wf_graphb (g : GraphBatch) : bool :=
  let p := ptr g in
  let nb := num_graphs g in
  let n := length (x g) in
  (length p =? S nb)
  && forallb (fun bi => nth bi p 0 <=? nth (S bi) p 0) (seq 0 nb)
  && (nth nb p 0 =? n)
  && (length (batch g) =? n)
  && forallb (fun k => let b := nth k (batch g) 0 in
                       (b <? nb) && (nth b p 0 <=? k) && (k <? nth (S b) p 0))
             (seq 0 n).

(** The machine id the dense strategies and the machine-node mode compute
    for a row, read off its machine block. *)
Definition machineid_spec (M : nat) (row : vector) : Z :=
  if all_zero (machine_block M row) then (-1)%Z
  else Zn (argmax (machine_block M row)).

(** ** Example inputs *)

(** A task row of width 8 for two machines: the affectation flag, five
    further columns, and the machine block. *)
Definition task_row (aff m0 m1 : Qc) : vector :=
  [aff; 0%Qc; 0%Qc; 0%Qc; 0%Qc; 0%Qc; m0; m1].

(** Two graphs: three unscheduled tasks on machine 0, then two tasks on
    distinct machines. *)
Definition ex_batch : GraphBatch :=
  {| x := [task_row 0 1 0; task_row 0 1 0; task_row 0 1 0;
           task_row 0 1 0; task_row 0 0 1];
     edge_index := [(0, 1); (1, 2); (3, 4)]%Z;
     batch := [0; 0; 0; 1; 1];
     ptr := [0; 3; 5];
     num_graphs := 2 |}.

(** One graph of four tasks, the second one scheduled, the last one
    unassigned. *)
Definition ex_single : GraphBatch :=
  {| x := [task_row 0 1 0; task_row 1 1 0; task_row 0 0 1; task_row 0 0 0];
     edge_index := [(0, 1); (1, 2); (2, 3)]%Z;
     batch := [0; 0; 0; 0];
     ptr := [0; 4];
     num_graphs := 1 |}.

Definition ex_obs : Observation :=
  {| get_batch_size := 1; get_n_nodes := 4; to_graph := ex_single |}.

Definition ex_args (gconv pooling conflicts : String.string) (L : nat)
  (reverse_adj residual normalize : bool) : Args :=
  {| input_dim_features_extractor := 8;
     arg_gconv_type := gconv;
     arg_graph_pooling := pooling;
     arg_freeze_graph := false;
     arg_graph_has_relu := false;
     arg_max_n_nodes := 4;
     arg_max_n_machines := 2;
     n_mlp_layers_features_extractor := 2;
     arg_n_layers_features_extractor := L;
     arg_hidden_dim_features_extractor := 3;
     n_attention_heads := 2;
     arg_reverse_adj := reverse_adj;
     arg_residual := residual;
     arg_normalize := normalize;
     arg_conflicts := conflicts |}.

(** An object with the settings of [ex_args], for the examples: hidden
    width 3 and two machines, with the two strategy flags of the clique
    mode set as given. *)
Definition ex_fe (gconv pooling conflicts : String.string) (L : nat)
  (reverse_adj residual normalize highmem mediummem : bool) : FeaturesExtractor :=
  {| conflicts := conflicts;
     highmem_conflict_clique := highmem;
     mediummem_conflict_clique := mediummem;
     residual := residual;
     normalize := normalize;
     max_n_nodes := 4;
     features_dim := (8 + 3 * (L + 1)) * 2;
     max_n_machines := 2;
     freeze_graph := false;
     reverse_adj := reverse_adj;
     hidden_dim_features_extractor := 3;
     gconv_type := gconv;
     graph_has_relu := false;
     graph_pooling := pooling;
     n_layers_features_extractor := L;
     features_extractors := repeat (EGConv 3 3 7) L;
     edge_embedder := repeat (Embedding 8 3) L;
     norms := [];
     normsbis := [];
     embedder := MLP 2 8 3 3 false;
     mlps := [] |}.

(** The same object with the [reverse_adj] switch set to [b]. *)
Definition with_reverse_adj (fe : FeaturesExtractor) (b : bool) : FeaturesExtractor :=
  {| conflicts := conflicts fe;
     highmem_conflict_clique := highmem_conflict_clique fe;
     mediummem_conflict_clique := mediummem_conflict_clique fe;
     residual := residual fe;
     normalize := normalize fe;
     max_n_nodes := max_n_nodes fe;
     features_dim := features_dim fe;
     max_n_machines := max_n_machines fe;
     freeze_graph := freeze_graph fe;
     reverse_adj := b;
     hidden_dim_features_extractor := hidden_dim_features_extractor fe;
     gconv_type := gconv_type fe;
     graph_has_relu := graph_has_relu fe;
     graph_pooling := graph_pooling fe;
     n_layers_features_extractor := n_layers_features_extractor fe;
     features_extractors := features_extractors fe;
     edge_embedder := edge_embedder fe;
     norms := norms fe;
     normsbis := normsbis fe;
     embedder := embedder fe;
     mlps := mlps fe |}.

(** An edge that is not a self-loop. *)
Definition no_self_loop (e : edge) : Prop := src e <> tgt e.

(** The edge type codes of conflict edges start at 3. *)
Definition conflict_code (e : edge) : Prop := (3 <= code e)%Z.

(** What the [reverse_adj] switch does to an edge of the final edge index
    when it is turned off: pooling edges stay, the others are reversed. *)
Definition redirect (e : edge) : edge :=
  if (code e =? 2)%Z then e else (tgt e, src e, code e).

(** Edge type code 2: the edges of the virtual pooling nodes. *)
Definition is_pooling_edge (e : edge) : bool := (code e =? 2)%Z.

(** An edge from node [r] of graph [i] to the virtual pooling node of that
    graph, which is row [nnodes + i] of the augmented features. *)
Definition real_to_pool (g : GraphBatch) (e : edge) : Prop :=
  exists i r lo hi,
    i < num_graphs g
    /\ ptr_at (ptr g) i = Ok lo /\ ptr_at (ptr g) (S i) = Ok hi
    /\ lo <= r < hi
    /\ e = (Zn r, Zn (length (x g) + i), 2%Z).

(** The pooling modes [forward] has a branch for. *)
Definition accepted_pooling (mode : String.string) : bool :=
  streq mode "max" || streq mode "avg" || streq mode "learn".

(** The error of the last branch of the readout. *)
Definition config_error {A : Type} (r : result A) : Prop :=
  exists m, r = Raise (PoolingNotRecognized m).

(** A small message-passing network for the examples: the embedder keeps
    three input columns, a convolution adds to each node the features of
    the sources of its incoming edges, the other sub-modules are the
    identity. *)
Definition ex_embedder (f : matrix) : matrix :=
  map (fun r => [nth 0 r 0%Qc; nth 6 r 0%Qc; nth 7 r 0%Qc]) f.

Definition ex_conv (layer : nat) (f : matrix) (ei : list (Z * Z)) (ea : list vector)
  : matrix :=
  map (fun i =>
         fold_left (fun acc c =>
                      if (snd c =? Zn i)%Z
                      then vplus acc (nth (Z.to_nat (fst c)) f (repeat 0%Qc (length acc)))
                      else acc)
                   ei (nth i f []))
      (seq 0 (length f)).

Definition ex_lp : Learned :=
  {| run_embedder := ex_embedder;
     run_edge_embedder := fun layer c => repeat (Q2Qc (inject_Z c)) 3;
     run_conv := ex_conv;
     run_elu := fun f => f;
     run_mlps := fun layer f => f;
     run_norm0 := fun f b => f;
     run_norm1 := fun f b => f;
     run_norms := fun layer f b => f;
     run_normsbis := fun layer f b => f |}.

(** Entry [k] of [features_list] at the end of the loop: the tensor the
    reference points to. *)
Definition entry (st : Stack) (k : nat) : matrix :=
  load (st_heap st) (nth k (st_features_list st) 0).

(** Without normalisation every tensor of the stack is an entry of
    [features_list], in allocation order, and [features] is the last one. *)
Definition stack_inv (st : Stack) : Prop :=
  st_features_list st = seq 0 (length (st_heap st))
  /\ S (st_features st) = length (st_heap st)
  /\ 2 <= length (st_heap st).



(** ** Shapes *)

(** A 2-D tensor of shape [(r, c)] and a 3-D tensor of shape
    [(d0, d1, d2)]. *)
Definition has_shape (r c : nat) (m : matrix) : Prop :=
  length m = r /\ Forall (fun v => length v = c) m.

Definition has_shape3 (d0 d1 d2 : nat) (t : list matrix) : Prop :=
  length t = d0 /\ Forall (has_shape d1 d2) t.

(** The width contract of the learned sub-modules, for input features of
    width [F] and convolutions of output width [cw]: the embedder maps
    width [F] to the hidden width; a convolution maps the hidden width to
    [cw], which is the hidden width unless the type is "gatv2", where the
    auxiliary MLP maps [cw] back to the hidden width; [elu] and the
    normalisations keep the shape.  None of them changes the number of
    rows. *)
Record shape_contract (lp : Learned) (fe : FeaturesExtractor) (F cw : nat) : Prop := {
  embedder_shape : forall r m,
    has_shape r F m ->
    has_shape r (hidden_dim_features_extractor fe) (run_embedder lp m);
  conv_shape : forall layer r m ei ea,
    has_shape r (hidden_dim_features_extractor fe) m ->
    has_shape r cw (run_conv lp layer m ei ea);
  conv_width : streq (gconv_type fe) "gatv2" = false ->
               cw = hidden_dim_features_extractor fe;
  mlps_shape : forall layer r m,
    has_shape r cw m ->
    has_shape r (hidden_dim_features_extractor fe) (run_mlps lp layer m);
  elu_shape : forall r c m, has_shape r c m -> has_shape r c (run_elu lp m);
  norm0_shape : forall r c m b, has_shape r c m -> has_shape r c (run_norm0 lp m b);
  norm1_shape : forall r c m b, has_shape r c m -> has_shape r c (run_norm1 lp m b);
  norms_shape : forall layer r c m b,
    has_shape r c m -> has_shape r c (run_norms lp layer m b);
  normsbis_shape : forall layer r c m b,
    has_shape r c m -> has_shape r c (run_normsbis lp layer m b)
}.

(** An observation of the data model for features of width [F]: a batch
    of [get_batch_size] graphs of [get_n_nodes] nodes each, with at least
    one node, well-formed pointers and batch assignment, and rows that
    hold the six leading columns and the machine block. *)
Definition obs_okb (fe : FeaturesExtractor) (obs : Observation) (F : nat) : bool :=
  let g := to_graph obs in
  (length (x g) =? get_batch_size obs * get_n_nodes obs)
  && (0 <? get_batch_size obs * get_n_nodes obs)
  && (num_graphs g =? get_batch_size obs)
  && forallb (fun r => length r =? F) (x g)
  && wf_graphb g
  && (0 <? max_n_machines fe)
  && (6 + max_n_machines fe <=? F).

(** An augmented graph for the examples: [ex_single] with its clique
    conflict edges. *)
Definition ex_aug : Augmented :=
  {| aug_features := x ex_single;
     aug_edges := [(0, 1, 1); (1, 2, 1); (2, 3, 1); (0, 1, 3); (1, 0, 3)]%Z;
     aug_batch_id := [0; 0; 0; 0] |}.

(** The features after the augmentation, for input rows of width [F]: the
    task rows, a zero row per virtual pooling node in "learn" mode, and in
    machine-node mode a zero row per hub node, with the machine block of
    every row set to zero. *)
Definition pooled_features (fe : FeaturesExtractor) (g : GraphBatch) (F : nat) : matrix :=
  if streq (graph_pooling fe) "learn" then x g ++ zeros (num_graphs g) F else x g.

Definition augmented_features (fe : FeaturesExtractor) (g : GraphBatch) (F : nat)
  : matrix :=
  if streq (conflicts fe) "node"
  then map (zero_machine_block (max_n_machines fe))
           (pooled_features fe g F ++ zeros (num_graphs g * max_n_machines fe) F)
  else pooled_features fe g F.

Definition augmented_rows (fe : FeaturesExtractor) (g : GraphBatch) : nat :=
  length (x g)
  + (if streq (graph_pooling fe) "learn" then num_graphs g else 0)
  + (if streq (conflicts fe) "node" then num_graphs g * max_n_machines fe else 0).

(** The stack of layer embeddings for [R] rows, input width [F] and hidden
    width [H], after [k] entries of hidden width: the first tensor of the
    heap is the input entry, every other tensor has the hidden width, and
    the references of [features_list] point into the heap. *)
Definition stack_shape (R F H k : nat) (st : Stack) : Prop :=
  exists e0 rest fl,
    st_heap st = e0 :: rest
    /\ has_shape R F e0
    /\ Forall (has_shape R H) rest
    /\ st_features_list st = 0 :: fl
    /\ fl <> []
    /\ Forall (fun l => 1 <= l < length (st_heap st)) fl
    /\ 1 <= st_features st < length (st_heap st)
    /\ length fl = k.

(** The rows of one graph, each followed by the graph embedding. *)
Definition concat_embedding (rows : matrix) (v : vector) : matrix :=
  map (fun r => r ++ v) rows.

(** The same object with the two strategy flags of the clique mode set. *)
Definition with_strategy (fe : FeaturesExtractor) (highmem mediummem : bool)
  : FeaturesExtractor :=
  {| conflicts := conflicts fe;
     highmem_conflict_clique := highmem;
     mediummem_conflict_clique := mediummem;
     residual := residual fe;
     normalize := normalize fe;
     max_n_nodes := max_n_nodes fe;
     features_dim := features_dim fe;
     max_n_machines := max_n_machines fe;
     freeze_graph := freeze_graph fe;
     reverse_adj := reverse_adj fe;
     hidden_dim_features_extractor := hidden_dim_features_extractor fe;
     gconv_type := gconv_type fe;
     graph_has_relu := graph_has_relu fe;
     graph_pooling := graph_pooling fe;
     n_layers_features_extractor := n_layers_features_extractor fe;
     features_extractors := features_extractors fe;
     edge_embedder := edge_embedder fe;
     norms := norms fe;
     normsbis := normsbis fe;
     embedder := embedder fe;
     mlps := mlps fe |}.

(** Machine id and affectation of task node [i] of a batch. *)
Definition mid_of (M : nat) (g : GraphBatch) (i : nat) : Z :=
  machineid_spec M (nth i (x g) []).

Definition scheduled (g : GraphBatch) (i : nat) : Prop :=
  truthy (hd 0%Qc (nth i (x g) [])) = true.

(** A conflict edge: two different task nodes of one graph, assigned to
    the same machine and not both scheduled, tagged with the machine. *)
Definition conflict_spec (M : nat) (g : GraphBatch) (e : edge) : Prop :=
  exists i j,
    i < length (x g) /\ j < length (x g) /\ i <> j
    /\ nth i (batch g) 0 = nth j (batch g) 0
    /\ mid_of M g i = mid_of M g j /\ (0 <= mid_of M g i)%Z
    /\ ~ (scheduled g i /\ scheduled g j)
    /\ e = (Zn i, Zn j, (mid_of M g i + 3)%Z).


(** The conflict edges between the nodes [lo .. hi - 1] of one graph. *)
Definition graph_conflict (M : nat) (g : GraphBatch) (lo hi : nat) (e : edge) : Prop :=
  exists i j,
    lo <= i < hi /\ lo <= j < hi /\ i <> j
    /\ mid_of M g i = mid_of M g j /\ (0 <= mid_of M g i)%Z
    /\ ~ (scheduled g i /\ scheduled g j)
    /\ e = (Zn i, Zn j, (mid_of M g i + 3)%Z).

(** * [utils/utils.py]

    Python integers are [Z]; an exception of these functions is a [Raised]
    outcome. *)

Inductive utils_exn : Type :=
| ZeroDivisionError
| SanityError (assigned : bool) (job machine : nat).

Inductive outcome (A : Type) : Type :=
| Returned (a : A)
| Raised (e : utils_exn).

Arguments Returned {A} a.
Arguments Raised {A} e.

(** ** [node_to_job_and_task] and [job_and_task_to_node] (lines 179-184) *)

(** [//] and [%] on Python integers round towards minus infinity, as
    [Z.div] and [Z.modulo] do; a zero divisor raises. *)
Definition node_to_job_and_task (node_id n_machines : Z) : outcome (Z * Z) :=
  if (n_machines =? 0)%Z then Raised ZeroDivisionError
  else Returned ((node_id / n_machines)%Z, (node_id mod n_machines)%Z).

Definition job_and_task_to_node (job_id task_id n_machines : Z) : Z :=
  (job_id * n_machines + task_id)%Z.

(** ** [get_n_features] (lines 70-86) *)

(** [x in l] and [l.remove(x)] on a list of strings: the first occurrence
    is removed. *)
Definition py_in (s : String.string) (l : list String.string) : bool :=
  existsb (String.eqb s) l.

Fixpoint py_remove (s : String.string) (l : list String.string) : list String.string :=
  match l with
  | [] => []
  | a :: l' => if String.eqb a s then l' else a :: py_remove s l'
  end.

(** The function updates the caller's list in place: the model returns
    the number of features and the list as the call leaves it. *)
Definition get_n_features (input_list : list String.string)
  (max_n_jobs max_n_machines : Z) : Z * list String.string :=
  let input_list :=
    if py_in "one_hot_machine_id" input_list
    then py_remove "one_hot_machine_id" input_list else input_list in
  let input_list :=
    if py_in "selectable" input_list
    then py_remove "selectable" input_list else input_list in
  let n_features := (6 + max_n_machines)%Z in
  let n_features := (n_features + 4 * Z.of_nat (length input_list))%Z in
  let n_features :=
    if py_in "one_hot_job_id" input_list
    then (n_features + (max_n_jobs - 4))%Z else n_features in
  let n_features :=
    if py_in "mopnr" input_list then (n_features - 3)%Z else n_features in
  (n_features, input_list).

(** ** [check_sanity] (lines 267-277) *)

Definition minus_one : Qc := (- (1))%Qc.

(** The two tests on one (affectation, durations) slot. *)
Definition slot_check (job machine : nat) (aff : Z) (dur : vector) : outcome unit :=
  if (aff =? -1)%Z && existsb (fun v => negb (Qc_eqb v minus_one)) dur
  then Raised (SanityError false job machine)
  else if negb (aff =? -1)%Z && existsb (fun v => Qc_eqb v minus_one) (skipn 1 dur)
  then Raised (SanityError true job machine)
  else Returned tt.

(** The inner loop over [enumerate(zip(affs, durs))]. *)
Fixpoint check_row (job machine : nat) (affs : list Z) (durs : list vector)
  : outcome unit :=
  match affs, durs with
  | aff :: affs', dur :: durs' =>
      match slot_check job machine aff dur with
      | Raised e => Raised e
      | Returned _ => check_row job (S machine) affs' durs'
      end
  | _, _ => Returned tt
  end.

(** The outer loop over [enumerate(zip(affectations, durations))]. *)
Fixpoint check_jobs (job : nat) (affectations : list (list Z))
  (durations : list matrix) : outcome unit :=
  match affectations, durations with
  | affs :: affectations', durs :: durations' =>
      match check_row job 0 affs durs with
      | Raised e => Raised e
      | Returned _ => check_jobs (S job) affectations' durations'
      end
  | _, _ => Returned tt
  end.

Definition check_sanity (affectations : list (list Z)) (durations : list matrix)
  : outcome unit :=
  check_jobs 0 affectations durations.

(** A slot that passes: an unassigned slot has only [-1] durations, an
    assigned one has no [-1] among its durations after the first. *)
Definition slot_ok (aff : Z) (dur : vector) : Prop :=
  (aff = (-1)%Z -> Forall (fun v => v = minus_one) dur)
  /\ (aff <> (-1)%Z -> Forall (fun v => v <> minus_one) (skipn 1 dur)).

(** The names [get_n_features] drops from the list before counting. *)
Definition listed_feature (s : String.string) : bool :=
  negb (String.eqb s "one_hot_machine_id") && negb (String.eqb s "selectable").

(** ** [put_back_one_hot_encoding_batched] and
       [put_back_one_hot_encoding_unbatched] (lines 418-448) *)

(** [tensor.long()] of a float: truncation towards zero. *)
Definition to_long (q : Qc) : Z := Z.quot (Qnum q) (Zpos (Qden q)).

(** [features[k, 6].long()]: the compact machine id of a row. *)
Definition compact_id (row : vector) : result Z :=
  match nth_error row 6 with
  | Some c => Ok (to_long c)
  | None => Raise IndexError
  end.

(** [row[6 : 6 + M] = b] for a block [b] of [M] values. *)
Definition set_machine_block (M : nat) (b row : vector) : vector :=
  firstn 6 row ++ b ++ skipn (6 + M) row.

(** What the two indexed assignments do to one of the selected rows.  A
    row whose compact id is not [-1] is in [idxaffected] and receives
    [one_hot(id, num_classes=M)], which raises on a negative id and on an
    id that is not below [M]; a row whose id is [-1] is in [idxnonaffected]
    and receives [M] times [-1.0]. *)
Definition put_back_row (M : nat) (row : vector) : result vector :=
  m <- compact_id row ;;
  if (m =? -1)%Z then Ok (set_machine_block M (repeat minus_one M) row)
  else if (m <? 0)%Z || (Zn M <=? m)%Z then Raise RuntimeError
  else Ok (set_machine_block M (one_hot M (Z.to_nat m)) row).

(** Every row of the tensor has at least [w] columns.  A tensor is
    represented by its rows: the width of a tensor without rows is not
    represented, and such a tensor passes. *)
Definition has_columns (w : nat) (features : matrix) : bool :=
  forallb (fun row : vector => w <=? length row) features.

(** The batched version writes into [features] through an index tensor
    and a slice, which updates the tensor in place: the result is the
    tensor as the call leaves it.  Rows from [num_nodes] on are not
    selected.  The width of the tensor matters whatever rows are selected:
    reading column 6 raises on a tensor of fewer than 7 columns, [one_hot]
    with no class raises, and each of the two assignments raises when the
    slice [6 : 6 + M] has fewer than [M] columns, also when it selects no
    row. *)
Definition put_back_one_hot_encoding_batched (features : matrix)
  (num_nodes M : nat) : result matrix :=
  if negb (has_columns 7 features) then Raise IndexError
  else if M =? 0 then Raise RuntimeError
  else if negb (has_columns (6 + M) features) then Raise RuntimeError
  else
    head <- mapM (put_back_row M) (firstn num_nodes features) ;;
    Ok (head ++ skipn num_nodes features).

(** The unbatched version, over a [batch x nodes x features] tensor,
    assigns to [features[idx][:, 6 : 6 + M]]: [features[idx]] with a tuple
    of index tensors is a new tensor, so the blocks are computed (and the
    computation may raise as above) and written to that temporary;
    [features] itself is returned as it came. *)
Definition put_back_one_hot_encoding_unbatched (features : list matrix)
  (M : nat) : result (list matrix) :=
  if negb (forallb (has_columns 7) features) then Raise IndexError
  else if M =? 0 then Raise RuntimeError
  else if negb (forallb (has_columns (6 + M)) features) then Raise RuntimeError
  else
    _ <- mapM (mapM (put_back_row M)) features ;;
    Ok features.

(** An example of features that carry the compact machine id in column 6,
    for three machines: machine 2, no machine, machine 0. *)
Definition compact_row (aff id : Qc) : vector :=
  [aff; 0%Qc; 0%Qc; 0%Qc; 0%Qc; 0%Qc; id; 0%Qc; 0%Qc].

Definition ex_compact : matrix :=
  [compact_row 1%Qc (Q2Qc 2); compact_row 0%Qc minus_one; compact_row 1%Qc 0%Qc].

(** ** Index ranges of the augmented graph *)

(** [num_embeddings] of an edge embedder. *)
Definition num_embeddings_of (s : submodule) : nat :=
  match s with
  | Embedding n _ => n
  | _ => 0
  end.

(** An edge between rows of a tensor of [rows] rows, with a type code in
    [lo, hi). *)
Definition edge_within (rows : nat) (lo hi : Z) (e : edge) : Prop :=
  (0 <= src e < Zn rows)%Z /\ (0 <= tgt e < Zn rows)%Z /\ (lo <= code e < hi)%Z.

(** The number of edge type codes the conflict mode uses beyond code 2. *)
Definition nmachineid_of (fe : FeaturesExtractor) : nat :=
  if streq (conflicts fe) "clique" then max_n_machines fe
  else if streq (conflicts fe) "node" then max_n_machines fe * 2
  else 0.

(** ** The layer embeddings as values *)

(** One pass of the loop over the layers without the heap: from the tensor
    the layer reads ([input]) and the last recorded entry ([prev]) to the
    entry the pass records and the tensor the next layer reads. *)
Definition layer_record (lp : Learned) (fe : FeaturesExtractor) (es : list edge)
  (batch_id : list nat) (layer : nat) (input prev : matrix)
  : result (matrix * matrix) :=
  let out := layer_output lp fe es batch_id layer input in
  if residual fe then
    sum <- iadd out prev ;;
    Ok (sum, if normalize fe then run_normsbis lp layer sum batch_id else sum)
  else Ok (out, out).

Fixpoint recorded_entries (lp : Learned) (fe : FeaturesExtractor) (es : list edge)
  (batch_id : list nat) (layers : list nat) (input prev : matrix)
  : result (list matrix) :=
  match layers with
  | [] => Ok []
  | layer :: rest =>
      '(recorded, next) <- layer_record lp fe es batch_id layer input prev ;;
      others <- recorded_entries lp fe es batch_id rest next recorded ;;
      Ok (recorded :: others)
  end.

(** The first two entries of [features_list]: the input features and the
    output of the embedder, each normalised when [normalize] is set. *)
Definition input_entry (lp : Learned) (fe : FeaturesExtractor) (a : Augmented) : matrix :=
  if normalize fe then run_norm0 lp (aug_features a) (aug_batch_id a)
  else aug_features a.

Definition embedder_entry (lp : Learned) (fe : FeaturesExtractor) (a : Augmented)
  : matrix :=
  let f := run_embedder lp (input_entry lp fe a) in
  if normalize fe then run_norm1 lp f (aug_batch_id a) else f.

(** An observation without nodes, for the examples. *)
Definition ex_empty_obs : Observation :=
  {| get_batch_size := 0; get_n_nodes := 4; to_graph := ex_single |}.

(** An object without machine columns, for the examples. *)
Definition ex_fe_no_machine (conflicts : String.string) (highmem mediummem : bool)
  : FeaturesExtractor :=
  {| conflicts := conflicts;
     highmem_conflict_clique := highmem;
     mediummem_conflict_clique := mediummem;
     residual := false;
     normalize := false;
     max_n_nodes := 4;
     features_dim := 22;
     max_n_machines := 0;
     freeze_graph := false;
     reverse_adj := true;
     hidden_dim_features_extractor := 3;
     gconv_type := "eg";
     graph_has_relu := false;
     graph_pooling := "max";
     n_layers_features_extractor := 0;
     features_extractors := [];
     edge_embedder := [];
     norms := [];
     normsbis := [];
     embedder := MLP 2 8 3 3 false;
     mlps := [] |}.

(** ** [_permute_rows] and [generate_deterministic_problem] (lines 94-106,
       164-170) *)

(** The values drawn from the random generator are arguments of the
    model: the properties hold for every draw. *)

(** [keys.argsort()]: the indices of [keys] in increasing key order.
    Equal keys are kept in index order here; numpy does not fix their
    order. *)
Fixpoint insert_key (k : Qc) (i : nat) (l : list (Qc * nat)) : list (Qc * nat) :=
  match l with
  | [] => [(k, i)]
  | (k', i') :: l' =>
      if Qc_ltb k' k then (k', i') :: insert_key k i l' else (k, i) :: l
  end.

Definition sort_keys (l : list (Qc * nat)) : list (Qc * nat) :=
  fold_right (fun p sorted => insert_key (fst p) (snd p) sorted) [] l.

Definition argsort (keys : vector) : list nat :=
  map snd (sort_keys (combine keys (seq 0 (length keys)))).

(** [x[ix_i, ix_j]] with [ix_i[i][j] = i] and [ix_j = samples.argsort(axis=1)],
    where [samples] is the draw of [np.random.sample(x.shape)]: entry
    [i][j] of the result is [x[i][ix_j[i][j]]]. *)
Definition _permute_rows (samples : matrix) (x : list (list Z)) : list (list Z) :=
  map (fun p => map (fun j => nth j (fst p) 0%Z) (argsort (snd p)))
      (combine x samples).

(** [draws] is the result of [np.random.randint(low=1, high=high,
    size=(n_jobs, n_machines, 1))], without its last axis; the durations
    repeat it four times along that axis.  Every row of the affectations
    starts as [arange(0, n_machines)]. *)
Definition generate_deterministic_problem (draws : list (list Z)) (samples : matrix)
  (n_jobs n_machines : nat) : list (list Z) * list (list (list Z)) :=
  let durations := map (map (fun d => repeat d 4)) draws in
  let affectations := repeat (map Z.of_nat (seq 0 n_machines)) n_jobs in
  let affectations := _permute_rows samples affectations in
  (affectations, durations).

(** An integer array read as floats. *)
Definition as_floats (durations : list (list (list Z))) : list matrix :=
  map (map (map (fun d => Q2Qc (inject_Z d)))) durations.

(** Draws of the shape and range that [randint(low=1, high=high,
    size=(n_jobs, n_machines, 1))] produces, and samples of the shape of the
    affectations. *)
Definition draws_okb (n_jobs n_machines : nat) (high : Z) (draws : list (list Z)) : bool :=
  (length draws =? n_jobs)
  && forallb (fun row => (length row =? n_machines)
                         && forallb (fun d => (1 <=? d)%Z && (d <? high)%Z) row) draws.

Definition samples_okb (n_jobs n_machines : nat) (samples : matrix) : bool :=
  (length samples =? n_jobs)
  && forallb (fun row => length row =? n_machines) samples.

(** ** [generate_problem_distrib] (lines 109-139) *)

(** A value stored in an [np.int32] array, and the result of [np.int32]
    arithmetic: the integer modulo [2 ^ 32], in [- 2 ^ 31, 2 ^ 31). *)
Definition wrap32 (z : Z) : Z := ((z + 2 ^ 31) mod 2 ^ 32 - 2 ^ 31)%Z.

(** [durations] starts as [np.empty] of type [np.int32]: entry [0] of
    every slot is whatever the memory holds ([uninitialized]); entry [3]
    is the drawn mode as the array stores it, entry [1] is
    [max(1, mode - dd)] and entry [2] is [mode + dd] for two further draws
    [dd], given per slot, both computed and stored in 32 bits. *)
Definition generate_problem_distrib
  (uninitialized modes dd_left dd_right : nat -> nat -> Z) (samples : matrix)
  (n_jobs n_machines : nat) : list (list Z) * list (list (list Z)) :=
  let durations :=
    map (fun j =>
           map (fun m =>
                  let mode := wrap32 (modes j m) in
                  [wrap32 (uninitialized j m);
                   wrap32 (Z.max 1 (wrap32 (mode - dd_left j m)));
                   wrap32 (mode + dd_right j m);
                   mode])
               (seq 0 n_machines))
        (seq 0 n_jobs) in
  let affectations := repeat (map Z.of_nat (seq 0 n_machines)) n_jobs in
  let affectations := _permute_rows samples affectations in
  (affectations, durations).

(** The (left, mode, right) values of a slot [real, left, right, mode]
    are a triangular distribution over positive durations. *)
Definition triangular_slot (slot : list Z) : Prop :=
  exists real left right mode,
    slot = [real; left; right; mode]
    /\ (1 <= left)%Z /\ (left <= mode)%Z /\ (mode < right)%Z.




(** One graph of two unscheduled tasks for two machines, with the compact
    machine id in column 6: the first task has no machine ([-1]), the
    second is on machine 0. *)
Definition ex_unassigned_compact : matrix :=
  [[0; 0; 0; 0; 0; 0; - (1); 0]%Qc; [0; 0; 0; 0; 0; 0; 0; 0]%Qc].

(** The same graph after [put_back_one_hot_encoding_batched]: the task
    without a machine carries the block [(-1, -1)], the other one the
    one-hot code of machine 0. *)
Definition ex_unassigned : GraphBatch :=
  {| x := [task_row 0 (- (1)) (- (1)); task_row 0 1 0]%Qc;
     edge_index := [(0, 1)]%Z;
     batch := [0; 0];
     ptr := [0; 2];
     num_graphs := 1 |}.

(** * Properties *)

(** ** The result monad *)

Lemma bind_ok_inv {A B : Type} (r : result A) (k : A -> result B) (b : B) :
  bind r k = Ok b -> exists a, r = Ok a /\ k a = Ok b.
Proof.
  destruct r as [a|e]; simpl; intros H; [eauto | discriminate].
Qed.

Lemma mapM_ok_inv {A B : Type} (f : A -> result B) :
  forall l bs, mapM f l = Ok bs -> Forall2 (fun a b => f a = Ok b) l bs.
Proof.
  induction l as [|a l IH]; simpl; intros bs H.
  - inversion H; constructor.
  - apply bind_ok_inv in H as (b & Hb & H).
    apply bind_ok_inv in H as (bs' & Hbs & H).
    inversion H; subst. constructor; auto.
Qed.

Lemma mapM_ok_intro {A B : Type} (f : A -> result B) :
  forall l bs, Forall2 (fun a b => f a = Ok b) l bs -> mapM f l = Ok bs.
Proof.
  induction 1 as [|a b l bs Hab _ IH]; simpl; [reflexivity|].
  now rewrite Hab, IH.
Qed.

Lemma mapM_total {A B : Type} (f : A -> result B) (g : A -> B) :
  forall l, (forall a, In a l -> f a = Ok (g a)) -> mapM f l = Ok (map g l).
Proof.
  induction l as [|a l IH]; simpl; intros H; [reflexivity|].
  rewrite (H a (or_introl eq_refl)); simpl.
  rewrite IH by (intros; apply H; now right). reflexivity.
Qed.

Lemma mapM_length {A B : Type} (f : A -> result B) :
  forall l bs, mapM f l = Ok bs -> length bs = length l.
Proof.
  intros l bs H. apply mapM_ok_inv in H.
  symmetry. eapply Forall2_length; eauto.
Qed.

Lemma in_nonzero1 (n : nat) (c : nat -> bool) (i : nat) :
  In i (nonzero1 n c) <-> i < n /\ c i = true.
Proof.
  unfold nonzero1. rewrite filter_In, in_seq. intuition lia.
Qed.

Lemma in_nonzero2 (n : nat) (c : nat -> nat -> bool) (i j : nat) :
  In (i, j) (nonzero2 n c) <-> i < n /\ j < n /\ c i j = true.
Proof.
  unfold nonzero2. rewrite in_flat_map. split.
  - intros (i' & Hi & Hin). apply in_map_iff in Hin as (j' & Heq & Hj).
    inversion Heq; subst. apply filter_In in Hj as [Hj Hc].
    apply in_seq in Hi, Hj. intuition lia.
  - intros (Hi & Hj & Hc). exists i. split; [apply in_seq; lia|].
    apply in_map_iff. exists j. split; [reflexivity|].
    apply filter_In. split; [apply in_seq; lia | assumption].
Qed.

(** ** No self-loop in the conflict stage *)

Lemma clique_cond_irrefl machineid aff i j :
  clique_cond machineid aff i j = true -> i <> j.
Proof.
  unfold clique_cond. intros H.
  apply andb_true_iff in H as [_ H].
  apply negb_true_iff, Nat.eqb_neq in H. exact H.
Qed.

Lemma clique_cond_batch_irrefl machineid aff b i j :
  clique_cond_batch machineid aff b i j = true -> i <> j.
Proof.
  unfold clique_cond_batch. intros H.
  apply andb_true_iff in H as [_ H].
  apply negb_true_iff, Nat.eqb_neq in H. exact H.
Qed.

Lemma clique_highmem_no_self_loop M features nnodes b new :
  clique_highmem M features nnodes b = Ok new -> Forall no_self_loop new.
Proof.
  unfold clique_highmem. intros H.
  apply bind_ok_inv in H as (machineid & _ & H).
  apply bind_ok_inv in H as (aff & _ & H).
  destruct (negb (length b =? nnodes)); [discriminate|].
  inversion H; subst; clear H.
  apply Forall_forall. intros e He.
  apply in_map_iff in He as ([i j] & <- & Hin).
  apply in_nonzero2 in Hin as (_ & _ & Hc).
  apply clique_cond_batch_irrefl in Hc.
  unfold no_self_loop, src, tgt, Zn; simpl. lia.
Qed.

Lemma clique_of_graph_no_self_loop M features lo hi new :
  clique_of_graph M features lo hi = Ok new -> Forall no_self_loop new.
Proof.
  unfold clique_of_graph. intros H.
  apply bind_ok_inv in H as (machineid & _ & H).
  apply bind_ok_inv in H as (aff & _ & H).
  inversion H; subst; clear H.
  apply Forall_forall. intros e He.
  apply in_map_iff in He as ([i j] & <- & Hin).
  apply in_nonzero2 in Hin as (_ & _ & Hc).
  apply clique_cond_irrefl in Hc.
  unfold no_self_loop, src, tgt, Zn; simpl. lia.
Qed.

Lemma Forall_concat {A : Type} (P : A -> Prop) (ls : list (list A)) :
  Forall (Forall P) ls -> Forall P (concat ls).
Proof.
  induction 1; simpl; [constructor | apply Forall_app; auto].
Qed.

Lemma mapM_Forall_out {A B : Type} (f : A -> result B) (P : B -> Prop) l bs :
  mapM f l = Ok bs -> (forall a b, In a l -> f a = Ok b -> P b) -> Forall P bs.
Proof.
  intros H HP. apply mapM_ok_inv in H.
  induction H as [|a b l bs Hab _ IH]; constructor.
  - apply (HP a); [now left | assumption].
  - apply IH. intros a' b' Hin. apply HP. now right.
Qed.

Lemma clique_mediummem_no_self_loop M features p n_batch new :
  clique_mediummem M features p n_batch = Ok new -> Forall no_self_loop new.
Proof.
  unfold clique_mediummem. intros H.
  apply bind_ok_inv in H as (per_graph & Hpg & H).
  inversion H; subst; clear H.
  apply Forall_concat.
  eapply mapM_Forall_out; [exact Hpg|].
  intros bi es _ Hes.
  apply bind_ok_inv in Hes as ([lo hi] & _ & Hes).
  eapply clique_of_graph_no_self_loop; eauto.
Qed.

Lemma lowmem_inner_no_self_loop machinecpu aff ni1 hi :
  Forall no_self_loop (lowmem_inner machinecpu aff ni1 hi).
Proof.
  unfold lowmem_inner.
  destruct (all_zero (nth ni1 machinecpu [])); [constructor|].
  apply Forall_forall. intros e He.
  apply in_flat_map in He as (ni2 & Hni2 & He).
  apply in_seq in Hni2.
  destruct (all_zero (nth ni2 machinecpu [])); [contradiction|].
  destruct (vector_eqb _ _ && _); [|contradiction].
  destruct He as [<-|[<-|[]]]; unfold no_self_loop, src, tgt, Zn; simpl; lia.
Qed.

Lemma clique_lowmem_no_self_loop M features nnodes p n_batch new :
  clique_lowmem M features nnodes p n_batch = Ok new -> Forall no_self_loop new.
Proof.
  unfold clique_lowmem. intros H.
  apply bind_ok_inv in H as (aff & _ & H).
  apply bind_ok_inv in H as (per_graph & Hpg & H).
  inversion H; subst; clear H.
  apply Forall_concat.
  eapply mapM_Forall_out; [exact Hpg|].
  intros bi es _ Hes.
  apply bind_ok_inv in Hes as ([lo hi] & _ & Hes).
  inversion Hes; subst; clear Hes.
  apply Forall_forall. intros e He.
  apply in_flat_map in He as (ni1 & _ & He).
  pose proof (lowmem_inner_no_self_loop (map (machine_block M) (firstn nnodes features))
                aff ni1 hi) as Hf.
  rewrite Forall_forall in Hf. auto.
Qed.

(** The machine id of a row is [-1] or the index of a column. *)
Lemma machineid_of_row_range M row m :
  machineid_of_row M row = Ok m -> (-1 <= m)%Z.
Proof.
  unfold machineid_of_row. intros H.
  apply bind_ok_inv in H as ([v i] & _ & H).
  destruct (Qc_eqb v 0); inversion H; lia.
Qed.

Lemma machine_ids_range M f ms :
  machine_ids M f = Ok ms -> Forall (fun m => (-1 <= m)%Z) ms.
Proof.
  unfold machine_ids. destruct (M =? 0); [discriminate|]. intros H.
  eapply mapM_Forall_out; [exact H|].
  intros row m _. apply machineid_of_row_range.
Qed.

Lemma machine_ids_length M f ms :
  machine_ids M f = Ok ms -> length ms = length f.
Proof.
  unfold machine_ids. destruct (M =? 0); [discriminate|]. apply mapM_length.
Qed.

Lemma nth_range_default ms i :
  Forall (fun m => (-1 <= m)%Z) ms -> (-1 <= nth i ms (-1))%Z.
Proof.
  intros H. destruct (Nat.lt_ge_cases i (length ms)) as [Hi|Hi].
  - rewrite Forall_forall in H. apply H, nth_In, Hi.
  - rewrite nth_overflow by exact Hi. lia.
Qed.

(** A hub node of the machine-node mode lies at or after [node_offset],
    an affected task before the number of task nodes. *)
Lemma hub_of_bounds M node_offset machineid b i h :
  Forall (fun m => (-1 <= m)%Z) machineid ->
  In i (idxaffected_of machineid) ->
  hub_of M node_offset machineid b i = Ok h ->
  let '(s, m, t) := h in
  s = Zn i /\ m = nth i machineid (-1)%Z /\ (0 <= m)%Z /\ (Zn node_offset <= t)%Z.
Proof.
  intros Hr Hin H. unfold hub_of in H.
  destruct (nth_error b i) as [bid|]; [|discriminate].
  inversion H; subst; clear H.
  apply in_nonzero1 in Hin as [_ Hne].
  apply negb_true_iff, Z.eqb_neq in Hne.
  pose proof (nth_range_default i Hr) as Hge.
  repeat split; unfold Zn; try lia; nia.
Qed.

Lemma node_conflict_edges_no_self_loop M features nnodes node_offset b new :
  nnodes <= node_offset -> length features >= nnodes ->
  node_conflict_edges M features nnodes node_offset b = Ok new ->
  Forall no_self_loop new.
Proof.
  unfold node_conflict_edges. intros Hoff Hlen H.
  apply bind_ok_inv in H as (machineid & Hm & H).
  apply bind_ok_inv in H as (hubs & Hh & H).
  inversion H; subst; clear H.
  pose proof (machine_ids_range _ _ Hm) as Hr.
  pose proof (machine_ids_length _ _ Hm) as Hl.
  rewrite length_firstn in Hl.
  assert (Hhubs : Forall (fun h => let '(s, m, t) := h in (s < t)%Z) hubs).
  { eapply mapM_Forall_out; [exact Hh|].
    intros i h Hin Hih.
    pose proof (hub_of_bounds _ _ _ _ Hr Hin Hih) as Hb.
    destruct h as [[s m] t]. destruct Hb as (-> & _ & _ & Ht).
    apply in_nonzero1 in Hin as [Hi _]. unfold Zn in *. lia. }
  apply Forall_app; split; apply Forall_forall; intros e He;
    apply in_map_iff in He as ([[s m] t] & <- & Hin);
    rewrite Forall_forall in Hhubs; specialize (Hhubs _ Hin);
    unfold no_self_loop, src, tgt; simpl in *; lia.
Qed.

Lemma pool_stage_offset fe g f es bid off :
  pool_stage fe g = Ok (f, es, bid, off) ->
  length (x g) <= off /\ length (x g) <= length f /\ firstn (length (x g)) f = x g.
Proof.
  unfold pool_stage. destruct (streq (graph_pooling fe) "learn").
  - intros H. apply bind_ok_inv in H as (new & _ & H).
    inversion H; subst; clear H.
    rewrite length_app, firstn_app, Nat.sub_diag, firstn_all; simpl.
    rewrite app_nil_r. repeat split; lia.
  - intros H. inversion H; subst; clear H.
    rewrite firstn_all. repeat split; lia.
Qed.

(** C6. Every edge the conflict stage of [forward] appends, in each of the
    three clique strategies and in the machine-node mode, has a source
    different from its target. *)
Theorem conflict_stage_no_self_loop fe g f es bid off new :
  pool_stage fe g = Ok (f, es, bid, off) ->
  conflict_edges fe f g off = Ok new ->
  Forall no_self_loop new.
Proof.
  intros Hp Hc. apply pool_stage_offset in Hp as (Hoff & Hlen & _).
  unfold conflict_edges in Hc.
  destruct (streq (conflicts fe) "clique").
  - destruct (highmem_conflict_clique fe).
    + exact (clique_highmem_no_self_loop _ _ _ _ Hc).
    + destruct (mediummem_conflict_clique fe).
      * exact (clique_mediummem_no_self_loop _ _ _ _ Hc).
      * exact (clique_lowmem_no_self_loop _ _ _ _ _ Hc).
  - destruct (streq (conflicts fe) "node").
    + exact (node_conflict_edges_no_self_loop _ _ _ Hoff Hlen Hc).
    + inversion Hc. constructor.
Qed.

Lemma conflict_stage_no_self_loop_witness :
  exists new,
    conflict_edges (ex_fe "eg" "learn" "node" 1 true true false false true)
                   (x ex_batch ++ zeros 2 8) ex_batch 7 = Ok new
    /\ length new = 10 /\ Forall no_self_loop new.
Proof.
  eexists. split; [vm_compute; reflexivity|]. split; [reflexivity|].
  eapply (@conflict_stage_no_self_loop
            (ex_fe "eg" "learn" "node" 1 true true false false true) ex_batch);
    vm_compute; reflexivity.
Defined.

(** ** Machine ids of well-formed blocks *)

Lemma Qc_eqb_eq (a b : Qc) : Qc_eqb a b = true <-> a = b.
Proof.
  unfold Qc_eqb. rewrite Qeq_bool_iff. split.
  - apply Qc_is_canon.
  - intros ->. reflexivity.
Qed.

Lemma Qc_eqb_refl (a : Qc) : Qc_eqb a a = true.
Proof. now apply Qc_eqb_eq. Qed.

Lemma vector_eqb_eq : forall a b : vector, vector_eqb a b = true <-> a = b.
Proof.
  induction a as [|u a IH]; destruct b as [|v b]; simpl;
    try (split; [discriminate | discriminate]); [tauto|].
  rewrite andb_true_iff, Qc_eqb_eq, IH. split.
  - intros [-> ->]. reflexivity.
  - intros H. inversion H. auto.
Qed.

Lemma block_okb_cases M b :
  block_okb M b = true ->
  b = repeat 0%Qc M \/ exists k, k < M /\ b = one_hot M k.
Proof.
  unfold block_okb. rewrite orb_true_iff, vector_eqb_eq, existsb_exists.
  intros [H|(k & Hk & H)]; [now left | right].
  apply in_seq in Hk. apply vector_eqb_eq in H. exists k. split; [lia | exact H].
Qed.

Lemma max_from_zeros n : forall i best besti,
  Qc_ltb best 0%Qc = false ->
  max_from i best besti (repeat 0%Qc n) = (best, besti).
Proof.
  induction n as [|n IH]; simpl; intros i best besti H; [reflexivity|].
  rewrite H. apply IH, H.
Qed.

Lemma max_from_app a : forall b i best besti,
  max_from i best besti (a ++ b)
  = max_from (i + length a) (fst (max_from i best besti a))
             (snd (max_from i best besti a)) b.
Proof.
  induction a as [|v a IH]; simpl; intros b i best besti.
  - now rewrite Nat.add_0_r.
  - destruct (Qc_ltb best v); rewrite IH; f_equal; lia.
Qed.

Lemma torch_max_zeros M : 0 < M -> torch_max (repeat 0%Qc M) = Ok (0%Qc, 0).
Proof.
  destruct M as [|M]; [lia|]. intros _. simpl.
  now rewrite max_from_zeros.
Qed.

Lemma torch_max_one_hot M k : k < M -> torch_max (one_hot M k) = Ok (1%Qc, k).
Proof.
  intros Hk. unfold one_hot. destruct k as [|k]; simpl.
  - now rewrite max_from_zeros.
  - rewrite max_from_app, max_from_zeros by reflexivity. simpl.
    rewrite repeat_length.
    replace (Qc_ltb 0 1) with true by reflexivity.
    now rewrite max_from_zeros.
Qed.

Lemma all_zero_zeros M : all_zero (repeat 0%Qc M) = true.
Proof.
  unfold all_zero. apply forallb_forall. intros v Hv.
  apply repeat_spec in Hv. subst. reflexivity.
Qed.

Lemma all_zero_one_hot M k : all_zero (one_hot M k) = false.
Proof.
  unfold all_zero, one_hot. rewrite forallb_app. simpl.
  replace (Qc_eqb 1 0) with false by reflexivity.
  simpl. apply andb_false_r.
Qed.

Lemma argmax_one_hot M k : k < M -> argmax (one_hot M k) = k.
Proof.
  intros Hk. pose proof (torch_max_one_hot Hk) as H.
  unfold torch_max in H. unfold argmax.
  destruct (one_hot M k); [discriminate|].
  inversion H as [H']. now rewrite H'.
Qed.

Lemma machineid_of_row_ok M row :
  0 < M -> block_okb M (machine_block M row) = true ->
  machineid_of_row M row = Ok (machineid_spec M row).
Proof.
  intros HM Hb. unfold machineid_of_row, machineid_spec.
  apply block_okb_cases in Hb as [Hb|(k & Hk & Hb)]; rewrite Hb.
  - rewrite torch_max_zeros by exact HM. simpl. now rewrite all_zero_zeros.
  - rewrite torch_max_one_hot by exact Hk. simpl.
    rewrite all_zero_one_hot, argmax_one_hot by exact Hk.
    reflexivity.
Qed.

Lemma blocks_okb_inv M f :
  blocks_okb M f = true ->
  0 < M /\ forall row, In row f ->
                       6 + M <= length row /\ block_okb M (machine_block M row) = true.
Proof.
  unfold blocks_okb. rewrite andb_true_iff, forallb_forall.
  intros [HM H]. apply Nat.ltb_lt in HM. split; [exact HM|].
  intros row Hrow. specialize (H row Hrow).
  apply andb_true_iff in H as [H1 H2]. apply Nat.leb_le in H1. auto.
Qed.

Lemma machine_ids_ok M f :
  blocks_okb M f = true ->
  machine_ids M f = Ok (map (machineid_spec M) f).
Proof.
  intros H. apply blocks_okb_inv in H as [HM H].
  unfold machine_ids. replace (M =? 0) with false
    by (symmetry; apply Nat.eqb_neq; lia).
  apply mapM_total. intros row Hrow.
  apply machineid_of_row_ok; [exact HM | apply H, Hrow].
Qed.

Lemma filter_seq_nth {A : Type} (p : A -> bool) (d : A) (l : list A) : forall s,
  length (filter (fun i => p (nth (i - s) l d)) (seq s (length l)))
  = length (filter p l).
Proof.
  induction l as [|a l IH]; intros s; [reflexivity|].
  cbn [length seq filter]. rewrite Nat.sub_diag. cbn [nth].
  rewrite (filter_ext_in (fun i => p (nth (i - s) (a :: l) d))
                         (fun i => p (nth (i - S s) l d))).
  - destruct (p a); cbn [length]; rewrite IH; reflexivity.
  - intros i Hi. apply in_seq in Hi.
    replace (i - s) with (S (i - S s)) by lia. reflexivity.
Qed.

Lemma idxaffected_count M f :
  length (idxaffected_of (map (machineid_spec M) f))
  = length (filter (fun row => negb (all_zero (machine_block M row))) f).
Proof.
  unfold idxaffected_of, nonzero1. rewrite length_map.
  rewrite <- (filter_seq_nth (fun row => negb (all_zero (machine_block M row))) [] f 0).
  f_equal. apply filter_ext_in. intros i Hi. apply in_seq in Hi.
  rewrite Nat.sub_0_r.
  replace (-1)%Z with (machineid_spec M []) at 1
    by (unfold machineid_spec, machine_block, slice; destruct M; reflexivity).
  rewrite map_nth. unfold machineid_spec.
  destruct (all_zero (machine_block M (nth i f []))); simpl; [reflexivity|].
  unfold Zn. destruct (Z.of_nat _ =? -1)%Z eqn:E; [|reflexivity].
  apply Z.eqb_eq in E. lia.
Qed.

Lemma Qc_ltb_false a b : Qc_ltb a b = false <-> (b <= a)%Qc.
Proof.
  unfold Qc_ltb, Qcle. rewrite negb_false_iff. apply Qle_bool_iff.
Qed.

Lemma Qc_ltb_true a b : Qc_ltb a b = true -> (a <= b)%Qc.
Proof.
  intros H. destruct (Qclt_le_dec a b) as [Hlt|Hle].
  - apply Qclt_le_weak, Hlt.
  - apply Qc_ltb_false in Hle. congruence.
Qed.

(** ** Machine ids of blocks without negative entries *)

Lemma max_from_spec r : forall i best besti,
  (best <= fst (max_from i best besti r))%Qc
  /\ Forall (fun u => (u <= fst (max_from i best besti r))%Qc) r
  /\ (fst (max_from i best besti r) = best \/ In (fst (max_from i best besti r)) r).
Proof.
  induction r as [|v r IH]; intros i best besti; simpl.
  - split; [apply Qcle_refl|]. split; [constructor | now left].
  - destruct (Qc_ltb best v) eqn:E.
    + apply Qc_ltb_true in E.
      destruct (IH (S i) v i) as (H1 & H2 & H3).
      split; [eapply Qcle_trans; eauto|].
      split; [constructor; assumption|].
      destruct H3 as [H3|H3]; right; [left; now rewrite H3 | now right].
    + apply Qc_ltb_false in E.
      destruct (IH (S i) best besti) as (H1 & H2 & H3).
      split; [exact H1|].
      split; [constructor; [eapply Qcle_trans; eauto | assumption]|].
      destruct H3 as [H3|H3]; [now left | right; now right].
Qed.

Lemma block_nonnegb_inv b u :
  block_nonnegb b = true -> In u b -> (0 <= u)%Qc.
Proof.
  unfold block_nonnegb. rewrite forallb_forall. intros H Hu.
  apply Qle_bool_iff. exact (H u Hu).
Qed.

Lemma all_zero_inv b u : all_zero b = true -> In u b -> u = 0%Qc.
Proof.
  unfold all_zero. rewrite forallb_forall. intros H Hu.
  apply Qc_eqb_eq. exact (H u Hu).
Qed.

(** On a block without negative entries the maximum is zero exactly when
    the block is all zero. *)
Lemma torch_max_zero b v k :
  block_nonnegb b = true -> torch_max b = Ok (v, k) ->
  Qc_eqb v 0%Qc = all_zero b /\ k = argmax b.
Proof.
  intros Hb H. destruct b as [|a r]; [discriminate|].
  simpl in H. inversion H as [Hmax]. unfold argmax. rewrite Hmax. split; [|reflexivity].
  destruct (max_from_spec r 1 a 0) as (H1 & H2 & H3).
  rewrite Hmax in H1, H2, H3. cbn [fst] in *.
  assert (Hall : Forall (fun u => (u <= v)%Qc) (a :: r)) by (now constructor).
  assert (Hin : In v (a :: r)) by (destruct H3 as [->|H3]; [now left | now right]).
  destruct (all_zero (a :: r)) eqn:Hzero.
  - apply Qc_eqb_eq. now apply (@all_zero_inv (a :: r) v Hzero).
  - destruct (Qc_eqb v 0) eqn:E; [|reflexivity].
    apply Qc_eqb_eq in E. subst v. exfalso.
    assert (Hz : all_zero (a :: r) = true).
    { unfold all_zero. apply forallb_forall. intros u Hu. apply Qc_eqb_eq.
      apply Qcle_antisym.
      - rewrite Forall_forall in Hall. now apply Hall.
      - now apply (@block_nonnegb_inv (a :: r) u Hb). }
    congruence.
Qed.

Lemma blocks_nonnegb_inv M f :
  blocks_nonnegb M f = true ->
  0 < M /\ forall row, In row f ->
                       6 < length row /\ block_nonnegb (machine_block M row) = true.
Proof.
  unfold blocks_nonnegb. rewrite andb_true_iff, forallb_forall.
  intros [HM H]. apply Nat.ltb_lt in HM. split; [exact HM|].
  intros row Hrow. specialize (H row Hrow).
  apply andb_true_iff in H as [H1 H2]. apply Nat.ltb_lt in H1. auto.
Qed.

Lemma machineid_of_row_nonneg M row :
  0 < M -> 6 < length row -> block_nonnegb (machine_block M row) = true ->
  machineid_of_row M row = Ok (machineid_spec M row).
Proof.
  intros HM Hrow Hb. unfold machineid_of_row, machineid_spec.
  destruct (torch_max (machine_block M row)) as [[v k]|e] eqn:E.
  - destruct (@torch_max_zero _ v k Hb E) as [Hv ->]. simpl. now rewrite Hv.
  - exfalso. unfold torch_max in E.
    destruct (machine_block M row) as [|a r] eqn:B; [|discriminate].
    apply (f_equal (@length Qc)) in B. unfold machine_block, slice in B.
    rewrite length_firstn, length_skipn in B. simpl in B. lia.
Qed.

Lemma machine_ids_nonneg M f :
  blocks_nonnegb M f = true ->
  machine_ids M f = Ok (map (machineid_spec M) f).
Proof.
  intros H. apply blocks_nonnegb_inv in H as [HM H].
  unfold machine_ids. replace (M =? 0) with false
    by (symmetry; apply Nat.eqb_neq; lia).
  apply mapM_total. intros row Hrow.
  destruct (H row Hrow) as [Hlen Hb].
  now apply machineid_of_row_nonneg.
Qed.

(** ** Machine-node mode: the number of edges *)

Lemma hub_of_total M node_offset machineid b i :
  i < length b ->
  hub_of M node_offset machineid b i
  = Ok (Zn i, nth i machineid (-1)%Z,
        (Zn (nth i b 0%nat) * Zn M + nth i machineid (-1)%Z + Zn node_offset)%Z).
Proof.
  intros Hi. unfold hub_of. now rewrite (nth_error_nth' b 0 Hi).
Qed.

(** The blocks of the data model hold no negative entry. *)
Lemma blocks_okb_nonneg M f : blocks_okb M f = true -> blocks_nonnegb M f = true.
Proof.
  intros H. apply blocks_okb_inv in H as [HM H].
  unfold blocks_nonnegb. apply andb_true_iff. split; [now apply Nat.ltb_lt|].
  apply forallb_forall. intros row Hrow. destruct (H row Hrow) as [Hlen Hb].
  apply andb_true_iff. split; [apply Nat.ltb_lt; lia|].
  unfold block_nonnegb. apply forallb_forall. intros v Hv.
  apply block_okb_cases in Hb as [Hb|(k & Hk & Hb)]; rewrite Hb in Hv.
  - apply repeat_spec in Hv. now subst.
  - unfold one_hot in Hv. apply in_app_iff in Hv as [Hv|[Hv|Hv]].
    + apply repeat_spec in Hv. now subst.
    + now subst.
    + apply repeat_spec in Hv. now subst.
Qed.

(** ** Machine-node mode on arbitrary machine blocks *)










(** ** Edge type codes of the conflict stage *)

Lemma clique_match_affected mids i j :
  Forall (fun m => (-1 <= m)%Z) mids ->
  (nth j mids (-1) =? m2_of (nth i mids (-1)))%Z = true ->
  (0 <= nth i mids (-1))%Z.
Proof.
  intros Hr H. apply Z.eqb_eq in H.
  pose proof (nth_range_default i Hr) as Hi.
  pose proof (nth_range_default j Hr) as Hj.
  unfold m2_of in H.
  destruct (nth i mids (-1) =? -1)%Z eqn:E.
  - lia.
  - apply Z.eqb_neq in E. lia.
Qed.

Lemma clique_highmem_codes M features nnodes b new :
  clique_highmem M features nnodes b = Ok new -> Forall conflict_code new.
Proof.
  unfold clique_highmem. intros H.
  apply bind_ok_inv in H as (machineid & Hm & H).
  apply bind_ok_inv in H as (aff & _ & H).
  destruct (negb (length b =? nnodes)); [discriminate|].
  inversion H; subst; clear H.
  apply machine_ids_range in Hm.
  apply Forall_forall. intros e He.
  apply in_map_iff in He as ([i j] & <- & Hin).
  apply in_nonzero2 in Hin as (_ & _ & Hc).
  unfold clique_cond_batch in Hc.
  repeat (apply andb_true_iff in Hc as [Hc _]).
  apply (clique_match_affected _ _ Hm) in Hc.
  unfold conflict_code, code; simpl. lia.
Qed.

Lemma clique_of_graph_codes M features lo hi new :
  clique_of_graph M features lo hi = Ok new -> Forall conflict_code new.
Proof.
  unfold clique_of_graph. intros H.
  apply bind_ok_inv in H as (machineid & Hm & H).
  apply bind_ok_inv in H as (aff & _ & H).
  inversion H; subst; clear H.
  apply machine_ids_range in Hm.
  apply Forall_forall. intros e He.
  apply in_map_iff in He as ([i j] & <- & Hin).
  apply in_nonzero2 in Hin as (_ & _ & Hc).
  unfold clique_cond in Hc.
  repeat (apply andb_true_iff in Hc as [Hc _]).
  apply (clique_match_affected _ _ Hm) in Hc.
  unfold conflict_code, code; simpl. lia.
Qed.

Lemma clique_mediummem_codes M features p n_batch new :
  clique_mediummem M features p n_batch = Ok new -> Forall conflict_code new.
Proof.
  unfold clique_mediummem. intros H.
  apply bind_ok_inv in H as (per_graph & Hpg & H).
  inversion H; subst; clear H.
  apply Forall_concat.
  eapply mapM_Forall_out; [exact Hpg|].
  intros bi es _ Hes.
  apply bind_ok_inv in Hes as ([lo hi] & _ & Hes).
  exact (clique_of_graph_codes _ _ _ _ Hes).
Qed.

Lemma lowmem_inner_codes machinecpu aff ni1 hi :
  Forall conflict_code (lowmem_inner machinecpu aff ni1 hi).
Proof.
  unfold lowmem_inner.
  destruct (all_zero (nth ni1 machinecpu [])); [constructor|].
  apply Forall_forall. intros e He.
  apply in_flat_map in He as (ni2 & _ & He).
  destruct (all_zero (nth ni2 machinecpu [])); [contradiction|].
  destruct (vector_eqb _ _ && _); [|contradiction].
  destruct He as [<-|[<-|[]]]; unfold conflict_code, code, Zn; simpl; lia.
Qed.

Lemma clique_lowmem_codes M features nnodes p n_batch new :
  clique_lowmem M features nnodes p n_batch = Ok new -> Forall conflict_code new.
Proof.
  unfold clique_lowmem. intros H.
  apply bind_ok_inv in H as (aff & _ & H).
  apply bind_ok_inv in H as (per_graph & Hpg & H).
  inversion H; subst; clear H.
  apply Forall_concat.
  eapply mapM_Forall_out; [exact Hpg|].
  intros bi es _ Hes.
  apply bind_ok_inv in Hes as ([lo hi] & _ & Hes).
  inversion Hes; subst; clear Hes.
  apply Forall_forall. intros e He.
  apply in_flat_map in He as (ni1 & _ & He).
  pose proof (lowmem_inner_codes (map (machine_block M) (firstn nnodes features))
                aff ni1 hi) as Hf.
  rewrite Forall_forall in Hf. auto.
Qed.

Lemma node_conflict_edges_codes M features nnodes node_offset b new :
  node_conflict_edges M features nnodes node_offset b = Ok new ->
  Forall conflict_code new.
Proof.
  unfold node_conflict_edges. intros H.
  apply bind_ok_inv in H as (machineid & Hm & H).
  apply bind_ok_inv in H as (hubs & Hh & H).
  inversion H; subst; clear H.
  pose proof (machine_ids_range _ _ Hm) as Hr.
  assert (Hhubs : Forall (fun h => let '(s, m, t) := h in (0 <= m)%Z) hubs).
  { eapply mapM_Forall_out; [exact Hh|].
    intros i h Hin Hih.
    pose proof (hub_of_bounds _ _ _ _ Hr Hin Hih) as Hb.
    destruct h as [[s m] t]. tauto. }
  apply Forall_app; split; apply Forall_forall; intros e He;
    apply in_map_iff in He as ([[s m] t] & <- & Hin);
    rewrite Forall_forall in Hhubs; specialize (Hhubs _ Hin);
    unfold conflict_code, code, Zn; simpl in *; lia.
Qed.

Lemma conflict_edges_codes fe f g off new :
  conflict_edges fe f g off = Ok new -> Forall conflict_code new.
Proof.
  unfold conflict_edges. intros Hc.
  destruct (streq (conflicts fe) "clique").
  - destruct (highmem_conflict_clique fe).
    + exact (clique_highmem_codes _ _ _ _ Hc).
    + destruct (mediummem_conflict_clique fe).
      * exact (clique_mediummem_codes _ _ _ _ Hc).
      * exact (clique_lowmem_codes _ _ _ _ _ Hc).
  - destruct (streq (conflicts fe) "node").
    + exact (node_conflict_edges_codes _ _ _ _ _ Hc).
    + inversion Hc. constructor.
Qed.

(** ** Pooling edges and the [reverse_adj] switch *)

Lemma mapM_map_out {A B C : Type} (f : A -> result B) (f' : A -> result C)
  (h : B -> C) l bs :
  mapM f l = Ok bs ->
  (forall a b, f a = Ok b -> f' a = Ok (h b)) ->
  mapM f' l = Ok (map h bs).
Proof.
  intros H Hf. apply mapM_ok_inv in H. apply mapM_ok_intro.
  induction H; simpl; constructor; auto.
Qed.

Lemma swap_edge_involutive e : swap_edge (swap_edge e) = e.
Proof. destruct e as [[s t] c]. reflexivity. Qed.

Lemma pooling_edges_of_graph_swap off i lo hi :
  pooling_edges_of_graph false off i lo hi
  = map swap_edge (pooling_edges_of_graph true off i lo hi).
Proof.
  unfold pooling_edges_of_graph. rewrite map_map. reflexivity.
Qed.

Lemma pooling_edges_swap p off n pool :
  pooling_edges true p off n = Ok pool ->
  pooling_edges false p off n = Ok (map swap_edge pool).
Proof.
  unfold pooling_edges. intros H.
  apply bind_ok_inv in H as (per_graph & Hpg & H).
  inversion H; subst; clear H.
  rewrite (@mapM_map_out _ _ _ _
             (fun i => lo <- ptr_at p i ;; hi <- ptr_at p (S i) ;;
                       Ok (pooling_edges_of_graph false off i lo hi))
             (map swap_edge) _ _ Hpg).
  - simpl. now rewrite concat_map.
  - intros i es Hes.
    apply bind_ok_inv in Hes as (lo & Hlo & Hes).
    apply bind_ok_inv in Hes as (hi & Hhi & Hes).
    inversion Hes; subst; clear Hes.
    rewrite Hlo, Hhi. simpl. now rewrite pooling_edges_of_graph_swap.
Qed.

Lemma pooling_edges_shape g pool :
  pooling_edges true (ptr g) (length (x g)) (num_graphs g) = Ok pool ->
  Forall (real_to_pool g) pool.
Proof.
  unfold pooling_edges. intros H.
  apply bind_ok_inv in H as (per_graph & Hpg & H).
  inversion H; subst; clear H.
  apply Forall_concat.
  eapply mapM_Forall_out; [exact Hpg|].
  intros i es Hi Hes. apply in_seq in Hi.
  apply bind_ok_inv in Hes as (lo & Hlo & Hes).
  apply bind_ok_inv in Hes as (hi & Hhi & Hes).
  inversion Hes; subst; clear Hes.
  apply Forall_forall. intros e He.
  unfold pooling_edges_of_graph in He.
  apply in_map_iff in He as (r & <- & Hr). apply in_seq in Hr.
  exists i, r, lo, hi. simpl. repeat split; auto; lia.
Qed.

Lemma redirect_pool g e : real_to_pool g e -> redirect e = e.
Proof.
  intros (i & r & lo & hi & _ & _ & _ & _ & ->). reflexivity.
Qed.

Lemma redirect_other e : code e <> 2%Z -> redirect e = swap_edge e.
Proof.
  intros H. unfold redirect. apply Z.eqb_neq in H. now rewrite H.
Qed.

Lemma map_redirect_swap es :
  Forall (fun e => code e <> 2%Z) es -> map swap_edge es = map redirect es.
Proof.
  intros H. apply map_ext_in. intros e He.
  rewrite Forall_forall in H. symmetry. apply redirect_other, H, He.
Qed.

Lemma filter_all {A : Type} (p : A -> bool) (l : list A) :
  Forall (fun a => p a = true) l -> filter p l = l.
Proof.
  induction 1 as [|a l Ha _ IH]; simpl; [reflexivity|]. now rewrite Ha, IH.
Qed.

Lemma filter_none {A : Type} (p : A -> bool) (l : list A) :
  Forall (fun a => p a = false) l -> filter p l = [].
Proof.
  induction 1 as [|a l Ha _ IH]; simpl; [reflexivity|]. now rewrite Ha, IH.
Qed.

Lemma is_pooling_redirect e : is_pooling_edge (redirect e) = is_pooling_edge e.
Proof.
  destruct e as [[s t] c]. unfold redirect, is_pooling_edge, code, src, tgt; simpl.
  destruct (c =? 2)%Z eqn:E; simpl; rewrite E; reflexivity.
Qed.

Lemma redirect_pooling e : is_pooling_edge e = true -> redirect e = e.
Proof. unfold redirect, is_pooling_edge. now intros ->. Qed.

Lemma redirect_not_pooling e : is_pooling_edge e = false -> redirect e = swap_edge e.
Proof. unfold redirect, is_pooling_edge. now intros ->. Qed.

Lemma filter_pooling_redirect es :
  filter is_pooling_edge (map redirect es) = filter is_pooling_edge es.
Proof.
  induction es as [|e es IH]; simpl; [reflexivity|].
  rewrite is_pooling_redirect.
  destruct (is_pooling_edge e) eqn:E; [|exact IH].
  now rewrite IH, redirect_pooling.
Qed.

Lemma filter_other_redirect es :
  filter (fun e => negb (is_pooling_edge e)) (map redirect es)
  = map swap_edge (filter (fun e => negb (is_pooling_edge e)) es).
Proof.
  induction es as [|e es IH]; simpl; [reflexivity|].
  rewrite is_pooling_redirect.
  destruct (is_pooling_edge e) eqn:E; simpl; [exact IH|].
  now rewrite IH, redirect_not_pooling.
Qed.

(** The edges [augment] returns, in terms of its stages. *)
Lemma augment_edges fe g a :
  augment fe g = Ok a ->
  exists f es bid off new,
    pool_stage fe g = Ok (f, es, bid, off)
    /\ conflict_edges fe f g off = Ok new
    /\ aug_edges a = if negb (reverse_adj fe) then map swap_edge (es ++ new)
                     else es ++ new.
Proof.
  unfold augment. intros Ha.
  apply bind_ok_inv in Ha as ([[[f es] bid] off] & Hpool & Ha).
  apply bind_ok_inv in Ha as (new & Hnew & Ha).
  exists f, es, bid, off, new. repeat split; auto.
  destruct (streq (conflicts fe) "node"); inversion Ha; reflexivity.
Qed.

Lemma augment_ok fe g f es bid off new :
  pool_stage fe g = Ok (f, es, bid, off) ->
  conflict_edges fe f g off = Ok new ->
  exists a, augment fe g = Ok a
            /\ aug_edges a = if negb (reverse_adj fe) then map swap_edge (es ++ new)
                             else es ++ new.
Proof.
  intros Hpool Hnew. unfold augment. rewrite Hpool. cbn [bind].
  rewrite Hnew. cbn [bind].
  destruct (streq (conflicts fe) "node"); eexists; split; reflexivity.
Qed.

(** C10. With pooling mode "learn", turning [reverse_adj] off leaves every
    pooling edge of the final edge index as it is and reverses every other
    edge: the pooling-tagged edges are the same in both runs, each directed
    from a node of a graph to that graph's virtual pooling node. *)
Theorem pooling_edges_ignore_reverse_adj fe g a_t :
  streq (graph_pooling fe) "learn" = true ->
  augment (with_reverse_adj fe true) g = Ok a_t ->
  exists a_f,
    augment (with_reverse_adj fe false) g = Ok a_f
    /\ aug_edges a_f = map redirect (aug_edges a_t)
    /\ filter is_pooling_edge (aug_edges a_f) = filter is_pooling_edge (aug_edges a_t)
    /\ Forall (real_to_pool g) (filter is_pooling_edge (aug_edges a_t))
    /\ filter (fun e => negb (is_pooling_edge e)) (aug_edges a_f)
       = map swap_edge (filter (fun e => negb (is_pooling_edge e)) (aug_edges a_t)).
Proof.
  intros Hlearn Ha.
  apply augment_edges in Ha as (f & es & bid & off & new & Hpool & Hnew & Hedges).
  change (reverse_adj (with_reverse_adj fe true)) with true in Hedges.
  cbn [negb] in Hedges.
  unfold pool_stage in Hpool.
  change (graph_pooling (with_reverse_adj fe true)) with (graph_pooling fe) in Hpool.
  rewrite Hlearn in Hpool.
  apply bind_ok_inv in Hpool as (pool & Hpe & Hpool).
  change (reverse_adj (with_reverse_adj fe true)) with true in Hpe.
  inversion Hpool; subst f es bid off; clear Hpool.
  remember (map (fun c => (fst c, snd c, 1%Z)) (edge_index g)) as init eqn:Einit.
  pose proof (pooling_edges_shape _ Hpe) as Hshape.
  pose proof (conflict_edges_codes _ _ _ _ Hnew) as Hcodes.
  assert (Hinit : Forall (fun e => code e <> 2%Z) init).
  { rewrite Einit. apply Forall_forall. intros e He.
    apply in_map_iff in He as (c & <- & _).
    unfold code; simpl. lia. }
  assert (Hnew2 : Forall (fun e => code e <> 2%Z) new).
  { eapply Forall_impl; [|exact Hcodes]. unfold conflict_code. intros; lia. }
  assert (Hpool2 : Forall (fun e => is_pooling_edge e = true) pool).
  { eapply Forall_impl; [|exact Hshape].
    intros e (i & r & lo & hi & _ & _ & _ & _ & ->). reflexivity. }
  assert (Hredirect : map swap_edge ((init ++ map swap_edge pool) ++ new)
                      = map redirect ((init ++ pool) ++ new)).
  { rewrite !map_app, map_map. f_equal; [f_equal|].
    - apply map_redirect_swap, Hinit.
    - apply map_ext_in. intros e He. rewrite swap_edge_involutive.
      rewrite Forall_forall in Hshape. symmetry.
      exact (redirect_pool (Hshape e He)).
    - apply map_redirect_swap, Hnew2. }
  assert (Hpoolf : filter is_pooling_edge (aug_edges a_t) = pool).
  { rewrite Hedges, !filter_app.
    rewrite (filter_all _ Hpool2).
    rewrite (@filter_none _ is_pooling_edge init), (@filter_none _ is_pooling_edge new).
    - now rewrite app_nil_r.
    - eapply Forall_impl; [|exact Hnew2].
      intros e He. unfold is_pooling_edge. now apply Z.eqb_neq.
    - eapply Forall_impl; [|exact Hinit].
      intros e He. unfold is_pooling_edge. now apply Z.eqb_neq. }
  destruct (@augment_ok (with_reverse_adj fe false) g
              (x g ++ zeros (num_graphs g) (width (x g)))
              (init ++ map swap_edge pool) (batch g ++ seq 0 (num_graphs g))
              (length (x g) + num_graphs g) new) as (a_f & Haf & Hedgesf).
  { unfold pool_stage.
    change (graph_pooling (with_reverse_adj fe false)) with (graph_pooling fe).
    rewrite Hlearn.
    change (reverse_adj (with_reverse_adj fe false)) with false.
    rewrite (pooling_edges_swap _ _ _ Hpe). now rewrite Einit. }
  { exact Hnew. }
  change (reverse_adj (with_reverse_adj fe false)) with false in Hedgesf.
  cbn [negb] in Hedgesf.
  assert (Hrel : aug_edges a_f = map redirect (aug_edges a_t))
    by (rewrite Hedgesf, Hedges; exact Hredirect).
  exists a_f. split; [exact Haf|]. split; [exact Hrel|].
  split; [rewrite Hrel; apply filter_pooling_redirect|].
  split; [rewrite Hpoolf; exact Hshape|].
  rewrite Hrel. apply filter_other_redirect.
Qed.

Lemma pooling_edges_ignore_reverse_adj_witness :
  exists a_t a_f,
    augment (with_reverse_adj (ex_fe "eg" "learn" "clique" 1 true true false false true)
                              true) ex_batch = Ok a_t
    /\ augment (with_reverse_adj (ex_fe "eg" "learn" "clique" 1 true true false false true)
                                 false) ex_batch = Ok a_f
    /\ filter is_pooling_edge (aug_edges a_t)
       = [(0, 5, 2); (1, 5, 2); (2, 5, 2); (3, 6, 2); (4, 6, 2)]%Z
    /\ filter is_pooling_edge (aug_edges a_f) = filter is_pooling_edge (aug_edges a_t).
Proof.
  eexists.
  destruct (@pooling_edges_ignore_reverse_adj
              (ex_fe "eg" "learn" "clique" 1 true true false false true) ex_batch
              _ eq_refl eq_refl) as (a_f & Haf & _ & Hsame & _).
  exists a_f. split; [reflexivity|]. split; [exact Haf|].
  split; [reflexivity | exact Hsame].
Defined.

(** ** Construction and the convolution type *)

Lemma mapM_const_raise {A B : Type} (e : exn) (l : list A) :
  l <> [] -> mapM (fun _ : A => @Raise B e) l = Raise e.
Proof. destruct l; [congruence | reflexivity]. Qed.

Lemma mapM_const_ok {A B : Type} (b : B) (l : list A) :
  mapM (fun _ : A => Ok b) l = Ok (repeat b (length l)).
Proof.
  induction l as [|a l IH]; simpl; [reflexivity|]. now rewrite IH.
Qed.

(** With at least one layer, "gin" reaches the call of the name [GINConv],
    which the file does not import. *)
Lemma init_gin a :
  arg_gconv_type a = "gin" -> 0 < arg_n_layers_features_extractor a ->
  init a = Raise (NameError "GINConv").
Proof.
  intros Hg HL.
  assert (Hb : build_layer a = Raise (NameError "GINConv"))
    by (unfold build_layer; rewrite Hg; reflexivity).
  unfold init. rewrite Hb, mapM_const_raise; [reflexivity|].
  destruct (arg_n_layers_features_extractor a); [lia | discriminate].
Qed.

(** With at least one layer, a type without a branch reaches [sys.exit()]. *)
Lemma init_unrecognized a :
  ~ In (arg_gconv_type a) recognized_gconv -> 0 < arg_n_layers_features_extractor a ->
  init a = Raise SystemExit.
Proof.
  intros Hg HL.
  assert (H : forall s, In s recognized_gconv -> streq (arg_gconv_type a) s = false).
  { intros s Hs. apply String.eqb_neq. intros E. apply Hg. now rewrite E. }
  assert (Hb : build_layer a = Raise SystemExit).
  { unfold build_layer.
    rewrite (H "gin"), (H "gatv2"), (H "eg"), (H "pdn") by (simpl; tauto).
    reflexivity. }
  unfold init. rewrite Hb, mapM_const_raise; [reflexivity|].
  destruct (arg_n_layers_features_extractor a); [lia | discriminate].
Qed.

(** "gatv2" and "pdn" build the object, and so does "eg" when the hidden
    width is a multiple of 8. *)
Lemma init_builds a :
  In (arg_gconv_type a) ["gatv2"; "pdn"]
  \/ (arg_gconv_type a = "eg" /\ arg_hidden_dim_features_extractor a mod 8 = 0) ->
  is_ok (init a) = true.
Proof.
  intros Hg.
  assert (Hb : exists c, build_layer a = Ok c).
  { unfold build_layer.
    destruct Hg as [[<-|[<-|[]]] | [-> Hh]]; try (eexists; reflexivity).
    change (streq "eg" "gin") with false. change (streq "eg" "gatv2") with false.
    change (streq "eg" "eg") with true. cbv iota.
    rewrite Hh. eexists; reflexivity. }
  destruct Hb as (c & Hb).
  unfold init. rewrite Hb, mapM_const_ok. reflexivity.
Qed.

(** "eg" with another hidden width ends in the [ValueError] of the
    [EGConv] constructor, when there is a layer to build. *)
Lemma init_eg_width a :
  arg_gconv_type a = "eg" -> arg_hidden_dim_features_extractor a mod 8 <> 0 ->
  0 < arg_n_layers_features_extractor a ->
  init a = Raise ValueError.
Proof.
  intros Hg Hh HL.
  assert (Hb : build_layer a = Raise ValueError).
  { unfold build_layer. rewrite Hg.
    change (streq "eg" "gin") with false. change (streq "eg" "gatv2") with false.
    change (streq "eg" "eg") with true. cbv iota.
    destruct (Nat.eqb_spec (arg_hidden_dim_features_extractor a mod 8) 0);
      [contradiction | reflexivity]. }
  unfold init. rewrite Hb, mapM_const_raise; [reflexivity|].
  destruct (arg_n_layers_features_extractor a); [lia | discriminate].
Qed.

(** Without layers the loop that looks at the convolution type does not
    run. *)
Lemma init_no_layer a :
  arg_n_layers_features_extractor a = 0 -> is_ok (init a) = true.
Proof. intros H. unfold init. rewrite H. reflexivity. Qed.

(** C4, at the failing input: the GIN-style type is recognized, and the
    construction with one layer ends in a [NameError]. *)
Theorem init_gin_name_error :
  In "gin" recognized_gconv
  /\ init (ex_args "gin" "max" "att" 1 true true false) = Raise (NameError "GINConv").
Proof. split; [simpl; tauto | reflexivity]. Qed.

(** ** The pooling mode *)

Lemma bind_no_config_error {A B : Type} (r : result A) (k : A -> result B) :
  ~ config_error r -> (forall a, ~ config_error (k a)) -> ~ config_error (bind r k).
Proof.
  intros Hr Hk. destruct r as [a|e]; simpl; [apply Hk|].
  intros (m & H). apply Hr. exists m. congruence.
Qed.

Lemma mapM_no_config_error {A B : Type} (f : A -> result B) (l : list A) :
  (forall a, ~ config_error (f a)) -> ~ config_error (mapM f l).
Proof.
  intros Hf. induction l as [|a l IH]; simpl.
  - intros (m & H). discriminate.
  - apply bind_no_config_error; [apply Hf|]. intros b.
    apply bind_no_config_error; [exact IH|]. intros bs (m & H). discriminate.
Qed.

Ltac no_config_error :=
  repeat first
    [ apply bind_no_config_error; [|intros]
    | apply mapM_no_config_error; intros
    | progress cbv beta zeta
    | match goal with
      | |- ~ config_error (Ok _) => intros (? & ?); discriminate
      | |- ~ config_error (Raise _) => intros (? & ?); discriminate
      | |- ~ config_error (if ?c then _ else _) => destruct c
      | |- ~ config_error (match ?v with _ => _ end) => destruct v
      end ].

Lemma ptr_at_no_config_error p i : ~ config_error (ptr_at p i).
Proof. unfold ptr_at. no_config_error. Qed.

Lemma graph_range_no_config_error p n bi : ~ config_error (graph_range p n bi).
Proof.
  unfold graph_range. no_config_error; apply ptr_at_no_config_error.
Qed.

Lemma machine_ids_no_config_error M f : ~ config_error (machine_ids M f).
Proof.
  unfold machine_ids, machineid_of_row, torch_max. no_config_error.
Qed.

Lemma affectations_no_config_error f : ~ config_error (affectations f).
Proof. unfold affectations, aff_of_row. no_config_error. Qed.

Lemma pooling_edges_no_config_error r p off n : ~ config_error (pooling_edges r p off n).
Proof.
  unfold pooling_edges. no_config_error; apply ptr_at_no_config_error.
Qed.

Lemma conflict_edges_no_config_error fe f g off :
  ~ config_error (conflict_edges fe f g off).
Proof.
  unfold conflict_edges, clique_highmem, clique_mediummem, clique_of_graph,
    clique_lowmem, node_conflict_edges, hub_of.
  no_config_error;
    first [ apply machine_ids_no_config_error
          | apply affectations_no_config_error
          | apply graph_range_no_config_error
          | apply ptr_at_no_config_error
          | unfold aff_of_row; no_config_error ].
Qed.

Lemma augment_no_config_error fe g : ~ config_error (augment fe g).
Proof.
  unfold augment, pool_stage.
  no_config_error;
    first [ apply pooling_edges_no_config_error
          | apply conflict_edges_no_config_error
          | apply ptr_at_no_config_error ].
Qed.

Lemma vadd_no_config_error a b : ~ config_error (vadd a b).
Proof. unfold vadd. no_config_error. Qed.

Lemma iadd_no_config_error a b : ~ config_error (iadd a b).
Proof. unfold iadd. no_config_error; apply vadd_no_config_error. Qed.

Lemma layer_step_no_config_error lp fe es bid layer st :
  ~ config_error (layer_step lp fe es bid layer st).
Proof.
  unfold layer_step, alloc. no_config_error; apply iadd_no_config_error.
Qed.

Lemma layer_loop_no_config_error lp fe es bid layers : forall st,
  ~ config_error (layer_loop lp fe es bid layers st).
Proof.
  induction layers as [|layer rest IH]; simpl; intros st.
  - no_config_error.
  - apply bind_no_config_error; [apply layer_step_no_config_error | apply IH].
Qed.

Lemma cat1_no_config_error ts : ~ config_error (cat1 ts).
Proof.
  induction ts as [|t ts IH]; simpl.
  - no_config_error.
  - destruct ts as [|t' ts']; [no_config_error|].
    apply bind_no_config_error; [exact IH|]. intros rest. no_config_error.
Qed.

Lemma reshape3_no_config_error d0 d1 t : ~ config_error (reshape3 d0 d1 t).
Proof. unfold reshape3. no_config_error. Qed.

Lemma streq_eq a b : streq a b = true <-> a = b.
Proof. apply String.eqb_eq. Qed.

(** C9. A pooling mode that is not "max", "avg" or "learn" makes [forward]
    raise: it never returns a tensor, and once the stages before the readout
    have run the error is the one that names the mode.  With one of the
    three modes that error is never raised. *)
Theorem forward_pooling_mode lp fe obs :
  (accepted_pooling (graph_pooling fe) = false ->
   is_ok (forward lp fe obs) = false
   /\ forall a st features node_features,
        augment fe (to_graph obs) = Ok a ->
        embed_layers lp fe a = Ok st ->
        final_features st = Ok features ->
        reshape3 (get_batch_size obs) (get_n_nodes obs)
                 (firstn (length (x (to_graph obs))) features) = Ok node_features ->
        forward lp fe obs = Raise (PoolingNotRecognized (graph_pooling fe)))
  /\ (accepted_pooling (graph_pooling fe) = true -> ~ config_error (forward lp fe obs)).
Proof.
  split.
  - intros Hacc. unfold accepted_pooling in Hacc.
    apply orb_false_iff in Hacc as [Hacc Hlearn].
    apply orb_false_iff in Hacc as [Hmax Havg].
    assert (Hread : forall features,
               is_ok (readout fe obs features) = false
               /\ forall nf,
                   reshape3 (get_batch_size obs) (get_n_nodes obs)
                            (firstn (length (x (to_graph obs))) features) = Ok nf ->
                   readout fe obs features = Raise (PoolingNotRecognized (graph_pooling fe))).
    { intros features. unfold readout, graph_embedding_of.
      rewrite Hmax, Havg, Hlearn.
      destruct (reshape3 _ _ (firstn _ features)) as [nf|e]; simpl.
      - split; [reflexivity|]. intros; reflexivity.
      - split; [reflexivity|]. intros; discriminate. }
    unfold forward. split.
    + destruct (augment fe (to_graph obs)) as [a|e]; [simpl|reflexivity].
      destruct (embed_layers lp fe a) as [st|e]; [simpl|reflexivity].
      destruct (final_features st) as [features|e]; [simpl|reflexivity].
      exact (proj1 (Hread features)).
    + intros a st features nf Ha Hst Hf Hnf.
      rewrite Ha; simpl. rewrite Hst; simpl. rewrite Hf; simpl.
      exact (proj2 (Hread features) nf Hnf).
  - intros Hacc. unfold forward.
    apply bind_no_config_error; [apply augment_no_config_error|]. intros a.
    apply bind_no_config_error.
    { unfold embed_layers, alloc. apply layer_loop_no_config_error. }
    intros st.
    apply bind_no_config_error; [apply cat1_no_config_error|]. intros features.
    unfold readout.
    apply bind_no_config_error; [apply reshape3_no_config_error|]. intros nf.
    apply bind_no_config_error.
    { unfold graph_embedding_of, accepted_pooling in *.
      destruct (streq (graph_pooling fe) "max").
      - unfold max_over_nodes. no_config_error.
      - destruct (streq (graph_pooling fe) "avg").
        + unfold matmul_rows. no_config_error.
        + destruct (streq (graph_pooling fe) "learn"); [|discriminate].
          no_config_error. }
    intros ge.
    apply bind_no_config_error; [apply reshape3_no_config_error|]. intros ge3.
    unfold expand_rows. no_config_error.
Qed.

Lemma forward_pooling_mode_witness :
  forward ex_lp (ex_fe "eg" "learned" "att" 1 true true false false true) ex_obs
  = Raise (PoolingNotRecognized "learned")
  /\ ~ config_error
         (forward ex_lp (ex_fe "eg" "learn" "att" 1 true true false false true) ex_obs).
Proof.
  split.
  - eapply (proj1 (@forward_pooling_mode ex_lp
                     (ex_fe "eg" "learned" "att" 1 true true false false true) ex_obs));
      [reflexivity | vm_compute; reflexivity ..].
  - exact (proj2 (@forward_pooling_mode ex_lp
                    (ex_fe "eg" "learn" "att" 1 true true false false true) ex_obs)
                 eq_refl).
Defined.

(** ** Readout: the reductions over the node axis *)





(** Element-wise operations on rows, for an operation that is commutative
    and associative. *)
Section Elementwise.
Variable op : Qc -> Qc -> Qc.
Hypothesis op_comm : forall a b, op a b = op b a.
Hypothesis op_assoc : forall a b c, op a (op b c) = op (op a b) c.



End Elementwise.





Lemma width_permutation w rows rows' :
  Forall (fun r => length r = w) rows -> Permutation rows rows' ->
  width rows = width rows'.
Proof.
  intros Hw Hp.
  assert (Hw' : Forall (fun r => length r = w) rows').
  { apply Forall_forall. intros r Hr. rewrite Forall_forall in Hw.
    apply Hw. eapply Permutation_in; [apply Permutation_sym, Hp | exact Hr]. }
  destruct rows as [|r rows]; destruct rows' as [|r' rows']; simpl.
  - reflexivity.
  - apply Permutation_nil in Hp. discriminate.
  - apply Permutation_sym, Permutation_nil in Hp. discriminate.
  - inversion Hw; inversion Hw'; congruence.
Qed.

Lemma combine_repeat_l {A B : Type} (c : A) (l : list B) :
  combine (repeat c (length l)) l = map (pair c) l.
Proof.
  induction l as [|b l IH]; simpl; [reflexivity|]. now rewrite IH.
Qed.





(** ** The residual connection *)

Lemma store_last (h : heap) t t' : store (h ++ [t]) (length h) t' = h ++ [t'].
Proof.
  unfold store. rewrite skipn_all2 by (rewrite length_app; simpl; lia).
  rewrite firstn_app, Nat.sub_diag, firstn_all. simpl. now rewrite app_nil_r.
Qed.

Lemma load_app_l (h ext : heap) l : l < length h -> load (h ++ ext) l = load h l.
Proof. intros H. unfold load. now rewrite app_nth1. Qed.

Lemma load_last (h : heap) t : load (h ++ [t]) (length h) = t.
Proof. unfold load. now rewrite app_nth2, Nat.sub_diag by lia. Qed.

Lemma layer_step_residual lp fe es bid layer st st' :
  residual fe = true -> normalize fe = false -> stack_inv st ->
  layer_step lp fe es bid layer st = Ok st' ->
  exists sum,
    iadd (layer_output lp fe es bid layer (load (st_heap st) (st_features st)))
         (load (st_heap st) (st_features st)) = Ok sum
    /\ st' = {| st_heap := st_heap st ++ [sum];
                st_features := length (st_heap st);
                st_features_list := seq 0 (S (length (st_heap st))) |}.
Proof.
  intros Hres Hnorm (Hlist & Hfeat & Hlen) H.
  unfold layer_step, alloc in H. rewrite Hres, Hnorm in H.
  set (out := layer_output lp fe es bid layer (load (st_heap st) (st_features st))) in *.
  rewrite Hlist in H.
  replace (seq 0 (length (st_heap st)) ++ [length (st_heap st)])
    with (seq 0 (S (length (st_heap st)))) in H by (now rewrite seq_S).
  rewrite length_seq in H.
  replace (nth (S (length (st_heap st)) - 2) (seq 0 (S (length (st_heap st)))) 0)
    with (st_features st) in H by (rewrite seq_nth; lia).
  rewrite load_last, load_app_l in H by lia.
  apply bind_ok_inv in H as (sum & Hsum & H).
  exists sum. split; [exact Hsum|].
  rewrite store_last in H. now inversion H.
Qed.

Lemma layer_loop_residual lp fe es bid :
  residual fe = true -> normalize fe = false ->
  forall n k st st',
    stack_inv st -> length (st_heap st) = k + 2 ->
    layer_loop lp fe es bid (seq k n) st = Ok st' ->
    stack_inv st'
    /\ (exists ext, st_heap st' = st_heap st ++ ext /\ length ext = n)
    /\ forall i, k <= i < k + n ->
                 iadd (layer_output lp fe es bid i (nth (i + 1) (st_heap st') []))
                      (nth (i + 1) (st_heap st') [])
                 = Ok (nth (i + 2) (st_heap st') []).
Proof.
  intros Hres Hnorm. induction n as [|n IH]; intros k st st' Hinv Hlen H.
  - simpl in H. inversion H; subst. split; [exact Hinv|]. split.
    + exists []. now rewrite app_nil_r.
    + intros i Hi. lia.
  - simpl in H. apply bind_ok_inv in H as (st1 & Hstep & H).
    destruct (@layer_step_residual lp fe es bid k st st1 Hres Hnorm Hinv Hstep)
      as (sum & Hsum & ->).
    assert (Hfeat : st_features st = k + 1) by (destruct Hinv as (_ & ? & _); lia).
    rewrite Hfeat in Hsum. unfold load in Hsum.
    apply IH in H as (Hinv' & (ext & Hext & Hextlen) & Hentries).
    + simpl in Hext. split; [exact Hinv'|]. split.
      * exists (sum :: ext). split; [now rewrite Hext, <- app_assoc | simpl; lia].
      * intros i Hi. destruct (Nat.eq_dec i k) as [->|Hne].
        -- rewrite Hext, <- app_assoc.
           rewrite !app_nth1 by lia.
           rewrite Hsum. f_equal.
           rewrite app_nth2 by lia.
           replace (k + 2 - length (st_heap st)) with 0 by lia. reflexivity.
        -- apply Hentries. lia.
    + unfold stack_inv. cbn [st_heap st_features st_features_list].
      rewrite length_app. cbn [length].
      split; [f_equal; lia|]. split; lia.
    + cbn [st_heap]. rewrite length_app. cbn [length]. lia.
Qed.

Lemma Forall2_nth_both {A B : Type} (R : A -> B -> Prop) (da : A) (db : B) l l' :
  Forall2 R l l' -> forall r, r < length l -> R (nth r l da) (nth r l' db).
Proof.
  induction 1 as [|u v l l' Huv _ IH]; intros r Hr; simpl in Hr; [lia|].
  destruct r as [|r]; simpl; [exact Huv | apply IH; lia].
Qed.

(** Where the two rows have the same length, [vadd] is the element-wise
    binary32 sum. *)
Lemma vadd_elementwise u v w :
  vadd u v = Ok w -> length v = length u ->
  forall c, c < length u -> nth c w 0%Qc = f32_add (nth c u 0%Qc) (nth c v 0%Qc).
Proof.
  intros H Hl c Hc. unfold vadd in H. rewrite Hl, Nat.eqb_refl in H.
  inversion H; subst w; clear H.
  rewrite (nth_indep _ 0%Qc (f32_add (fst (0%Qc, 0%Qc)) (snd (0%Qc, 0%Qc))))
    by (rewrite length_map, length_combine; lia).
  rewrite (map_nth (fun p : Qc * Qc => f32_add (fst p) (snd p))).
  rewrite combine_nth by (symmetry; exact Hl). reflexivity.
Qed.

(** Where the two tensors have the same number of rows, [iadd] adds row
    by row. *)
Lemma iadd_rowwise a b s :
  iadd a b = Ok s -> length b = length a ->
  forall r, r < length a -> vadd (nth r a []) (nth r b []) = Ok (nth r s []).
Proof.
  intros H Hl r Hr. unfold iadd in H. rewrite Hl, Nat.eqb_refl in H.
  apply mapM_ok_inv in H.
  pose proof (@Forall2_nth_both _ _ _ (@nil Qc, @nil Qc) (@nil Qc) _ _ H r) as E.
  rewrite length_combine, combine_nth in E by (symmetry; exact Hl).
  apply E. lia.
Qed.

(** C5. With the residual connection and without normalisation, the entry
    of [features_list] recorded for layer [i] is the output of that layer
    (the convolution of the entry before it, with the nonlinearity and the
    auxiliary projection where configured) plus the entry before it: the
    in-place addition of the two tensors, which is, element by element, the
    binary32 sum wherever the previous entry has the shape of the output
    and the sum is in the finite range. *)
Theorem residual_entry_is_output_plus_previous lp fe a st :
  residual fe = true -> normalize fe = false ->
  embed_layers lp fe a = Ok st ->
  length (st_features_list st) = n_layers_features_extractor fe + 2
  /\ forall i, i < n_layers_features_extractor fe ->
       let prev := entry st (i + 1) in
       let gat := streq (gconv_type fe) "gatv2" in
       let conv := run_conv lp i prev (edge_columns (aug_edges a))
                            (edge_attr lp i (aug_edges a)) in
       let act := if graph_has_relu fe || gat then run_elu lp conv else conv in
       let out := if gat then run_mlps lp i act else act in
       iadd out prev = Ok (entry st (i + 2))
       /\ (length prev = length out ->
           forall r c,
             r < length out -> c < length (nth r out []) ->
             length (nth r prev []) = length (nth r out []) ->
             f32_finite (nth c (nth r out []) 0 + nth c (nth r prev []) 0)%Qc = true ->
             nth c (nth r (entry st (i + 2)) []) 0%Qc
             = round_f32 (nth c (nth r out []) 0 + nth c (nth r prev []) 0)%Qc).
Proof.
  intros Hres Hnorm H. unfold embed_layers, alloc in H. rewrite Hnorm in H.
  cbn [length app] in H.
  apply (@layer_loop_residual lp fe _ _ Hres Hnorm) with (k := 0) in H
      as ((Hlist & Hfeat & Hlen) & (ext & Hext & Hextlen) & Hentries).
  - simpl in Hext.
    assert (Hheap : length (st_heap st) = n_layers_features_extractor fe + 2)
      by (rewrite Hext; simpl; lia).
    split; [now rewrite Hlist, length_seq|].
    intros i Hi. cbv zeta.
    assert (Hsum : iadd (layer_output lp fe (aug_edges a) (aug_batch_id a) i
                                      (entry st (i + 1)))
                        (entry st (i + 1)) = Ok (entry st (i + 2))).
    { unfold entry, load. rewrite Hlist.
      rewrite (@seq_nth (length (st_heap st)) 0 (i + 1) 0) by (rewrite Hheap; lia).
      rewrite (@seq_nth (length (st_heap st)) 0 (i + 2) 0) by (rewrite Hheap; lia).
      apply Hentries. lia. }
    unfold layer_output in Hsum. rewrite Hnorm in Hsum. cbv zeta in Hsum.
    split; [exact Hsum|].
    intros Hrows r c Hr Hc Hcols _.
    pose proof (@iadd_rowwise _ _ _ Hsum Hrows r Hr) as Hrow.
    exact (@vadd_elementwise _ _ _ Hrow Hcols c Hc).
  - unfold stack_inv. simpl. repeat split; lia.
  - reflexivity.
Qed.

Lemma residual_entry_is_output_plus_previous_witness :
  exists st,
    embed_layers ex_lp (ex_fe "eg" "max" "clique" 2 true true false false true) ex_aug
    = Ok st
    /\ length (st_features_list st) = 4
    /\ let fe := ex_fe "eg" "max" "clique" 2 true true false false true in
       let prev := entry st 2 in
       let out := run_conv ex_lp 1 prev (edge_columns (aug_edges ex_aug))
                           (edge_attr ex_lp 1 (aug_edges ex_aug)) in
       iadd out prev = Ok (entry st 3)
       /\ (length prev = length out ->
           forall r c,
             r < length out -> c < length (nth r out []) ->
             length (nth r prev []) = length (nth r out []) ->
             f32_finite (nth c (nth r out []) 0 + nth c (nth r prev []) 0)%Qc = true ->
             nth c (nth r (entry st 3) []) 0%Qc
             = round_f32 (nth c (nth r out []) 0 + nth c (nth r prev []) 0)%Qc).
Proof.
  eexists. split; [vm_compute; reflexivity|].
  destruct (@residual_entry_is_output_plus_previous
              ex_lp (ex_fe "eg" "max" "clique" 2 true true false false true) ex_aug
              _ eq_refl eq_refl eq_refl) as [Hlen Hentries].
  split; [exact Hlen|]. apply (Hentries 1). simpl. lia.
Defined.

(** ** Shapes of slices and concatenations *)

Lemma has_shape_app r r' c m m' :
  has_shape r c m -> has_shape r' c m' -> has_shape (r + r') c (m ++ m').
Proof.
  intros [H1 H2] [H3 H4]. split.
  - rewrite length_app. lia.
  - apply Forall_app. auto.
Qed.

Lemma has_shape_zeros r c : has_shape r c (zeros r c).
Proof.
  unfold zeros. split; [apply repeat_length|].
  apply Forall_forall. intros v Hv. apply repeat_spec in Hv. subst.
  apply repeat_length.
Qed.

Lemma Forall_firstn {A : Type} (P : A -> Prop) k (l : list A) :
  Forall P l -> Forall P (firstn k l).
Proof.
  intros H. revert k. induction H as [|a l Ha _ IH]; intros [|k]; simpl;
    constructor; auto.
Qed.

Lemma Forall_skipn {A : Type} (P : A -> Prop) k (l : list A) :
  Forall P l -> Forall P (skipn k l).
Proof.
  intros H. revert k. induction H as [|a l Ha Hl IH]; intros [|k]; simpl; auto.
Qed.

Lemma has_shape_firstn r c k m :
  has_shape r c m -> k <= r -> has_shape k c (firstn k m).
Proof.
  intros [H1 H2] Hk. split.
  - rewrite length_firstn. lia.
  - now apply Forall_firstn.
Qed.

Lemma has_shape_slice r c lo hi m :
  has_shape r c m -> lo <= hi -> hi <= r -> has_shape (hi - lo) c (slice lo hi m).
Proof.
  intros [H1 H2] Hlo Hhi. unfold slice. split.
  - rewrite length_firstn, length_skipn. lia.
  - now apply Forall_firstn, Forall_skipn.
Qed.

Lemma width_shape r c m : has_shape r c m -> 0 < r -> width m = c.
Proof.
  intros [H1 H2] Hr. destruct m as [|v m]; simpl in *; [lia|].
  now inversion H2.
Qed.

Lemma zero_machine_block_length M row :
  length (zero_machine_block M row) = length row.
Proof.
  unfold zero_machine_block, machine_block, slice.
  rewrite !length_app, repeat_length, !length_firstn, !length_skipn. lia.
Qed.

Lemma has_shape_zero_machine_block r c M m :
  has_shape r c m -> has_shape r c (map (zero_machine_block M) m).
Proof.
  intros [H1 H2]. split; [now rewrite length_map|].
  apply Forall_forall. intros v Hv. apply in_map_iff in Hv as (u & <- & Hu).
  rewrite zero_machine_block_length. rewrite Forall_forall in H2. auto.
Qed.

(** ** Well-formed batches: the stages do not raise *)

Lemma mapM_is_ok {A B : Type} (f : A -> result B) l :
  (forall a, In a l -> exists b, f a = Ok b) -> exists bs, mapM f l = Ok bs.
Proof.
  induction l as [|a l IH]; simpl; intros H; [eauto|].
  destruct (H a (or_introl eq_refl)) as (b & Hb).
  destruct IH as (bs & Hbs); [intros; apply H; now right|].
  rewrite Hb, Hbs. simpl. eauto.
Qed.

Lemma ptr_at_total p i : i < length p -> ptr_at p i = Ok (nth i p 0).
Proof.
  intros H. unfold ptr_at. now rewrite (nth_error_nth' p 0 H).
Qed.

Lemma wf_graphb_inv g :
  wf_graphb g = true ->
  length (ptr g) = S (num_graphs g)
  /\ (forall bi, bi < num_graphs g -> nth bi (ptr g) 0 <= nth (S bi) (ptr g) 0)
  /\ nth (num_graphs g) (ptr g) 0 = length (x g)
  /\ length (batch g) = length (x g)
  /\ (forall k, k < length (x g) ->
                nth k (batch g) 0 < num_graphs g
                /\ nth (nth k (batch g) 0) (ptr g) 0 <= k
                   < nth (S (nth k (batch g) 0)) (ptr g) 0).
Proof.
  unfold wf_graphb. rewrite !andb_true_iff, !forallb_forall.
  intros ((((H1 & H2) & H3) & H4) & H5).
  apply Nat.eqb_eq in H1, H3, H4.
  repeat split; auto.
  - intros bi Hbi. apply Nat.leb_le, H2, in_seq. lia.
  - specialize (H5 k). rewrite in_seq in H5.
    assert (Hk : 0 <= k < 0 + length (x g)) by lia. apply H5 in Hk.
    rewrite !andb_true_iff in Hk. destruct Hk as [[Hk _] _].
    now apply Nat.ltb_lt.
  - specialize (H5 k). rewrite in_seq in H5.
    assert (Hk : 0 <= k < 0 + length (x g)) by lia. apply H5 in Hk.
    rewrite !andb_true_iff in Hk. destruct Hk as [[_ Hk] _].
    now apply Nat.leb_le.
  - specialize (H5 k). rewrite in_seq in H5.
    assert (Hk : 0 <= k < 0 + length (x g)) by lia. apply H5 in Hk.
    rewrite !andb_true_iff in Hk. destruct Hk as [_ Hk].
    now apply Nat.ltb_lt.
Qed.

Lemma ptr_monotone g :
  wf_graphb g = true ->
  forall j i, i <= j -> j <= num_graphs g -> nth i (ptr g) 0 <= nth j (ptr g) 0.
Proof.
  intros Hwf. apply wf_graphb_inv in Hwf as (_ & Hmono & _).
  induction j as [|j IH]; intros i Hi Hj.
  - replace i with 0 by lia. lia.
  - destruct (Nat.eq_dec i (S j)) as [->|Hne]; [lia|].
    specialize (IH i). specialize (Hmono j). lia.
Qed.

Lemma graph_range_total g n bi :
  wf_graphb g = true -> bi < num_graphs g -> length (x g) <= n ->
  graph_range (ptr g) n bi = Ok (nth bi (ptr g) 0, nth (S bi) (ptr g) 0)
  /\ nth bi (ptr g) 0 <= nth (S bi) (ptr g) 0 <= length (x g).
Proof.
  intros Hwf Hbi Hn.
  pose proof (ptr_monotone _ Hwf) as Hmono.
  apply wf_graphb_inv in Hwf as (Hlen & Hstep & Hlast & _).
  assert (H1 : nth bi (ptr g) 0 <= nth (S bi) (ptr g) 0) by (apply Hstep; lia).
  assert (H2 : nth (S bi) (ptr g) 0 <= length (x g))
    by (rewrite <- Hlast; apply Hmono; lia).
  split; [|lia].
  unfold graph_range. rewrite !ptr_at_total by lia. simpl.
  replace (nth bi (ptr g) 0 <=? nth (S bi) (ptr g) 0) with true
    by (symmetry; apply Nat.leb_le; lia).
  replace (nth (S bi) (ptr g) 0 <=? n) with true
    by (symmetry; apply Nat.leb_le; lia).
  reflexivity.
Qed.

Lemma machine_ids_total M f :
  0 < M -> Forall (fun r => 6 < length r) f -> exists ms, machine_ids M f = Ok ms.
Proof.
  intros HM Hf. unfold machine_ids.
  replace (M =? 0) with false by (symmetry; apply Nat.eqb_neq; lia).
  apply mapM_is_ok. intros row Hrow.
  rewrite Forall_forall in Hf. specialize (Hf row Hrow).
  unfold machineid_of_row, torch_max.
  destruct (machine_block M row) as [|v b] eqn:E.
  - exfalso. apply (f_equal (@length Qc)) in E.
    unfold machine_block, slice in E.
    rewrite length_firstn, length_skipn in E. simpl in E. lia.
  - simpl. destruct (max_from 1 v 0 b). simpl. eauto.
Qed.

Lemma affectations_total f :
  Forall (fun r => 6 < length r) f -> exists aff, affectations f = Ok aff.
Proof.
  intros Hf. apply mapM_is_ok. intros row Hrow.
  rewrite Forall_forall in Hf. specialize (Hf row Hrow).
  destruct row; simpl in *; [lia | eauto].
Qed.

Lemma pooling_edges_total r g off :
  wf_graphb g = true ->
  exists new, pooling_edges r (ptr g) off (num_graphs g) = Ok new.
Proof.
  intros Hwf. apply wf_graphb_inv in Hwf as (Hlen & _).
  unfold pooling_edges.
  destruct (@mapM_is_ok nat (list edge)
              (fun i => lo <- ptr_at (ptr g) i ;; hi <- ptr_at (ptr g) (S i) ;;
                        Ok (pooling_edges_of_graph r off i lo hi))
              (seq 0 (num_graphs g))) as (pg & Hpg).
  - intros i Hi. apply in_seq in Hi.
    rewrite !ptr_at_total by lia. simpl. eauto.
  - rewrite Hpg. simpl. eauto.
Qed.

Lemma conflict_edges_total fe g f off F :
  wf_graphb g = true -> 0 < max_n_machines fe -> 6 < F ->
  Forall (fun r => length r = F) f -> length (x g) <= length f ->
  exists new, conflict_edges fe f g off = Ok new.
Proof.
  intros Hwf HM HF Hf Hlen.
  assert (Hwide : Forall (fun r => 6 < length r) f).
  { eapply Forall_impl; [|exact Hf]. simpl. intros; lia. }
  pose proof (wf_graphb_inv _ Hwf) as (_ & _ & _ & Hbatch & _).
  unfold conflict_edges.
  destruct (streq (conflicts fe) "clique").
  - destruct (highmem_conflict_clique fe); [|destruct (mediummem_conflict_clique fe)].
    + unfold clique_highmem.
      destruct (@machine_ids_total (max_n_machines fe) (firstn (length (x g)) f) HM)
        as (ms & ->); [now apply Forall_firstn|].
      destruct (@affectations_total (firstn (length (x g)) f)) as (aff & ->);
        [now apply Forall_firstn|].
      simpl. rewrite Hbatch, Nat.eqb_refl. simpl. eauto.
    + unfold clique_mediummem.
      destruct (@mapM_is_ok nat (list edge)
                  (fun bi => '(lo, hi) <- graph_range (ptr g) (length f) bi ;;
                             clique_of_graph (max_n_machines fe) f lo hi)
                  (seq 0 (num_graphs g))) as (pg & Hpg).
      * intros bi Hbi. apply in_seq in Hbi.
        destruct (@graph_range_total g (length f) bi Hwf) as [-> _]; [lia | lia |].
        simpl. unfold clique_of_graph.
        destruct (@machine_ids_total (max_n_machines fe)
                    (slice (nth bi (ptr g) 0) (nth (S bi) (ptr g) 0) f) HM)
          as (ms & ->); [now apply Forall_firstn, Forall_skipn|].
        destruct (@affectations_total
                    (slice (nth bi (ptr g) 0) (nth (S bi) (ptr g) 0) f))
          as (aff & ->); [now apply Forall_firstn, Forall_skipn|].
        simpl. eauto.
      * rewrite Hpg. simpl. eauto.
    + unfold clique_lowmem.
      destruct (@affectations_total (firstn (length (x g)) f)) as (aff & ->);
        [now apply Forall_firstn|].
      simpl.
      destruct (@mapM_is_ok nat (list edge)
                  (fun bi => '(lo, hi) <- graph_range (ptr g) (length (x g)) bi ;;
                             Ok (flat_map
                                   (fun ni1 =>
                                      lowmem_inner
                                        (map (machine_block (max_n_machines fe))
                                             (firstn (length (x g)) f)) aff ni1 hi)
                                   (seq lo (hi - lo))))
                  (seq 0 (num_graphs g))) as (pg & Hpg).
      * intros bi Hbi. apply in_seq in Hbi.
        destruct (@graph_range_total g (length (x g)) bi Hwf) as [-> _]; [lia | lia |].
        simpl. eauto.
      * rewrite Hpg. simpl. eauto.
  - destruct (streq (conflicts fe) "node"); [|eauto].
    unfold node_conflict_edges.
    destruct (@machine_ids_total (max_n_machines fe) (firstn (length (x g)) f) HM)
      as (ms & Hms); [now apply Forall_firstn|].
    rewrite Hms. simpl.
    destruct (@mapM_is_ok nat (Z * Z * Z)
                (hub_of (max_n_machines fe) off ms (batch g)) (idxaffected_of ms))
      as (hubs & ->).
    + intros i Hi. apply in_nonzero1 in Hi as [Hi _].
      apply machine_ids_length in Hms. rewrite length_firstn in Hms.
      rewrite hub_of_total by lia. eauto.
    + simpl. eauto.
Qed.

Lemma obs_okb_inv fe obs F :
  obs_okb fe obs F = true ->
  length (x (to_graph obs)) = get_batch_size obs * get_n_nodes obs
  /\ 0 < get_batch_size obs * get_n_nodes obs
  /\ num_graphs (to_graph obs) = get_batch_size obs
  /\ Forall (fun r => length r = F) (x (to_graph obs))
  /\ wf_graphb (to_graph obs) = true
  /\ 0 < max_n_machines fe
  /\ 6 + max_n_machines fe <= F.
Proof.
  unfold obs_okb. rewrite !andb_true_iff.
  intros ((((((H1 & H2) & H3) & H4) & H5) & H6) & H7).
  apply Nat.eqb_eq in H1, H3. apply Nat.ltb_lt in H2, H6. apply Nat.leb_le in H7.
  repeat split; auto.
  apply Forall_forall. intros r Hr.
  rewrite forallb_forall in H4. now apply Nat.eqb_eq, H4.
Qed.

Lemma pooled_features_shape fe g F :
  Forall (fun r => length r = F) (x g) ->
  has_shape (length (x g) + (if streq (graph_pooling fe) "learn" then num_graphs g else 0))
            F (pooled_features fe g F).
Proof.
  intros Hx. unfold pooled_features.
  destruct (streq (graph_pooling fe) "learn").
  - apply has_shape_app; [now split | apply has_shape_zeros].
  - rewrite Nat.add_0_r. now split.
Qed.

Lemma augmented_features_shape fe g F :
  Forall (fun r => length r = F) (x g) ->
  has_shape (augmented_rows fe g) F (augmented_features fe g F).
Proof.
  intros Hx. unfold augmented_features, augmented_rows.
  pose proof (pooled_features_shape fe g Hx) as Hp.
  destruct (streq (conflicts fe) "node").
  - apply has_shape_zero_machine_block, has_shape_app;
      [exact Hp | apply has_shape_zeros].
  - now rewrite Nat.add_0_r.
Qed.

(** On an observation of the data model the augmentation does not raise,
    and its features are the augmented features. *)
Lemma augment_total fe obs F :
  obs_okb fe obs F = true ->
  exists a, augment fe (to_graph obs) = Ok a
            /\ aug_features a = augmented_features fe (to_graph obs) F.
Proof.
  intros Hok. apply obs_okb_inv in Hok as (HN & Hpos & Hnb & Hx & Hwf & HM & HF).
  set (g := to_graph obs) in *.
  assert (Hw : width (x g) = F) by (apply (@width_shape (length (x g))); [now split | lia]).
  assert (Hpool : exists es bid off,
             pool_stage fe g = Ok (pooled_features fe g F, es, bid, off)).
  { unfold pool_stage, pooled_features.
    destruct (streq (graph_pooling fe) "learn"); [|eauto].
    destruct (@pooling_edges_total (reverse_adj fe) g (length (x g)) Hwf) as (new & ->).
    simpl. rewrite Hw. eauto. }
  destruct Hpool as (es & bid & off & Hpool).
  pose proof (pooled_features_shape fe g Hx) as [Hplen Hprows].
  destruct (@conflict_edges_total fe g (pooled_features fe g F) off F Hwf HM)
    as (new & Hnew); [lia | exact Hprows | lia |].
  unfold augment. rewrite Hpool. cbn [bind]. rewrite Hnew. cbn [bind].
  assert (Hw' : width (pooled_features fe g F) = F).
  { eapply width_shape; [split; [reflexivity | exact Hprows]|]. lia. }
  unfold augmented_features. rewrite Hw'.
  destruct (streq (conflicts fe) "node"); eexists; split; reflexivity.
Qed.

(** ** Shapes through the message-passing stack *)

Lemma heap_cell_shape R H (e0 : matrix) (rest : heap) l :
  Forall (has_shape R H) rest -> 1 <= l < length (e0 :: rest) ->
  has_shape R H (load (e0 :: rest) l).
Proof.
  intros Hrest Hl. unfold load. destruct l as [|l]; [lia|]. simpl in *.
  rewrite Forall_forall in Hrest. apply Hrest, nth_In. lia.
Qed.

Lemma layer_output_shape lp fe F cw es bid layer R f :
  shape_contract lp fe F cw ->
  has_shape R (hidden_dim_features_extractor fe) f ->
  has_shape R (hidden_dim_features_extractor fe) (layer_output lp fe es bid layer f).
Proof.
  intros C Hf. unfold layer_output.
  pose proof (conv_shape C layer (edge_columns es) (edge_attr lp layer es) Hf) as Hc.
  pose proof (conv_width C) as Hcw.
  set (c := run_conv lp layer f (edge_columns es) (edge_attr lp layer es)) in *.
  assert (Hout : has_shape R (hidden_dim_features_extractor fe)
                   (if streq (gconv_type fe) "gatv2"
                    then run_mlps lp layer
                           (if graph_has_relu fe || streq (gconv_type fe) "gatv2"
                            then run_elu lp c else c)
                    else if graph_has_relu fe || streq (gconv_type fe) "gatv2"
                         then run_elu lp c else c)).
  { destruct (streq (gconv_type fe) "gatv2").
    - apply (mlps_shape C). rewrite orb_true_r. now apply (elu_shape C).
    - rewrite <- Hcw by reflexivity.
      destruct (graph_has_relu fe || false); [now apply (elu_shape C) | exact Hc]. }
  destruct (normalize fe); [now apply (norms_shape C) | exact Hout].
Qed.

Lemma vadd_same_length a b :
  length b = length a ->
  vadd a b = Ok (map (fun p => f32_add (fst p) (snd p)) (combine a b)).
Proof. intros H. unfold vadd. now rewrite H, Nat.eqb_refl. Qed.

Lemma has_shape_zip {A : Type} (f : vector * vector -> vector) R c c' a b :
  has_shape R c a -> has_shape R c b ->
  (forall u v, length u = c -> length v = c -> length (f (u, v)) = c') ->
  has_shape R c' (map f (combine a b)).
Proof.
  intros [Ha1 Ha2] [Hb1 Hb2] Hf. split.
  - rewrite length_map, length_combine. lia.
  - apply Forall_forall. intros w Hw.
    apply in_map_iff in Hw as ([u v] & <- & Huv).
    rewrite Forall_forall in Ha2, Hb2.
    apply Hf; [eapply Ha2, in_combine_l | eapply Hb2, in_combine_r]; eauto.
Qed.

Lemma iadd_same_shape R c a b :
  has_shape R c a -> has_shape R c b ->
  exists s, iadd a b = Ok s /\ has_shape R c s.
Proof.
  intros Ha Hb. unfold iadd.
  destruct Ha as [Ha1 Ha2], Hb as [Hb1 Hb2].
  rewrite Hb1, Ha1, Nat.eqb_refl.
  exists (map (fun p => map (fun q => f32_add (fst q) (snd q)) (combine (fst p) (snd p)))
              (combine a b)).
  split.
  - apply mapM_total. intros [u v] Huv. simpl.
    apply vadd_same_length.
    rewrite Forall_forall in Ha2, Hb2.
    rewrite (Ha2 u), (Hb2 v); eauto using in_combine_l, in_combine_r.
  - apply (@has_shape_zip unit) with (c := c); try (split; assumption).
    intros u v Hu Hv. simpl. rewrite length_map, length_combine. lia.
Qed.

Lemma stack_shape_push R F H k st t :
  stack_shape R F H k st -> has_shape R H t ->
  stack_shape R F H (S k)
    {| st_heap := st_heap st ++ [t];
       st_features := length (st_heap st);
       st_features_list := st_features_list st ++ [length (st_heap st)] |}.
Proof.
  intros (e0 & rest & fl & Hheap & He0 & Hrest & Hlist & Hne & Hfl & Hfeat & Hk) Ht.
  exists e0, (rest ++ [t]), (fl ++ [length (st_heap st)]).
  cbn [st_heap st_features st_features_list].
  rewrite Hheap in *. rewrite Hlist. cbn [length app] in *.
  rewrite !length_app. cbn [length].
  split; [reflexivity|]. split; [exact He0|].
  split; [apply Forall_app; split; [exact Hrest | now constructor]|].
  split; [reflexivity|].
  split; [destruct fl; discriminate|].
  split.
  { apply Forall_app. split.
    - eapply Forall_impl; [|exact Hfl]. simpl. intros; lia.
    - constructor; [lia | constructor]. }
  split; lia.
Qed.

Lemma stack_shape_alias R F H k st t :
  stack_shape R F H k st -> has_shape R H t ->
  stack_shape R F H k
    {| st_heap := st_heap st ++ [t];
       st_features := length (st_heap st);
       st_features_list := st_features_list st |}.
Proof.
  intros (e0 & rest & fl & Hheap & He0 & Hrest & Hlist & Hne & Hfl & Hfeat & Hk) Ht.
  exists e0, (rest ++ [t]), fl.
  cbn [st_heap st_features st_features_list].
  rewrite Hheap in *. cbn [length app] in *.
  rewrite !length_app. cbn [length].
  split; [reflexivity|]. split; [exact He0|].
  split; [apply Forall_app; split; [exact Hrest | now constructor]|].
  split; [exact Hlist|].
  split; [exact Hne|].
  split; [eapply Forall_impl; [|exact Hfl]; simpl; intros; lia|].
  split; lia.
Qed.

Lemma layer_step_shape lp fe F cw es bid layer R k st :
  shape_contract lp fe F cw ->
  stack_shape R F (hidden_dim_features_extractor fe) k st ->
  exists st', layer_step lp fe es bid layer st = Ok st'
              /\ stack_shape R F (hidden_dim_features_extractor fe) (S k) st'.
Proof.
  intros C Hst.
  pose proof Hst as (e0 & rest & fl & Hheap & He0 & Hrest & Hlist & Hne & Hfl & Hfeat & Hk).
  set (H := hidden_dim_features_extractor fe) in *.
  assert (Hin : has_shape R H (load (st_heap st) (st_features st))).
  { rewrite Hheap. apply heap_cell_shape; [exact Hrest | now rewrite <- Hheap]. }
  pose proof (@layer_output_shape lp fe F cw es bid layer R _ C Hin) as Hout.
  fold H in Hout.
  unfold layer_step, alloc.
  set (out := layer_output lp fe es bid layer (load (st_heap st) (st_features st))) in *.
  destruct (residual fe).
  - assert (Hprev : 1 <= nth (length (st_features_list st ++ [length (st_heap st)]) - 2)
                             (st_features_list st ++ [length (st_heap st)]) 0
                    < length (st_heap st)).
    { rewrite Hlist. destruct fl as [|l0 fl0]; [congruence|].
      replace (length ((0 :: l0 :: fl0) ++ [length (st_heap st)]) - 2)
        with (S (length fl0)) by (rewrite length_app; simpl; lia).
      change ((0 :: l0 :: fl0) ++ [length (st_heap st)])
        with (0 :: ((l0 :: fl0) ++ [length (st_heap st)])).
      cbn [nth]. rewrite app_nth1 by (simpl; lia).
      rewrite Forall_forall in Hfl. apply Hfl, nth_In. simpl. lia. }
    set (prev := nth _ _ 0) in *.
    rewrite load_last, load_app_l by lia.
    assert (Hp : has_shape R H (load (st_heap st) prev)).
    { rewrite Hheap. apply heap_cell_shape; [exact Hrest | now rewrite <- Hheap]. }
    destruct (iadd_same_shape Hout Hp) as (sum & -> & Hsum). cbn [bind].
    rewrite store_last.
    destruct (normalize fe).
    + rewrite load_last.
      eexists. split; [reflexivity|].
      replace (length ((st_heap st ++ [sum]) ++ []))
        with (length (st_heap st ++ [sum])) by (now rewrite app_nil_r).
      pose proof (stack_shape_push Hst Hsum) as Hpush.
      apply (stack_shape_alias Hpush).
      now apply (normsbis_shape C).
    + eexists. split; [reflexivity|]. now apply stack_shape_push.
  - eexists. split; [reflexivity|]. now apply stack_shape_push.
Qed.

Lemma layer_loop_shape lp fe F cw es bid R :
  shape_contract lp fe F cw ->
  forall layers k st,
    stack_shape R F (hidden_dim_features_extractor fe) k st ->
    exists st', layer_loop lp fe es bid layers st = Ok st'
                /\ stack_shape R F (hidden_dim_features_extractor fe)
                               (k + length layers) st'.
Proof.
  intros C. induction layers as [|layer rest IH]; intros k st Hst; simpl.
  - exists st. rewrite Nat.add_0_r. auto.
  - destruct (@layer_step_shape lp fe F cw es bid layer R k st C Hst) as (st1 & -> & Hst1).
    cbn [bind]. destruct (IH _ _ Hst1) as (st' & Hloop & Hst').
    exists st'. split; [exact Hloop|].
    now replace (k + S (length rest)) with (S k + length rest) by lia.
Qed.

Lemma embed_layers_shape lp fe F cw R a :
  shape_contract lp fe F cw -> has_shape R F (aug_features a) ->
  exists st, embed_layers lp fe a = Ok st
             /\ stack_shape R F (hidden_dim_features_extractor fe)
                            (S (n_layers_features_extractor fe)) st.
Proof.
  intros C Ha. unfold embed_layers, alloc. cbn [length app].
  set (f0 := if normalize fe then run_norm0 lp (aug_features a) (aug_batch_id a)
             else aug_features a).
  assert (Hf0 : has_shape R F f0)
    by (unfold f0; destruct (normalize fe); [now apply (norm0_shape C) | exact Ha]).
  set (f1 := if normalize fe then run_norm1 lp (run_embedder lp f0) (aug_batch_id a)
             else run_embedder lp f0).
  assert (Hf1 : has_shape R (hidden_dim_features_extractor fe) f1).
  { unfold f1. pose proof (embedder_shape C Hf0) as He.
    destruct (normalize fe); [now apply (norm1_shape C) | exact He]. }
  destruct (@layer_loop_shape lp fe F cw (aug_edges a) (aug_batch_id a) R C
              (seq 0 (n_layers_features_extractor fe)) 1
              {| st_heap := [f0; f1]; st_features := 1; st_features_list := [0; 1] |})
    as (st & Hloop & Hst).
  - exists f0, [f1], [1]. cbn [st_heap st_features st_features_list length].
    split; [reflexivity|]. split; [exact Hf0|].
    split; [constructor; [exact Hf1 | constructor]|].
    split; [reflexivity|]. split; [discriminate|].
    split; [constructor; [lia | constructor]|].
    split; lia.
  - exists st. split; [exact Hloop|].
    now rewrite length_seq in Hst.
Qed.

(** ** Shapes through the concatenation and the readout *)

Lemma has_shape_zip_app R c1 c2 a b :
  has_shape R c1 a -> has_shape R c2 b ->
  has_shape R (c1 + c2) (map (fun p => fst p ++ snd p) (combine a b)).
Proof.
  intros [Ha1 Ha2] [Hb1 Hb2]. split.
  - rewrite length_map, length_combine. lia.
  - apply Forall_forall. intros w Hw.
    apply in_map_iff in Hw as ([u v] & <- & Huv). simpl.
    rewrite Forall_forall in Ha2, Hb2. rewrite length_app.
    rewrite (Ha2 u), (Hb2 v); eauto using in_combine_l, in_combine_r.
Qed.

Lemma cat1_same R c : forall ts,
  ts <> [] -> Forall (has_shape R c) ts ->
  exists m, cat1 ts = Ok m /\ has_shape R (c * length ts) m.
Proof.
  induction ts as [|t ts IH]; intros Hne Hts; [congruence|].
  inversion Hts as [|? ? Ht Hts']; subst.
  destruct ts as [|t' ts'].
  - exists t. split; [reflexivity|]. simpl. now rewrite Nat.mul_1_r.
  - destruct IH as (rest & Hrest & Hshape); [discriminate | exact Hts'|].
    change (cat1 (t :: t' :: ts'))
      with (bind (cat1 (t' :: ts'))
                 (fun rest => if length t =? length rest
                              then Ok (map (fun p => fst p ++ snd p) (combine t rest))
                              else Raise RuntimeError)).
    rewrite Hrest. cbn [bind].
    replace (length t =? length rest) with true
      by (symmetry; apply Nat.eqb_eq; destruct Ht, Hshape; congruence).
    eexists. split; [reflexivity|].
    replace (c * length (t :: t' :: ts')) with (c + c * length (t' :: ts'))
      by (cbn [length]; lia).
    now apply has_shape_zip_app.
Qed.

Lemma cat1_head R c0 c t0 ts :
  has_shape R c0 t0 -> ts <> [] -> Forall (has_shape R c) ts ->
  exists m, cat1 (t0 :: ts) = Ok m /\ has_shape R (c0 + c * length ts) m.
Proof.
  intros Ht0 Hne Hts.
  destruct (cat1_same Hne Hts) as (rest & Hrest & Hshape).
  destruct ts as [|t' ts']; [congruence|].
  change (cat1 (t0 :: t' :: ts'))
    with (bind (cat1 (t' :: ts'))
               (fun rest => if length t0 =? length rest
                            then Ok (map (fun p => fst p ++ snd p) (combine t0 rest))
                            else Raise RuntimeError)).
  rewrite Hrest. cbn [bind].
  replace (length t0 =? length rest) with true
    by (symmetry; apply Nat.eqb_eq; destruct Ht0, Hshape; congruence).
  eexists. split; [reflexivity|]. now apply has_shape_zip_app.
Qed.

Lemma final_features_shape R F H k st :
  stack_shape R F H k st ->
  exists m, final_features st = Ok m /\ has_shape R (F + H * k) m.
Proof.
  intros (e0 & rest & fl & Hheap & He0 & Hrest & Hlist & Hne & Hfl & Hfeat & Hk).
  unfold final_features. rewrite Hlist. cbn [map].
  replace (load (st_heap st) 0) with e0 by (now rewrite Hheap).
  rewrite <- Hk, <- (length_map (load (st_heap st)) fl).
  apply cat1_head; [exact He0 | destruct fl; [congruence | discriminate] |].
  apply Forall_forall. intros t Ht. apply in_map_iff in Ht as (l & <- & Hl).
  rewrite Forall_forall in Hfl. specialize (Hfl l Hl).
  rewrite Hheap in *. now apply heap_cell_shape.
Qed.

Lemma length_concat_shape R c (m : matrix) :
  has_shape R c m -> length (concat m) = R * c.
Proof.
  intros [<- Hm]. induction Hm as [|v m Hv _ IH]; simpl; [reflexivity|].
  rewrite length_app, IH, Hv. lia.
Qed.

Lemma take_chunks_concat {A : Type} w : forall rows : list (list A),
  Forall (fun v => length v = w) rows ->
  take_chunks (length rows) w (concat rows) = rows.
Proof.
  induction 1 as [|v rows Hv _ IH]; simpl; [reflexivity|].
  rewrite firstn_app, <- Hv, Nat.sub_diag, firstn_all. simpl.
  rewrite app_nil_r. f_equal.
  rewrite skipn_app, Nat.sub_diag, skipn_all. simpl. rewrite Hv. exact IH.
Qed.

Lemma take_chunks_length {A : Type} w : forall k (l : list A),
  length (take_chunks k w l) = k.
Proof.
  induction k as [|k IH]; intros l; simpl; [reflexivity|]. now rewrite IH.
Qed.

Lemma take_chunks_Forall {A : Type} (P : A -> Prop) w : forall k (l : list A),
  length l = k * w -> Forall P l ->
  Forall (fun c => length c = w /\ Forall P c) (take_chunks k w l).
Proof.
  induction k as [|k IH]; intros l Hlen Hl; simpl; constructor.
  - split; [rewrite length_firstn; simpl in Hlen; lia | now apply Forall_firstn].
  - apply IH; [rewrite length_skipn; simpl in Hlen; lia | now apply Forall_skipn].
Qed.

Lemma take_chunks_1 {A : Type} : forall k (l : list A),
  length l = k -> take_chunks k 1 l = map (fun v => [v]) l.
Proof.
  induction k as [|k IH]; intros [|a l] Hlen; simpl in *; try lia; [reflexivity|].
  f_equal. apply IH. lia.
Qed.

Lemma reshape3_rows d0 d1 c (m : matrix) :
  has_shape (d0 * d1) c m -> 0 < d0 * d1 ->
  reshape3 d0 d1 m = Ok (take_chunks d0 d1 m).
Proof.
  intros Hm Hpos. unfold reshape3.
  rewrite (length_concat_shape Hm).
  replace (d0 * d1 =? 0) with false by (symmetry; apply Nat.eqb_neq; lia).
  rewrite Nat.mul_comm, Nat.Div0.mod_mul, Nat.div_mul by lia. simpl.
  destruct Hm as [Hlen Hrows]. rewrite <- Hlen at 1.
  now rewrite take_chunks_concat.
Qed.

Lemma node_features_shape d0 d1 c (m : matrix) :
  has_shape (d0 * d1) c m ->
  Forall (has_shape d1 c) (take_chunks d0 d1 m).
Proof.
  intros [Hlen Hrows].
  eapply Forall_impl; [|apply (@take_chunks_Forall _ _ d1 d0 m Hlen Hrows)].
  intros rows [H1 H2]. now split.
Qed.

Lemma combine_repeat_r {A B : Type} (l : list A) (c : B) :
  combine l (repeat c (length l)) = map (fun a => (a, c)) l.
Proof.
  induction l as [|a l IH]; simpl; [reflexivity|]. now rewrite IH.
Qed.

Lemma fold_left_length {A : Type} (f : vector -> A -> vector) w :
  (forall acc a, length acc = w -> length (f acc a) = w) ->
  forall l acc, length acc = w -> length (fold_left f l acc) = w.
Proof.
  intros Hf. induction l as [|a l IH]; simpl; intros acc Hacc; auto.
Qed.

Lemma fold_left_length_in {A : Type} (f : vector -> A -> vector) (P : A -> Prop) w :
  (forall acc a, P a -> length acc = w -> length (f acc a) = w) ->
  forall l acc, Forall P l -> length acc = w -> length (fold_left f l acc) = w.
Proof.
  intros Hf. induction l as [|a l IH]; simpl; intros acc Hl Hacc; [exact Hacc|].
  inversion Hl; subst. apply IH; auto.
Qed.

Lemma vmax_length a b w : length a = w -> length b = w -> length (vmax a b) = w.
Proof.
  intros Ha Hb. unfold vmax. rewrite length_map, length_combine. lia.
Qed.

Lemma vplus_length a b w : length a = w -> length b = w -> length (vplus a b) = w.
Proof.
  intros Ha Hb. unfold vplus. rewrite length_map, length_combine. lia.
Qed.

Lemma max_over_nodes_shape n w rows :
  has_shape n w rows -> 0 < n ->
  exists v, max_over_nodes rows = Ok v /\ length v = w.
Proof.
  intros [Hlen Hrows] Hn. destruct rows as [|r rs]; [simpl in Hlen; lia|].
  inversion Hrows; subst. simpl. eexists. split; [reflexivity|].
  apply fold_left_length_in with (P := fun v => length v = length r); auto.
  intros acc a Ha Hacc. now apply vmax_length.
Qed.

Lemma matmul_uniform_shape n w rows :
  has_shape n w rows -> 0 < n ->
  exists v, matmul_rows (uniform_weights n) (width rows) rows = Ok v /\ length v = w.
Proof.
  intros Hshape Hn. pose proof (width_shape Hshape Hn) as Hw.
  destruct Hshape as [Hlen Hrows].
  unfold matmul_rows, uniform_weights. rewrite repeat_length, Hlen, Nat.eqb_refl.
  eexists. split; [reflexivity|]. rewrite Hw.
  apply fold_left_length_in with (P := fun p : Qc * vector => length (snd p) = w).
  - intros acc p Hp Hacc. unfold f32_vplus, f32_vscale.
    rewrite length_map, length_combine, length_map. lia.
  - apply Forall_forall. intros [c v] Hcv. simpl.
    rewrite Forall_forall in Hrows. eapply Hrows, in_combine_r; eauto.
  - apply repeat_length.
Qed.

Lemma mapM_shape {A : Type} (f : A -> result vector) (P : A -> Prop) w l :
  Forall P l ->
  (forall a, P a -> exists v, f a = Ok v /\ length v = w) ->
  exists m, mapM f l = Ok m /\ has_shape (length l) w m.
Proof.
  intros Hl Hf.
  destruct (@mapM_is_ok _ _ f l) as (m & Hm).
  { intros a Ha. rewrite Forall_forall in Hl.
    destruct (Hf a (Hl a Ha)) as (v & Hv & _). eauto. }
  exists m. split; [exact Hm|]. split; [eapply mapM_length; eauto|].
  eapply mapM_Forall_out; [exact Hm|].
  intros a v Ha Hv. rewrite Forall_forall in Hl.
  destruct (Hf a (Hl a Ha)) as (v' & Hv' & Hlen). congruence.
Qed.

(** With an accepted pooling mode the graph embedding is a row per graph,
    as wide as the node embeddings. *)
Lemma graph_embedding_shape fe n nb N R W features (nf : list matrix) :
  accepted_pooling (graph_pooling fe) = true ->
  Forall (has_shape n W) nf -> length nf = nb -> 0 < n ->
  has_shape R W features ->
  (streq (graph_pooling fe) "learn" = true -> N + nb <= R) ->
  exists ge, graph_embedding_of fe n nb N features nf = Ok ge /\ has_shape nb W ge.
Proof.
  intros Hacc Hnf Hlen Hn Hf Hlearn. unfold graph_embedding_of, accepted_pooling in *.
  destruct (streq (graph_pooling fe) "max").
  - rewrite <- Hlen. apply mapM_shape with (P := has_shape n W); [exact Hnf|].
    intros rows Hrows. now apply max_over_nodes_shape with (n := n).
  - destruct (streq (graph_pooling fe) "avg").
    + rewrite <- Hlen. apply mapM_shape with (P := has_shape n W); [exact Hnf|].
      intros rows Hrows. now apply matmul_uniform_shape.
    + destruct (streq (graph_pooling fe) "learn"); [|discriminate].
      eexists. split; [reflexivity|].
      replace nb with (N + nb - N) at 1 by lia.
      apply has_shape_slice with (r := R); [exact Hf | lia | now apply Hlearn].
Qed.

Lemma combine_map_r {A B C : Type} (f : B -> C) : forall (l : list A) (l' : list B),
  combine l (map f l') = map (fun p => (fst p, f (snd p))) (combine l l').
Proof.
  induction l as [|a l IH]; intros [|b l']; simpl; try reflexivity.
  now rewrite IH.
Qed.

(** The readout on node embeddings of width [W]: every node row of a graph
    followed by the graph's embedding. *)
Lemma readout_ok fe obs R W features ge :
  length (x (to_graph obs)) = get_batch_size obs * get_n_nodes obs ->
  0 < get_batch_size obs * get_n_nodes obs ->
  has_shape R W features -> length (x (to_graph obs)) <= R ->
  graph_embedding_of fe (get_n_nodes obs) (num_graphs (to_graph obs))
                     (length (x (to_graph obs))) features
                     (take_chunks (get_batch_size obs) (get_n_nodes obs)
                                  (firstn (length (x (to_graph obs))) features)) = Ok ge ->
  has_shape (get_batch_size obs) W ge ->
  readout fe obs features
  = Ok (map (fun p => concat_embedding (fst p) (snd p))
            (combine (take_chunks (get_batch_size obs) (get_n_nodes obs)
                                  (firstn (length (x (to_graph obs))) features)) ge))
  /\ has_shape3 (get_batch_size obs) (get_n_nodes obs) (2 * W)
                (map (fun p => concat_embedding (fst p) (snd p))
                     (combine (take_chunks (get_batch_size obs) (get_n_nodes obs)
                                           (firstn (length (x (to_graph obs))) features))
                              ge)).
Proof.
  intros HN Hpos Hf HR Hge Hgeshape.
  set (B := get_batch_size obs) in *. set (n := get_n_nodes obs) in *.
  set (N := length (x (to_graph obs))) in *.
  assert (Hnodes : has_shape (B * n) W (firstn N features))
    by (rewrite <- HN; now apply has_shape_firstn with (r := R)).
  pose proof (node_features_shape _ _ Hnodes) as Hnf.
  set (nf := take_chunks B n (firstn N features)) in *.
  assert (Hn : 0 < n) by (destruct n; lia).
  assert (HB : 0 < B) by (destruct B; lia).
  split.
  - unfold readout. fold B n N.
    rewrite (reshape3_rows _ _ Hnodes Hpos). cbn [bind]. fold nf.
    rewrite Hge. cbn [bind].
    assert (Hge1 : has_shape (B * 1) W ge) by (now rewrite Nat.mul_1_r).
    rewrite (reshape3_rows _ _ Hge1) by lia. cbn [bind].
    rewrite (@take_chunks_1 _ B ge (proj1 Hgeshape)).
    rewrite (mapM_total _ (fun p => concat_embedding (fst p) (hd [] (snd p)))).
    + f_equal. rewrite combine_map_r, map_map. reflexivity.
    + intros [rows gv] Hin. cbn [fst snd].
      pose proof (in_combine_l _ _ _ _ Hin) as Hrows.
      pose proof (in_combine_r _ _ _ _ Hin) as Hgv.
      apply in_map_iff in Hgv as (v & <- & Hv).
      rewrite Forall_forall in Hnf. specialize (Hnf rows Hrows).
      destruct Hgeshape as [_ Hgerows]. rewrite Forall_forall in Hgerows.
      specialize (Hgerows v Hv).
      unfold expand_rows. rewrite (width_shape Hnf Hn), Hgerows, Nat.eqb_refl.
      cbn [bind hd]. rewrite combine_repeat_r, map_map. reflexivity.
  - split.
    + rewrite length_map, length_combine.
      unfold nf. rewrite take_chunks_length. destruct Hgeshape as [-> _]. lia.
    + apply Forall_forall. intros t Ht.
      apply in_map_iff in Ht as ([rows v] & <- & Hin). cbn [fst snd].
      pose proof (in_combine_l _ _ _ _ Hin) as Hrows.
      pose proof (in_combine_r _ _ _ _ Hin) as Hv.
      rewrite Forall_forall in Hnf. destruct (Hnf rows Hrows) as [Hlen Hwidth].
      destruct Hgeshape as [_ Hgerows]. rewrite Forall_forall in Hgerows.
      unfold concat_embedding. split; [now rewrite length_map|].
      apply Forall_forall. intros r Hr. apply in_map_iff in Hr as (r0 & <- & Hr0).
      rewrite Forall_forall in Hwidth.
      rewrite length_app, (Hwidth r0 Hr0), (Hgerows v Hv). lia.
Qed.

(** ** The forward pass on observations of the data model *)

Lemma augmented_rows_bounds fe g :
  length (x g) <= augmented_rows fe g
  /\ (streq (graph_pooling fe) "learn" = true ->
      length (x g) + num_graphs g <= augmented_rows fe g).
Proof.
  unfold augmented_rows. split; [lia|]. intros ->. lia.
Qed.

(** On an observation of the data model, with sub-modules that keep their
    width contract and an accepted pooling mode, no stage of [forward]
    raises; the output is, graph by graph, every node row of the
    concatenated embeddings followed by the graph embedding. *)
Lemma forward_ok lp fe obs F cw :
  shape_contract lp fe F cw ->
  obs_okb fe obs F = true ->
  accepted_pooling (graph_pooling fe) = true ->
  exists a st features ge,
    augment fe (to_graph obs) = Ok a
    /\ aug_features a = augmented_features fe (to_graph obs) F
    /\ embed_layers lp fe a = Ok st
    /\ final_features st = Ok features
    /\ has_shape (augmented_rows fe (to_graph obs))
                 (F + hidden_dim_features_extractor fe
                      * S (n_layers_features_extractor fe)) features
    /\ graph_embedding_of fe (get_n_nodes obs) (num_graphs (to_graph obs))
                          (length (x (to_graph obs))) features
                          (take_chunks (get_batch_size obs) (get_n_nodes obs)
                                       (firstn (length (x (to_graph obs))) features))
       = Ok ge
    /\ forward lp fe obs
       = Ok (map (fun p => concat_embedding (fst p) (snd p))
                 (combine (take_chunks (get_batch_size obs) (get_n_nodes obs)
                                       (firstn (length (x (to_graph obs))) features))
                          ge))
    /\ has_shape3 (get_batch_size obs) (get_n_nodes obs)
                  (2 * (F + hidden_dim_features_extractor fe
                            * S (n_layers_features_extractor fe)))
                  (map (fun p => concat_embedding (fst p) (snd p))
                       (combine (take_chunks (get_batch_size obs) (get_n_nodes obs)
                                             (firstn (length (x (to_graph obs))) features))
                                ge)).
Proof.
  intros C Hok Hacc.
  destruct (augment_total _ _ _ Hok) as (a & Ha & Hfeat).
  apply obs_okb_inv in Hok as (HN & Hpos & Hnb & Hx & Hwf & HM & HF).
  pose proof (augmented_features_shape fe (to_graph obs) Hx) as Hshape.
  rewrite <- Hfeat in Hshape.
  destruct (@embed_layers_shape lp fe F cw _ a C Hshape) as (st & Hst & Hstack).
  destruct (final_features_shape Hstack) as (features & Hfinal & Hfshape).
  destruct (augmented_rows_bounds fe (to_graph obs)) as [HR Hlearn].
  assert (Hnodes : has_shape (get_batch_size obs * get_n_nodes obs)
                     (F + hidden_dim_features_extractor fe
                          * S (n_layers_features_extractor fe))
                     (firstn (length (x (to_graph obs))) features)).
  { rewrite <- HN. eapply has_shape_firstn; eauto. }
  pose proof (node_features_shape (get_batch_size obs) (get_n_nodes obs) Hnodes) as Hnf.
  assert (Hn : 0 < get_n_nodes obs) by (destruct (get_n_nodes obs); lia).
  assert (Hnflen : length (take_chunks (get_batch_size obs) (get_n_nodes obs)
                                      (firstn (length (x (to_graph obs))) features))
                   = num_graphs (to_graph obs))
    by (now rewrite take_chunks_length).
  destruct (@graph_embedding_shape fe (get_n_nodes obs) (num_graphs (to_graph obs))
              (length (x (to_graph obs))) (augmented_rows fe (to_graph obs)) _
              features _ Hacc Hnf Hnflen Hn Hfshape Hlearn)
    as (ge & Hge & Hgeshape).
  rewrite Hnb in Hgeshape.
  destruct (@readout_ok fe obs _ _ features ge HN Hpos Hfshape HR Hge Hgeshape)
    as [Hread Hout].
  exists a, st, features, ge.
  repeat (split; [assumption|]).
  split; [|exact Hout].
  unfold forward. rewrite Ha. cbn [bind]. rewrite Hst. cbn [bind].
  rewrite Hfinal. cbn [bind]. exact Hread.
Qed.

(** The width [__init__] announces to the policy. *)
Lemma init_features_dim a fe :
  init a = Ok fe ->
  features_dim fe
  = 2 * (input_dim_features_extractor a
         + hidden_dim_features_extractor fe * (n_layers_features_extractor fe + 1)).
Proof.
  unfold init. intros H. apply bind_ok_inv in H as (layers & _ & H).
  inversion H; subst; clear H. cbn [features_dim hidden_dim_features_extractor
                                     n_layers_features_extractor]. lia.
Qed.

(** C1. For an observation of the data model, sub-modules that keep their
    width contract, any conflict mode and any accepted pooling mode,
    [forward] returns a tensor of shape
    [(batch_size, n_nodes, 2 * (input_width + hidden_width * (n_layers + 1)))]. *)
Theorem forward_output_shape lp fe obs F cw :
  shape_contract lp fe F cw ->
  obs_okb fe obs F = true ->
  accepted_pooling (graph_pooling fe) = true ->
  exists out,
    forward lp fe obs = Ok out
    /\ has_shape3 (get_batch_size obs) (get_n_nodes obs)
                  (2 * (F + hidden_dim_features_extractor fe
                            * (n_layers_features_extractor fe + 1)))
                  out.
Proof.
  intros C Hok Hacc.
  destruct (@forward_ok lp fe obs F cw C Hok Hacc)
    as (a & st & features & ge & _ & _ & _ & _ & _ & _ & Hfwd & Hout).
  eexists. split; [exact Hfwd|].
  now replace (n_layers_features_extractor fe + 1)
    with (S (n_layers_features_extractor fe)) by lia.
Qed.

(** The example network keeps the width contract for input width 8 and
    hidden width 3. *)
Lemma ex_lp_contract fe :
  hidden_dim_features_extractor fe = 3 -> shape_contract ex_lp fe 8 3.
Proof.
  intros HH. constructor; rewrite ?HH; cbn [ex_lp run_embedder run_conv run_mlps run_elu
    run_norm0 run_norm1 run_norms run_normsbis]; auto.
  - intros r m [Hlen _]. unfold ex_embedder. split; [now rewrite length_map|].
    apply Forall_forall. intros v Hv. apply in_map_iff in Hv as (u & <- & _).
    reflexivity.
  - intros layer r m ei ea [Hlen Hrows]. unfold ex_conv. split.
    + now rewrite length_map, length_seq.
    + apply Forall_forall. intros v Hv. apply in_map_iff in Hv as (i & <- & Hi).
      apply in_seq in Hi. rewrite Forall_forall in Hrows.
      apply fold_left_length.
      * intros acc c Hacc. destruct (snd c =? Zn i)%Z; [|exact Hacc].
        apply vplus_length; [exact Hacc|].
        destruct (Nat.lt_ge_cases (Z.to_nat (fst c)) (length m)) as [Hlt|Hge].
        -- apply Hrows, nth_In, Hlt.
        -- rewrite nth_overflow by exact Hge. now rewrite repeat_length.
      * apply Hrows, nth_In. lia.
Qed.

Lemma forward_output_shape_witness :
  exists out,
    forward ex_lp (ex_fe "eg" "avg" "node" 2 false true false false true) ex_obs = Ok out
    /\ has_shape3 1 4 34 out.
Proof.
  exact (@forward_output_shape ex_lp
           (ex_fe "eg" "avg" "node" 2 false true false false true) ex_obs 8 3
           (@ex_lp_contract (ex_fe "eg" "avg" "node" 2 false true false false true)
                            eq_refl)
           eq_refl eq_refl).
Defined.

(** ** The learned pooling node *)

Lemma all_zero_repeat (l : vector) :
  Forall (fun v => v = 0%Qc) l -> l = repeat 0%Qc (length l).
Proof.
  induction 1 as [|v l Hv _ IH]; simpl; [reflexivity|]. now rewrite Hv, <- IH.
Qed.

Lemma zero_machine_block_zeros M F :
  zero_machine_block M (repeat 0%Qc F) = repeat 0%Qc F.
Proof.
  rewrite <- (repeat_length 0%Qc F) at 2.
  rewrite <- (zero_machine_block_length M (repeat 0%Qc F)).
  apply all_zero_repeat. unfold zero_machine_block.
  assert (Hz : Forall (fun v => v = 0%Qc) (repeat 0%Qc F))
    by (apply Forall_forall; intros v Hv; now apply repeat_spec in Hv).
  apply Forall_app. split; [now apply Forall_firstn|].
  apply Forall_app. split; [|now apply Forall_skipn].
  apply Forall_forall. intros v Hv. now apply repeat_spec in Hv.
Qed.

(** In "learn" mode the row right after the task rows of the augmented
    features is the zero row of the first virtual pooling node. *)
Lemma augmented_features_pool_row fe g F :
  streq (graph_pooling fe) "learn" = true -> 0 < num_graphs g ->
  nth (length (x g)) (augmented_features fe g F) [] = repeat 0%Qc F.
Proof.
  intros Hlearn Hnb. unfold augmented_features, pooled_features. rewrite Hlearn.
  assert (Hrow : forall ext, nth (length (x g)) ((x g ++ zeros (num_graphs g) F) ++ ext) []
                             = repeat 0%Qc F).
  { intros ext. rewrite <- app_assoc, app_nth2, Nat.sub_diag by lia.
    destruct (num_graphs g); [lia | reflexivity]. }
  destruct (streq (conflicts fe) "node").
  - rewrite (nth_indep _ [] (zero_machine_block (max_n_machines fe) [])).
    + rewrite map_nth, Hrow. apply zero_machine_block_zeros.
    + rewrite length_map, !length_app. unfold zeros. rewrite !repeat_length. lia.
  - rewrite <- (app_nil_r (x g ++ zeros (num_graphs g) F)). apply Hrow.
Qed.

Lemma slice_one {A : Type} (d : A) k (l : list A) :
  k < length l -> slice k (k + 1) l = [nth k l d].
Proof.
  intros Hk. unfold slice. replace (k + 1 - k) with 1 by lia.
  rewrite <- (firstn_skipn k l) at 2.
  rewrite app_nth2; rewrite length_firstn; [|lia].
  replace (k - Nat.min k (length l)) with 0 by lia.
  destruct (skipn k l) as [|a l'] eqn:E; [|reflexivity].
  apply (f_equal (@length A)) in E. rewrite length_skipn in E. simpl in E. lia.
Qed.

(** C3, for the mode string of the code. With pooling mode "learn" on a
    single graph of four nodes, the graph embedding [forward] appends to
    each node row is row 4 of the concatenated layer embeddings, the row
    of the virtual pooling node that the augmentation inserts as a zero
    row right after the four task rows; rows 0 to 3 are the node rows. *)
Theorem learn_pooling_reads_virtual_node lp fe obs F cw :
  shape_contract lp fe F cw ->
  obs_okb fe obs F = true ->
  streq (graph_pooling fe) "learn" = true ->
  get_batch_size obs = 1 -> get_n_nodes obs = 4 ->
  exists a st features,
    augment fe (to_graph obs) = Ok a
    /\ nth 4 (aug_features a) [] = repeat 0%Qc F
    /\ embed_layers lp fe a = Ok st
    /\ final_features st = Ok features
    /\ graph_embedding_of fe 4 1 4 features [firstn 4 features] = Ok [nth 4 features []]
    /\ forward lp fe obs = Ok [concat_embedding (firstn 4 features) (nth 4 features [])].
Proof.
  intros C Hok Hlearn HB Hn.
  assert (Hacc : accepted_pooling (graph_pooling fe) = true)
    by (unfold accepted_pooling; rewrite Hlearn; apply orb_true_r).
  destruct (@forward_ok lp fe obs F cw C Hok Hacc)
    as (a & st & features & ge & Ha & Hfeat & Hst & Hfinal & Hshape & Hge & Hfwd & _).
  apply obs_okb_inv in Hok as (HN & _ & Hnb & _).
  rewrite HB, Hn in *. simpl in HN. rewrite HN, Hnb in *.
  destruct (augmented_rows_bounds fe (to_graph obs)) as [_ Hrows].
  specialize (Hrows Hlearn). rewrite HN, Hnb in Hrows.
  assert (Hlen : 4 < length features) by (destruct Hshape as [-> _]; lia).
  assert (Hchunk : take_chunks 1 4 (firstn 4 features) = [firstn 4 features])
    by (cbn [take_chunks]; now rewrite firstn_firstn).
  rewrite Hchunk in *.
  assert (Hgeval : ge = [nth 4 features []]).
  { unfold graph_embedding_of in Hge.
    assert (Hmode : graph_pooling fe = "learn") by (now apply streq_eq).
    rewrite Hmode in Hge.
    change (streq "learn" "max") with false in Hge.
    change (streq "learn" "avg") with false in Hge.
    change (streq "learn" "learn") with true in Hge. cbv iota in Hge.
    rewrite (@slice_one _ [] 4 features Hlen) in Hge. congruence. }
  subst ge.
  exists a, st, features.
  split; [exact Ha|]. split.
  { rewrite Hfeat. rewrite <- HN at 1. apply augmented_features_pool_row; [exact Hlearn|].
    rewrite Hnb. lia. }
  split; [exact Hst|]. split; [exact Hfinal|]. split; [exact Hge|].
  exact Hfwd.
Qed.

Lemma learn_pooling_reads_virtual_node_witness :
  exists a st features,
    augment (ex_fe "eg" "learn" "clique" 1 false true false false true) (to_graph ex_obs)
    = Ok a
    /\ nth 4 (aug_features a) [] = repeat 0%Qc 8
    /\ embed_layers ex_lp (ex_fe "eg" "learn" "clique" 1 false true false false true) a
       = Ok st
    /\ final_features st = Ok features
    /\ graph_embedding_of (ex_fe "eg" "learn" "clique" 1 false true false false true)
                          4 1 4 features [firstn 4 features]
       = Ok [nth 4 features []]
    /\ forward ex_lp (ex_fe "eg" "learn" "clique" 1 false true false false true) ex_obs
       = Ok [concat_embedding (firstn 4 features) (nth 4 features [])].
Proof.
  exact (@learn_pooling_reads_virtual_node ex_lp
           (ex_fe "eg" "learn" "clique" 1 false true false false true) ex_obs 8 3
           (@ex_lp_contract (ex_fe "eg" "learn" "clique" 1 false true false false true)
                            eq_refl)
           eq_refl eq_refl eq_refl eq_refl).
Defined.

(** C3 as stated, with the mode string "learned": on a single graph of
    four nodes no virtual pooling node is inserted (the augmented features
    keep their four rows, there is no row 4) and [forward] raises. *)
Lemma learned_mode_is_not_recognized :
  get_batch_size ex_obs = 1 /\ get_n_nodes ex_obs = 4
  /\ (exists a,
         augment (ex_fe "eg" "learned" "att" 1 false true false false true)
                 (to_graph ex_obs) = Ok a
         /\ length (aug_features a) = 4)
  /\ forward ex_lp (ex_fe "eg" "learned" "att" 1 false true false false true) ex_obs
     = Raise (PoolingNotRecognized "learned").
Proof.
  split; [reflexivity|]. split; [reflexivity|]. split.
  - eexists. split; [vm_compute; reflexivity | reflexivity].
  - vm_compute. reflexivity.
Qed.

(** ** The three clique strategies *)

Lemma In_firstn_incl {A : Type} (a : A) k : forall l, In a (firstn k l) -> In a l.
Proof.
  induction k as [|k IH]; intros [|b l]; simpl; try tauto.
  intros [H|H]; [now left | right; now apply IH].
Qed.

Lemma In_skipn_incl {A : Type} (a : A) k : forall l, In a (skipn k l) -> In a l.
Proof.
  induction k as [|k IH]; intros [|b l]; simpl; try tauto.
  intros H. right. now apply IH.
Qed.

Lemma In_slice_incl {A : Type} (a : A) lo hi l : In a (slice lo hi l) -> In a l.
Proof. unfold slice. intros H. eapply In_skipn_incl, In_firstn_incl, H. Qed.

Lemma nth_slice {A : Type} (d : A) lo hi l i :
  i < hi - lo -> nth i (slice lo hi l) d = nth (lo + i) l d.
Proof.
  intros Hi. unfold slice. rewrite nth_firstn.
  replace (i <? hi - lo) with true by (symmetry; apply Nat.ltb_lt; lia).
  apply nth_skipn.
Qed.

Lemma slice_firstn {A : Type} lo hi n (l : list A) :
  hi <= n -> slice lo hi (firstn n l) = slice lo hi l.
Proof.
  intros H. unfold slice. rewrite skipn_firstn_comm, firstn_firstn.
  f_equal. lia.
Qed.

Lemma slice_length {A : Type} lo hi (l : list A) :
  lo <= hi -> hi <= length l -> length (slice lo hi l) = hi - lo.
Proof.
  intros H1 H2. unfold slice. rewrite length_firstn, length_skipn. lia.
Qed.

Lemma blocks_okb_slice M lo hi f :
  blocks_okb M f = true -> blocks_okb M (slice lo hi f) = true.
Proof.
  unfold blocks_okb. rewrite !andb_true_iff, !forallb_forall.
  intros [HM H]. split; [exact HM|]. intros row Hrow.
  apply H. eapply In_slice_incl, Hrow.
Qed.

Lemma flags_okb_slice lo hi f :
  flags_okb f = true -> flags_okb (slice lo hi f) = true.
Proof.
  unfold flags_okb. rewrite !forallb_forall.
  intros H row Hrow. apply H. eapply In_slice_incl, Hrow.
Qed.

Lemma affectations_ok f :
  flags_okb f = true -> affectations f = Ok (map (hd 0%Qc) f).
Proof.
  unfold flags_okb. rewrite forallb_forall. intros H.
  apply mapM_total. intros row Hrow. specialize (H row Hrow).
  destruct row; [discriminate | reflexivity].
Qed.

Lemma flag_cases f i :
  flags_okb f = true -> i < length f ->
  hd 0%Qc (nth i f []) = 0%Qc \/ hd 0%Qc (nth i f []) = 1%Qc.
Proof.
  unfold flags_okb. rewrite forallb_forall. intros H Hi.
  specialize (H (nth i f []) (nth_In f [] Hi)).
  destruct (nth i f []) as [|a r]; [discriminate|]. simpl.
  apply orb_true_iff in H. rewrite !Qc_eqb_eq in H. exact H.
Qed.

(** For a flag that is 0.0 or 1.0, being non-zero and being equal to 1.0
    are the same test. *)
Lemma flag_truthy f i :
  flags_okb f = true -> i < length f ->
  Qc_eqb (hd 0%Qc (nth i f [])) 1%Qc = truthy (hd 0%Qc (nth i f [])).
Proof.
  intros H Hi. destruct (flag_cases _ H Hi) as [-> | ->]; reflexivity.
Qed.

Lemma nth_mids M f i :
  nth i (map (machineid_spec M) f) (-1)%Z = machineid_spec M (nth i f []).
Proof.
  replace (-1)%Z with (machineid_spec M [])
    by (unfold machineid_spec, machine_block, slice; destruct M; reflexivity).
  apply map_nth.
Qed.

Lemma nth_flags f i : nth i (map (hd 0%Qc) f) 0%Qc = hd 0%Qc (nth i f []).
Proof. exact (map_nth (hd 0%Qc) f [] i). Qed.

Lemma machineid_spec_range M row : (-1 <= machineid_spec M row)%Z.
Proof.
  unfold machineid_spec, Zn. destruct (all_zero _); lia.
Qed.

(** The comparison of machine ids of the dense strategies: equal ids of
    assigned tasks. *)
Lemma machine_match mi mj :
  (-1 <= mi)%Z -> (-1 <= mj)%Z ->
  (mj =? m2_of mi)%Z = true <-> mi = mj /\ (0 <= mi)%Z.
Proof.
  intros Hi Hj. unfold m2_of. rewrite Z.eqb_eq.
  destruct (mi =? -1)%Z eqn:E.
  - apply Z.eqb_eq in E. lia.
  - apply Z.eqb_neq in E. lia.
Qed.

Lemma not_both_iff a b :
  negb (a && b) = true <-> ~ (a = true /\ b = true).
Proof. destruct a, b; simpl; intuition congruence. Qed.

(** Nodes of a well-formed batch: a node lies in the range of graph [bi]
    exactly when [bi] is its batch id. *)
Lemma in_range_batch g bi k :
  wf_graphb g = true -> bi < num_graphs g ->
  nth bi (ptr g) 0 <= k < nth (S bi) (ptr g) 0 ->
  k < length (x g) /\ nth k (batch g) 0 = bi.
Proof.
  intros Hwf Hbi Hk.
  pose proof (ptr_monotone _ Hwf) as Hmono.
  pose proof (wf_graphb_inv _ Hwf) as (_ & _ & Hlast & _ & Hnodes).
  assert (HkN : k < length (x g)).
  { rewrite <- Hlast. specialize (Hmono (num_graphs g) (S bi)). lia. }
  split; [exact HkN|].
  destruct (Hnodes k HkN) as (Hb & Hlo & Hhi).
  set (b := nth k (batch g) 0) in *.
  destruct (Nat.lt_trichotomy b bi) as [Hlt|[Heq|Hgt]]; [|exact Heq|].
  - specialize (Hmono bi (S b)). lia.
  - specialize (Hmono b (S bi)). lia.
Qed.

Lemma batch_in_range g k :
  wf_graphb g = true -> k < length (x g) ->
  nth k (batch g) 0 < num_graphs g
  /\ nth (nth k (batch g) 0) (ptr g) 0 <= k < nth (S (nth k (batch g) 0)) (ptr g) 0.
Proof.
  intros Hwf Hk. pose proof (wf_graphb_inv _ Hwf) as (_ & _ & _ & _ & Hnodes).
  destruct (Hnodes k Hk) as (H1 & H2 & H3). auto.
Qed.

Lemma clique_cond_batch_iff M g i j :
  clique_cond_batch (map (machineid_spec M) (x g)) (map (hd 0%Qc) (x g)) (batch g) i j
  = true
  <-> mid_of M g i = mid_of M g j /\ (0 <= mid_of M g i)%Z
      /\ nth i (batch g) 0 = nth j (batch g) 0
      /\ ~ (scheduled g i /\ scheduled g j) /\ i <> j.
Proof.
  unfold clique_cond_batch, mid_of, scheduled.
  rewrite !andb_true_iff, !nth_mids, !nth_flags.
  rewrite machine_match by apply machineid_spec_range.
  rewrite not_both_iff, negb_true_iff, Nat.eqb_neq, Nat.eqb_eq.
  intuition congruence.
Qed.

Lemma clique_cond_slice_iff M g lo hi i j :
  i < hi - lo -> j < hi - lo ->
  clique_cond (map (machineid_spec M) (slice lo hi (x g)))
              (map (hd 0%Qc) (slice lo hi (x g))) i j = true
  <-> mid_of M g (lo + i) = mid_of M g (lo + j) /\ (0 <= mid_of M g (lo + i))%Z
      /\ ~ (scheduled g (lo + i) /\ scheduled g (lo + j)) /\ i <> j.
Proof.
  intros Hi Hj. unfold clique_cond, mid_of, scheduled.
  rewrite !andb_true_iff, !nth_mids, !nth_flags.
  rewrite !nth_slice by assumption.
  rewrite machine_match by apply machineid_spec_range.
  rewrite not_both_iff, negb_true_iff, Nat.eqb_neq.
  intuition congruence.
Qed.

Lemma Zn_inj i j : Zn i = Zn j -> i = j.
Proof. unfold Zn. lia. Qed.

(** The all-graphs-at-once strategy yields the conflict edges. *)
Lemma clique_highmem_spec M g f :
  wf_graphb g = true -> blocks_okb M (x g) = true -> flags_okb (x g) = true ->
  firstn (length (x g)) f = x g ->
  exists eh, clique_highmem M f (length (x g)) (batch g) = Ok eh
             /\ forall e, In e eh <-> conflict_spec M g e.
Proof.
  intros Hwf Hblocks Hflags Hx.
  pose proof (wf_graphb_inv _ Hwf) as (_ & _ & _ & Hbatch & _).
  unfold clique_highmem. rewrite Hx.
  rewrite (machine_ids_ok _ _ Hblocks). cbn [bind].
  rewrite (affectations_ok _ Hflags). cbn [bind].
  rewrite Hbatch, Nat.eqb_refl. cbn [negb].
  eexists. split; [reflexivity|].
  intros e. rewrite in_map_iff. split.
  - intros ([i j] & <- & Hin). apply in_nonzero2 in Hin as (Hi & Hj & Hc).
    apply clique_cond_batch_iff in Hc as (Hm & Hpos & Hb & Haff & Hne).
    exists i, j. cbn [fst snd]. rewrite nth_mids.
    repeat (split; [assumption|]). reflexivity.
  - intros (i & j & Hi & Hj & Hne & Hb & Hm & Hpos & Haff & ->).
    exists (i, j). cbn [fst snd]. rewrite nth_mids. split; [reflexivity|].
    apply in_nonzero2. repeat (split; [assumption|]).
    apply clique_cond_batch_iff. auto.
Qed.

(** The dense comparison of one graph yields the conflict edges between
    the nodes of its range. *)
Lemma clique_of_graph_spec M g f lo hi :
  blocks_okb M (x g) = true -> flags_okb (x g) = true ->
  firstn (length (x g)) f = x g -> hi <= length (x g) ->
  exists es, clique_of_graph M f lo hi = Ok es
             /\ forall e, In e es <-> graph_conflict M g lo hi e.
Proof.
  intros Hblocks Hflags Hx Hhi. unfold graph_conflict.
  assert (Hslice : slice lo hi f = slice lo hi (x g))
    by (rewrite <- Hx; symmetry; now apply slice_firstn).
  unfold clique_of_graph. rewrite Hslice.
  rewrite (machine_ids_ok _ _ (blocks_okb_slice _ lo hi _ Hblocks)). cbn [bind].
  rewrite (affectations_ok _ (flags_okb_slice lo hi _ Hflags)). cbn [bind].
  eexists. split; [reflexivity|].
  intros e. rewrite in_map_iff. split.
  - intros ([i j] & <- & Hin). apply in_nonzero2 in Hin as (Hi & Hj & Hc).
    apply clique_cond_slice_iff in Hc as (Hm & Hpos & Haff & Hne); try assumption.
    exists (lo + i), (lo + j). cbn [fst snd].
    rewrite nth_mids, nth_slice by assumption.
    split; [lia|]. split; [lia|]. split; [lia|].
    repeat (split; [assumption|]).
    unfold mid_of. rewrite (Nat.add_comm i lo), (Nat.add_comm j lo). reflexivity.
  - intros (i & j & Hi & Hj & Hne & Hm & Hpos & Haff & ->).
    exists (i - lo, j - lo). cbn [fst snd].
    rewrite nth_mids, nth_slice by lia.
    replace (lo + (i - lo)) with i by lia.
    replace (i - lo + lo) with i by lia. replace (j - lo + lo) with j by lia.
    split; [reflexivity|].
    apply in_nonzero2. split; [lia|]. split; [lia|].
    apply clique_cond_slice_iff; try lia.
    replace (lo + (i - lo)) with i by lia. replace (lo + (j - lo)) with j by lia.
    repeat (split; [assumption|]). lia.
Qed.

(** The conflict edges of the batch are those of its graphs. *)
Lemma graph_conflict_batch M g e :
  wf_graphb g = true ->
  (exists bi, bi < num_graphs g
              /\ graph_conflict M g (nth bi (ptr g) 0) (nth (S bi) (ptr g) 0) e)
  <-> conflict_spec M g e.
Proof.
  intros Hwf. split.
  - intros (bi & Hbi & i & j & Hi & Hj & Hne & Hm & Hpos & Haff & ->).
    destruct (@in_range_batch g bi i Hwf Hbi Hi) as [HiN Hib].
    destruct (@in_range_batch g bi j Hwf Hbi Hj) as [HjN Hjb].
    exists i, j. repeat (split; [assumption|]).
    split; [congruence|]. repeat (split; [assumption|]). reflexivity.
  - intros (i & j & Hi & Hj & Hne & Hb & Hm & Hpos & Haff & ->).
    destruct (@batch_in_range g i Hwf Hi) as [Hbi Hir].
    destruct (@batch_in_range g j Hwf Hj) as [_ Hjr].
    exists (nth i (batch g) 0). split; [exact Hbi|].
    exists i, j. split; [exact Hir|]. split; [now rewrite Hb|].
    repeat (split; [assumption|]). reflexivity.
Qed.

Lemma mapM_spec {A B : Type} (f : A -> result B) (P : A -> B -> Prop) l :
  (forall a, In a l -> exists b, f a = Ok b /\ P a b) ->
  exists bs, mapM f l = Ok bs /\ Forall2 P l bs.
Proof.
  induction l as [|a l IH]; intros H.
  - exists []. split; [reflexivity | constructor].
  - destruct (H a (or_introl eq_refl)) as (b & Hb & HP).
    destruct IH as (bs & Hbs & HF); [intros; apply H; now right|].
    exists (b :: bs). simpl. rewrite Hb, Hbs. split; [reflexivity | now constructor].
Qed.

Lemma in_concat_Forall2 {A B : Type} (Q : A -> B -> Prop) l (bs : list (list B)) e
  (P : A -> list B -> Prop) :
  Forall2 P l bs ->
  (forall a es, P a es -> (In e es <-> Q a e)) ->
  In e (concat bs) <-> exists a, In a l /\ Q a e.
Proof.
  intros HF HP. induction HF as [|a es l bs Hes _ IH]; simpl.
  - split; [tauto | intros (a & [] & _)].
  - rewrite in_app_iff, IH, (HP _ _ Hes). split.
    + intros [H|(a' & Ha' & H)]; [exists a; auto | exists a'; auto].
    + intros (a' & [<-|Ha'] & H); [now left | right; eauto].
Qed.

(** The per-graph dense strategy yields the conflict edges. *)
Lemma clique_mediummem_spec M g f :
  wf_graphb g = true -> blocks_okb M (x g) = true -> flags_okb (x g) = true ->
  firstn (length (x g)) f = x g ->
  exists em, clique_mediummem M f (ptr g) (num_graphs g) = Ok em
             /\ forall e, In e em <-> conflict_spec M g e.
Proof.
  intros Hwf Hblocks Hflags Hx.
  assert (Hlen : length (x g) <= length f).
  { apply (f_equal (@length (list Qc))) in Hx. rewrite length_firstn in Hx. lia. }
  unfold clique_mediummem.
  destruct (@mapM_spec nat (list edge)
              (fun bi => '(lo, hi) <- graph_range (ptr g) (length f) bi ;;
                         clique_of_graph M f lo hi)
              (fun bi es => forall e,
                   In e es <->
                   graph_conflict M g (nth bi (ptr g) 0) (nth (S bi) (ptr g) 0) e)
              (seq 0 (num_graphs g))) as (pg & Hpg & HF).
  { intros bi Hbi. apply in_seq in Hbi.
    destruct (@graph_range_total g (length f) bi Hwf) as [-> [_ Hhi]]; [lia | lia|].
    cbn [bind]. now apply clique_of_graph_spec. }
  rewrite Hpg. cbn [bind]. eexists. split; [reflexivity|].
  intros e. rewrite <- (graph_conflict_batch M g e Hwf).
  rewrite (in_concat_Forall2
             (fun bi e => graph_conflict M g (nth bi (ptr g) 0) (nth (S bi) (ptr g) 0) e)
             e HF).
  - split; intros (bi & Hbi & H); exists bi; (split; [|exact H]).
    + apply in_seq in Hbi. lia.
    + apply in_seq. lia.
  - intros bi es H. apply H.
Qed.

Lemma mid_nonneg_iff M row :
  (0 <= machineid_spec M row)%Z <-> all_zero (machine_block M row) = false.
Proof.
  unfold machineid_spec, Zn. destruct (all_zero _); split; intros; try lia; congruence.
Qed.

Lemma mid_of_argmax M row :
  all_zero (machine_block M row) = false ->
  machineid_spec M row = Zn (argmax (machine_block M row)).
Proof. unfold machineid_spec. now intros ->. Qed.

Lemma nth_blocks M f i :
  nth i (map (machine_block M) f) [] = machine_block M (nth i f []).
Proof.
  replace (@nil Qc) with (machine_block M []) at 1
    by (unfold machine_block, slice; destruct M; reflexivity).
  apply map_nth.
Qed.

(** Two machine blocks of the data model that are not all zero are equal
    exactly when they code the same machine. *)
Lemma block_eq_iff M f i j :
  blocks_okb M f = true -> i < length f -> j < length f ->
  all_zero (machine_block M (nth i f [])) = false ->
  all_zero (machine_block M (nth j f [])) = false ->
  vector_eqb (machine_block M (nth i f [])) (machine_block M (nth j f [])) = true
  <-> machineid_spec M (nth i f []) = machineid_spec M (nth j f []).
Proof.
  intros Hblocks Hi Hj Zi Zj.
  apply blocks_okb_inv in Hblocks as [HM Hrows].
  destruct (Hrows _ (nth_In f [] Hi)) as [_ Bi].
  destruct (Hrows _ (nth_In f [] Hj)) as [_ Bj].
  rewrite vector_eqb_eq, !mid_of_argmax by assumption.
  apply block_okb_cases in Bi as [Bi|(ki & Hki & Bi)];
    [rewrite Bi, all_zero_zeros in Zi; discriminate|].
  apply block_okb_cases in Bj as [Bj|(kj & Hkj & Bj)];
    [rewrite Bj, all_zero_zeros in Zj; discriminate|].
  rewrite Bi, Bj, !argmax_one_hot by assumption. split.
  - intros H. apply (f_equal argmax) in H.
    rewrite !argmax_one_hot in H by assumption. now rewrite H.
  - intros H. apply Zn_inj in H. now rewrite H.
Qed.

(** The inner loop of the exhaustive scan for node [ni1]: both directions
    of every conflict with a later node of the graph. *)
Lemma lowmem_inner_spec M g ni1 hi e :
  blocks_okb M (x g) = true -> flags_okb (x g) = true ->
  ni1 < hi -> hi <= length (x g) ->
  In e (lowmem_inner (map (machine_block M) (x g)) (map (hd 0%Qc) (x g)) ni1 hi)
  <-> exists ni2,
        ni1 < ni2 < hi
        /\ mid_of M g ni1 = mid_of M g ni2 /\ (0 <= mid_of M g ni1)%Z
        /\ ~ (scheduled g ni1 /\ scheduled g ni2)
        /\ (e = (Zn ni1, Zn ni2, (mid_of M g ni1 + 3)%Z)
            \/ e = (Zn ni2, Zn ni1, (mid_of M g ni1 + 3)%Z)).
Proof.
  intros Hblocks Hflags H1 Hhi. unfold lowmem_inner, mid_of, scheduled.
  rewrite nth_blocks, nth_flags.
  destruct (all_zero (machine_block M (nth ni1 (x g) []))) eqn:Z1.
  - split; [intros [] |].
    intros (ni2 & _ & _ & Hpos & _). apply mid_nonneg_iff in Hpos. congruence.
  - rewrite <- (mid_of_argmax _ _ Z1).
    rewrite (flag_truthy _ Hflags) by lia.
    rewrite in_flat_map. split.
    + intros (ni2 & Hin & He). apply in_seq in Hin.
      rewrite nth_blocks, nth_flags in He.
      destruct (all_zero (machine_block M (nth ni2 (x g) []))) eqn:Z2; [destruct He|].
      rewrite (flag_truthy _ Hflags) in He by lia.
      destruct (vector_eqb _ _ && _) eqn:C; [|destruct He].
      apply andb_true_iff in C as [Ceq Caff].
      apply block_eq_iff in Ceq; try assumption; try lia.
      apply not_both_iff in Caff.
      exists ni2. split; [lia|]. split; [exact Ceq|].
      split; [now apply mid_nonneg_iff|]. split; [exact Caff|].
      destruct He as [<-|[<-|[]]]; auto.
    + intros (ni2 & Hni2 & Hm & Hpos & Haff & He).
      exists ni2. split; [apply in_seq; lia|].
      rewrite nth_blocks, nth_flags.
      assert (Z2 : all_zero (machine_block M (nth ni2 (x g) [])) = false)
        by (apply mid_nonneg_iff; rewrite <- Hm; exact Hpos).
      rewrite Z2, (flag_truthy _ Hflags) by lia.
      assert (C : vector_eqb (machine_block M (nth ni1 (x g) []))
                             (machine_block M (nth ni2 (x g) [])) = true)
        by (apply block_eq_iff; try assumption; lia).
      rewrite C. apply not_both_iff in Haff. rewrite Haff. cbn [andb].
      destruct He as [-> | ->]; simpl; auto.
Qed.

(** The exhaustive scan of one graph yields the conflict edges between the
    nodes of its range. *)
Lemma lowmem_graph_spec M g lo hi e :
  blocks_okb M (x g) = true -> flags_okb (x g) = true -> hi <= length (x g) ->
  In e (flat_map (fun ni1 => lowmem_inner (map (machine_block M) (x g))
                                          (map (hd 0%Qc) (x g)) ni1 hi)
                 (seq lo (hi - lo)))
  <-> graph_conflict M g lo hi e.
Proof.
  intros Hblocks Hflags Hhi. rewrite in_flat_map. unfold graph_conflict. split.
  - intros (ni1 & Hin & He). apply in_seq in Hin.
    apply lowmem_inner_spec in He; try assumption; try lia.
    destruct He as (ni2 & Hni2 & Hm & Hpos & Haff & [-> | ->]).
    + exists ni1, ni2. split; [lia|]. split; [lia|]. split; [lia|]. auto.
    + exists ni2, ni1. split; [lia|]. split; [lia|]. split; [lia|].
      split; [now symmetry|]. split; [now rewrite <- Hm|].
      split; [tauto|]. now rewrite Hm.
  - intros (i & j & Hi & Hj & Hne & Hm & Hpos & Haff & ->).
    destruct (Nat.lt_ge_cases i j) as [Hlt|Hge].
    + exists i. split; [apply in_seq; lia|].
      apply lowmem_inner_spec; try assumption; try lia.
      exists j. split; [lia|]. auto.
    + exists j. split; [apply in_seq; lia|].
      apply lowmem_inner_spec; try assumption; try lia.
      exists i. split; [lia|]. split; [now symmetry|].
      split; [now rewrite <- Hm|]. split; [tauto|]. right. now rewrite Hm.
Qed.

(** The exhaustive scan yields the conflict edges. *)
Lemma clique_lowmem_spec M g f :
  wf_graphb g = true -> blocks_okb M (x g) = true -> flags_okb (x g) = true ->
  firstn (length (x g)) f = x g ->
  exists el, clique_lowmem M f (length (x g)) (ptr g) (num_graphs g) = Ok el
             /\ forall e, In e el <-> conflict_spec M g e.
Proof.
  intros Hwf Hblocks Hflags Hx.
  unfold clique_lowmem. rewrite Hx.
  rewrite (affectations_ok _ Hflags). cbn [bind].
  destruct (@mapM_spec nat (list edge)
              (fun bi => '(lo, hi) <- graph_range (ptr g) (length (x g)) bi ;;
                         Ok (flat_map
                               (fun ni1 => lowmem_inner (map (machine_block M) (x g))
                                                        (map (hd 0%Qc) (x g)) ni1 hi)
                               (seq lo (hi - lo))))
              (fun bi es => forall e,
                   In e es <->
                   graph_conflict M g (nth bi (ptr g) 0) (nth (S bi) (ptr g) 0) e)
              (seq 0 (num_graphs g))) as (pg & Hpg & HF).
  { intros bi Hbi. apply in_seq in Hbi.
    destruct (@graph_range_total g (length (x g)) bi Hwf) as [-> [_ Hhi]]; [lia | lia|].
    cbn [bind]. eexists. split; [reflexivity|].
    intros e. now apply lowmem_graph_spec. }
  rewrite Hpg. cbn [bind]. eexists. split; [reflexivity|].
  intros e. rewrite <- (graph_conflict_batch M g e Hwf).
  rewrite (in_concat_Forall2
             (fun bi e => graph_conflict M g (nth bi (ptr g) 0) (nth (S bi) (ptr g) 0) e)
             e HF).
  - split; intros (bi & Hbi & H); exists bi; (split; [|exact H]).
    + apply in_seq in Hbi. lia.
    + apply in_seq. lia.
  - intros bi es H. apply H.
Qed.

(** In clique mode, on a batch of the data model (well-formed pointers
    and batch assignment, machine blocks all zero or one-hot, affectation
    flags 0.0 or 1.0), the three strategies of the conflict stage return
    the same set of (source, target, edge type) triples. *)
Theorem clique_strategies_agree fe g f es bid off mediummem :
  streq (conflicts fe) "clique" = true ->
  wf_graphb g = true ->
  blocks_okb (max_n_machines fe) (x g) = true ->
  flags_okb (x g) = true ->
  pool_stage fe g = Ok (f, es, bid, off) ->
  exists eh em el,
    conflict_edges (with_strategy fe true mediummem) f g off = Ok eh
    /\ conflict_edges (with_strategy fe false true) f g off = Ok em
    /\ conflict_edges (with_strategy fe false false) f g off = Ok el
    /\ forall e, (In e eh <-> In e em) /\ (In e em <-> In e el).
Proof.
  intros Hmode Hwf Hblocks Hflags Hpool.
  apply pool_stage_offset in Hpool as (_ & _ & Hx).
  destruct (@clique_highmem_spec _ g f Hwf Hblocks Hflags Hx) as (eh & Heh & Hh).
  destruct (@clique_mediummem_spec _ g f Hwf Hblocks Hflags Hx) as (em & Hem & Hm).
  destruct (@clique_lowmem_spec _ g f Hwf Hblocks Hflags Hx) as (el & Hel & Hl).
  exists eh, em, el. unfold conflict_edges.
  cbn [with_strategy conflicts highmem_conflict_clique mediummem_conflict_clique
       max_n_machines].
  rewrite Hmode.
  split; [exact Heh|]. split; [exact Hem|]. split; [exact Hel|].
  intros e. rewrite Hh, Hm, Hl. tauto.
Qed.

Lemma clique_strategies_agree_witness :
  exists eh em el,
    conflict_edges (with_strategy (ex_fe "eg" "learn" "clique" 1 true true false false true)
                                  true false)
                   (x ex_batch ++ zeros 2 8) ex_batch 7 = Ok eh
    /\ conflict_edges (with_strategy (ex_fe "eg" "learn" "clique" 1 true true false false true)
                                     false true)
                      (x ex_batch ++ zeros 2 8) ex_batch 7 = Ok em
    /\ conflict_edges (with_strategy (ex_fe "eg" "learn" "clique" 1 true true false false true)
                                     false false)
                      (x ex_batch ++ zeros 2 8) ex_batch 7 = Ok el
    /\ forall e, (In e eh <-> In e em) /\ (In e em <-> In e el).
Proof.
  eapply (@clique_strategies_agree
            (ex_fe "eg" "learn" "clique" 1 true true false false true) ex_batch);
    vm_compute; reflexivity.
Defined.

(** C2. The three strategies do not return the same edges on every batch.
    On the features [put_back_one_hot_encoding_batched] writes for a graph
    of two unscheduled tasks, the first without a machine and the second on
    machine 0, the two dense strategies read machine 0 off the block
    [(-1, -1)] (its maximum is not 0) and put the two tasks in conflict,
    while the exhaustive scan compares the blocks themselves and returns
    no edge. *)
Theorem clique_strategies_disagree_on_unassigned :
  put_back_one_hot_encoding_batched ex_unassigned_compact 2 2 = Ok (x ex_unassigned)
  /\ wf_graphb ex_unassigned = true
  /\ pool_stage (ex_fe "eg" "max" "clique" 1 true true false true false) ex_unassigned
     = Ok (x ex_unassigned, [(0, 1, 1)]%Z, [0; 0], 2)
  /\ conflict_edges (ex_fe "eg" "max" "clique" 1 true true false true false)
                    (x ex_unassigned) ex_unassigned 2
     = Ok [(0, 1, 3); (1, 0, 3)]%Z
  /\ conflict_edges (ex_fe "eg" "max" "clique" 1 true true false false true)
                    (x ex_unassigned) ex_unassigned 2
     = Ok [(0, 1, 3); (1, 0, 3)]%Z
  /\ conflict_edges (ex_fe "eg" "max" "clique" 1 true true false false false)
                    (x ex_unassigned) ex_unassigned 2
     = Ok [].
Proof.
  split; [vm_compute; reflexivity|]. split; [reflexivity|]. split; [reflexivity|].
  split; [vm_compute; reflexivity|]. split; vm_compute; reflexivity.
Qed.

(** ** The scenarios of the two-graph batch *)

(** Clique mode: graph A (three unscheduled tasks on machine 0) gets six
    directed conflict edges tagged 3, graph B (two tasks on distinct
    machines) none; the strategies differ in the order only. *)
Example clique_scenario_mediummem :
  conflict_edges (ex_fe "eg" "max" "clique" 1 true true false false true)
                 (x ex_batch) ex_batch 5
  = Ok [(0, 1, 3); (0, 2, 3); (1, 0, 3); (1, 2, 3); (2, 0, 3); (2, 1, 3)]%Z.
Proof. reflexivity. Qed.

Example clique_scenario_lowmem :
  conflict_edges (ex_fe "eg" "max" "clique" 1 true true false false false)
                 (x ex_batch) ex_batch 5
  = Ok [(0, 1, 3); (1, 0, 3); (0, 2, 3); (2, 0, 3); (1, 2, 3); (2, 1, 3)]%Z.
Proof. reflexivity. Qed.

(** Machine-node mode: hub 5 (machine 0 of graph A) gets three edges in
    each direction, hubs 7 and 8 (machines 0 and 1 of graph B) one each. *)
Example node_scenario :
  conflict_edges (ex_fe "eg" "max" "node" 1 true true false false true)
                 (x ex_batch) ex_batch 5
  = Ok [(0, 5, 3); (1, 5, 3); (2, 5, 3); (3, 7, 3); (4, 8, 4);
        (5, 0, 5); (5, 1, 5); (5, 2, 5); (7, 3, 5); (8, 4, 6)]%Z.
Proof. reflexivity. Qed.

(** An unknown convolution type with one layer exits; without layers the
    type is not looked at. *)
Example init_unknown_type :
  init (ex_args "gcn" "max" "att" 1 true true false) = Raise SystemExit
  /\ is_ok (init (ex_args "gcn" "max" "att" 0 true true false)) = true.
Proof. split; reflexivity. Qed.

(** * [utils/utils.py] *)

(** ** Nodes, jobs and tasks *)

(** Encoding a (job, task) pair as a node and decoding the node gives the
    pair back, when the task index is within the machines. *)
Theorem job_and_task_round_trip (job_id task_id n_machines : Z) :
  (0 <= task_id < n_machines)%Z ->
  node_to_job_and_task (job_and_task_to_node job_id task_id n_machines) n_machines
  = Returned (job_id, task_id).
Proof.
  intros H. unfold node_to_job_and_task, job_and_task_to_node.
  destruct (Z.eqb_spec n_machines 0) as [E|E]; [lia|].
  f_equal. f_equal.
  - rewrite Z.div_add_l by exact E. rewrite Z.div_small by exact H. lia.
  - rewrite Z.add_comm, Z.mod_add by exact E. apply Z.mod_small, H.
Qed.

Lemma job_and_task_round_trip_witness :
  node_to_job_and_task (job_and_task_to_node 3 2 5) 5 = Returned (3%Z, 2%Z).
Proof. apply (@job_and_task_round_trip 3 2 5). lia. Defined.

(** [node_to_job_and_task] raises [ZeroDivisionError] exactly when
    [n_machines] is zero.  Otherwise [job_and_task_to_node] maps the pair it
    returns back to the node, for every integer node id, and with a positive
    number of machines the task index lies in [0, n_machines). *)
Theorem node_to_job_and_task_inverse (node_id n_machines : Z) :
  match node_to_job_and_task node_id n_machines with
  | Returned (job_id, task_id) =>
      n_machines <> 0%Z
      /\ job_and_task_to_node job_id task_id n_machines = node_id
      /\ ((0 < n_machines)%Z -> (0 <= task_id < n_machines)%Z)
  | Raised e => n_machines = 0%Z /\ e = ZeroDivisionError
  end.
Proof.
  unfold node_to_job_and_task, job_and_task_to_node.
  destruct (Z.eqb_spec n_machines 0) as [E|E]; [split; [exact E | reflexivity]|].
  split; [exact E|]. split.
  - pose proof (Z.div_mod node_id n_machines E). lia.
  - intros Hpos. apply Z.mod_pos_bound, Hpos.
Qed.

Lemma py_in_In s l : py_in s l = true <-> In s l.
Proof.
  unfold py_in. rewrite existsb_exists. split.
  - intros [y [Hy E]]. apply String.eqb_eq in E. subst. exact Hy.
  - intros H. exists s. split; [exact H | apply String.eqb_refl].
Qed.

Lemma py_in_length s l : py_in s l = true -> 1 <= length l.
Proof. rewrite py_in_In. destruct l; simpl; [tauto | lia]. Qed.

Lemma py_in_two_length s t l :
  s <> t -> py_in s l = true -> py_in t l = true -> 2 <= length l.
Proof.
  rewrite !py_in_In. intros Hne Hs Ht.
  destruct l as [|a [|b l]]; simpl in *; try tauto; try lia.
  destruct Hs as [Hs|[]], Ht as [Ht|[]]. congruence.
Qed.

(** With a non-negative [max_n_jobs], [get_n_features] returns at least
    [6 + max_n_machines]: a row of that width holds the six leading columns
    and the machine block that [FeaturesExtractor.forward] reads. *)
Theorem get_n_features_lower_bound (input_list : list String.string)
  (max_n_jobs max_n_machines : Z) :
  (0 <= max_n_jobs)%Z ->
  (6 + max_n_machines <= fst (get_n_features input_list max_n_jobs max_n_machines))%Z.
Proof.
  intros HJ. unfold get_n_features. cbv zeta.
  match goal with |- context [py_in "one_hot_job_id" ?l'] => generalize l' end.
  intros l. cbn [fst].
  destruct (py_in "one_hot_job_id" l) eqn:E1, (py_in "mopnr" l) eqn:E2.
  - assert (2 <= length l) by (apply (@py_in_two_length "one_hot_job_id" "mopnr"); [discriminate | assumption | assumption]). lia.
  - apply py_in_length in E1. lia.
  - apply py_in_length in E2. lia.
  - lia.
Qed.

Lemma get_n_features_lower_bound_witness :
  (6 + 3 <= fst (get_n_features ["duration"; "one_hot_job_id"; "mopnr"; "selectable"] 4 3))%Z.
Proof. apply (@get_n_features_lower_bound _ 4 3). lia. Defined.

Lemma py_remove_not_in s l : ~ In s l -> py_remove s l = l.
Proof.
  induction l as [|a l IH]; simpl; [reflexivity|]. intros H.
  destruct (String.eqb_spec a s) as [E|E]; [exfalso; apply H; left; exact E|].
  rewrite IH; [reflexivity|]. intros Hin. apply H. right. exact Hin.
Qed.

Lemma py_remove_filter s l :
  NoDup l -> py_remove s l = filter (fun a => negb (String.eqb a s)) l.
Proof.
  induction 1 as [|a l Ha Hl IH]; simpl; [reflexivity|].
  destruct (String.eqb_spec a s) as [E|E]; simpl.
  - subst a. rewrite <- IH. symmetry. apply py_remove_not_in, Ha.
  - rewrite IH. reflexivity.
Qed.

Lemma py_in_false_filter s l :
  py_in s l = false -> filter (fun a => negb (String.eqb a s)) l = l.
Proof.
  induction l as [|a l IH]; simpl; [reflexivity|].
  rewrite String.eqb_sym. destruct (String.eqb a s); simpl; [discriminate|].
  intros H. rewrite IH by exact H. reflexivity.
Qed.

Lemma NoDup_filter_str (f : String.string -> bool) l : NoDup l -> NoDup (filter f l).
Proof.
  induction 1 as [|a l Ha Hl IH]; simpl; [constructor|].
  destruct (f a); [|exact IH]. constructor; [|exact IH].
  rewrite filter_In. tauto.
Qed.

Lemma cleaned_list (l : list String.string) :
  NoDup l ->
  (let l1 := if py_in "one_hot_machine_id" l then py_remove "one_hot_machine_id" l else l in
   if py_in "selectable" l1 then py_remove "selectable" l1 else l1)
  = filter listed_feature l.
Proof.
  intros Hl. cbv zeta.
  assert (E1 : (if py_in "one_hot_machine_id" l then py_remove "one_hot_machine_id" l else l)
               = filter (fun a => negb (String.eqb a "one_hot_machine_id")) l).
  { destruct (py_in "one_hot_machine_id" l) eqn:E.
    - apply py_remove_filter, Hl.
    - symmetry. apply py_in_false_filter, E. }
  rewrite E1.
  set (l1 := filter _ l).
  assert (Hl1 : NoDup l1) by (apply NoDup_filter_str, Hl).
  assert (E2 : (if py_in "selectable" l1 then py_remove "selectable" l1 else l1)
               = filter (fun a => negb (String.eqb a "selectable")) l1).
  { destruct (py_in "selectable" l1) eqn:E.
    - apply py_remove_filter, Hl1.
    - symmetry. apply py_in_false_filter, E. }
  rewrite E2. unfold l1.
  clear. induction l as [|a l IH]; simpl; [reflexivity|].
  unfold listed_feature at 1.
  destruct (String.eqb a "one_hot_machine_id"); simpl; [exact IH|].
  destruct (String.eqb a "selectable"); simpl; [exact IH|].
  rewrite IH. reflexivity.
Qed.

(** On a list without duplicates, [get_n_features] leaves in the caller's
    list exactly the names other than "one_hot_machine_id" and
    "selectable", and a second call on the list it has updated returns the
    same number and the same list. *)
Theorem get_n_features_ignores_implicit_names (input_list : list String.string)
  (max_n_jobs max_n_machines : Z) :
  NoDup input_list ->
  let r := get_n_features input_list max_n_jobs max_n_machines in
  snd r = filter listed_feature input_list
  /\ get_n_features (snd r) max_n_jobs max_n_machines = r.
Proof.
  intros Hl r.
  assert (Hs : snd r = filter listed_feature input_list).
  { unfold r, get_n_features. cbv zeta. cbn [snd]. apply (cleaned_list Hl). }
  split; [exact Hs|].
  assert (Hc : forall l, NoDup l -> get_n_features l max_n_jobs max_n_machines
            = get_n_features (filter listed_feature l) max_n_jobs max_n_machines).
  { intros l Hn.
    assert (Hg : forall l0, NoDup l0 -> get_n_features l0 max_n_jobs max_n_machines
       = (let l' := filter listed_feature l0 in
          let n := (6 + max_n_machines + 4 * Z.of_nat (length l'))%Z in
          let n := if py_in "one_hot_job_id" l' then (n + (max_n_jobs - 4))%Z else n in
          let n := if py_in "mopnr" l' then (n - 3)%Z else n in (n, l'))).
    { intros l0 H0. unfold get_n_features. cbv zeta.
      pose proof (cleaned_list H0) as C. cbv zeta in C. rewrite C. reflexivity. }
    rewrite (Hg l Hn). rewrite (Hg (filter listed_feature l) (NoDup_filter_str _ Hn)).
    cbv zeta.
    assert (Hff : filter listed_feature (filter listed_feature l) = filter listed_feature l).
    { clear. induction l as [|a l IH]; simpl; [reflexivity|].
      destruct (listed_feature a) eqn:E; simpl; [rewrite E, IH; reflexivity | exact IH]. }
    rewrite Hff. reflexivity. }
  rewrite Hs. rewrite <- (Hc input_list Hl). reflexivity.
Qed.

Lemma get_n_features_ignores_implicit_names_witness :
  let r := get_n_features ["duration"; "selectable"; "mopnr"] 4 3 in
  snd r = filter listed_feature ["duration"; "selectable"; "mopnr"]
  /\ get_n_features (snd r) 4 3 = r.
Proof.
  apply (@get_n_features_ignores_implicit_names ["duration"; "selectable"; "mopnr"] 4 3).
  repeat constructor; simpl; intuition discriminate.
Defined.

Lemma slot_check_ok job machine aff dur :
  slot_check job machine aff dur = Returned tt <-> slot_ok aff dur.
Proof.
  unfold slot_check, slot_ok.
  destruct (Z.eqb_spec aff (-1)) as [E|E]; cbn [negb andb].
  - destruct (existsb (fun v => negb (Qc_eqb v minus_one)) dur) eqn:X.
    + split; [discriminate|]. intros [H _]. specialize (H E).
      apply existsb_exists in X. destruct X as [v [Hv Hn]].
      rewrite Forall_forall in H. pose proof (H v Hv) as Hm. cbv beta in Hm.
      rewrite Hm, Qc_eqb_refl in Hn. simpl in Hn. discriminate Hn.
    + split; [|reflexivity]. intros _. split; [|intros H; contradiction].
      intros _. apply Forall_forall. intros v Hv.
      apply Qc_eqb_eq. destruct (Qc_eqb v minus_one) eqn:Ev; [reflexivity|].
      assert (existsb (fun v => negb (Qc_eqb v minus_one)) dur = true)
        by (apply existsb_exists; exists v; rewrite Ev; split; [exact Hv | reflexivity]).
      rewrite X in H. discriminate H.
  - destruct (existsb (fun v => Qc_eqb v minus_one) (skipn 1 dur)) eqn:X.
    + split; [discriminate|]. intros [_ H]. specialize (H E).
      apply existsb_exists in X. destruct X as [v [Hv Hn]].
      rewrite Forall_forall in H. apply Qc_eqb_eq in Hn. exfalso. exact (H v Hv Hn).
    + split; [|reflexivity]. intros _. split; [intros H; contradiction|].
      intros _. apply Forall_forall. intros v Hv Hn.
      assert (existsb (fun v => Qc_eqb v minus_one) (skipn 1 dur) = true)
        by (apply existsb_exists; exists v; split; [exact Hv | apply Qc_eqb_eq, Hn]).
      rewrite X in H. discriminate H.
Qed.

Lemma outcome_unit (o : outcome unit) : (exists e, o = Raised e) \/ o = Returned tt.
Proof. destruct o as [[]|e]; [right; reflexivity | left; exists e; reflexivity]. Qed.

Lemma check_row_ok job affs : forall durs machine,
  check_row job machine affs durs = Returned tt
  <-> Forall (fun p => slot_ok (fst p) (snd p)) (combine affs durs).
Proof.
  induction affs as [|aff affs IH]; intros durs machine.
  - simpl. split; [constructor | reflexivity].
  - destruct durs as [|dur durs]; simpl.
    + split; [constructor | reflexivity].
    + pose proof (slot_check_ok job machine aff dur) as S.
      destruct (slot_check job machine aff dur) as [[]|e].
      * rewrite IH. split.
        -- intros H. constructor; [apply S; reflexivity | exact H].
        -- intros H. inversion H. assumption.
      * split; [discriminate|]. intros H. inversion H as [|? ? Hs _]; subst.
        apply S in Hs. discriminate.
Qed.

(** [check_sanity] returns without raising exactly when every
    (affectation, durations) slot it visits passes: an unassigned slot
    (affectation [-1]) has only [-1] durations, an assigned slot has no
    [-1] after its first duration. *)
Theorem check_sanity_accepts (affectations : list (list Z)) (durations : list matrix) :
  check_sanity affectations durations = Returned tt
  <-> Forall (fun jb => Forall (fun slot => slot_ok (fst slot) (snd slot))
                               (combine (fst jb) (snd jb)))
             (combine affectations durations).
Proof.
  unfold check_sanity. generalize 0 as job. revert durations.
  induction affectations as [|affs A IH]; intros durations job.
  - simpl. split; [constructor | reflexivity].
  - destruct durations as [|durs D]; simpl.
    + split; [constructor | reflexivity].
    + pose proof (check_row_ok job affs durs 0) as S.
      destruct (check_row job 0 affs durs) as [[]|e].
      * rewrite IH. split.
        -- intros H. constructor; [apply S; reflexivity | exact H].
        -- intros H. inversion H. assumption.
      * split; [discriminate|]. intros H. inversion H as [|? ? Hs _]; subst.
        apply S in Hs. discriminate.
Qed.

Lemma firstn_app_exact {A : Type} (l1 l2 : list A) n :
  length l1 = n -> firstn n (l1 ++ l2) = l1.
Proof.
  intros <-. induction l1 as [|a l1 IH]; simpl; [reflexivity | rewrite IH; reflexivity].
Qed.

Lemma skipn_app_exact {A : Type} (l1 l2 : list A) n :
  length l1 = n -> skipn n (l1 ++ l2) = l2.
Proof.
  intros <-. induction l1 as [|a l1 IH]; simpl; [reflexivity | exact IH].
Qed.

Lemma machine_block_set M b row :
  6 <= length row -> length b = M ->
  machine_block M (set_machine_block M b row) = b.
Proof.
  intros Hr Hb. unfold machine_block, set_machine_block, slice.
  replace (6 + M - 6) with M by lia.
  rewrite skipn_app_exact by (rewrite length_firstn; lia).
  apply firstn_app_exact, Hb.
Qed.

Lemma set_machine_block_outside M b row :
  6 <= length row -> length b = M ->
  firstn 6 (set_machine_block M b row) = firstn 6 row
  /\ skipn (6 + M) (set_machine_block M b row) = skipn (6 + M) row.
Proof.
  intros Hr Hb. unfold set_machine_block. split.
  - apply firstn_app_exact. rewrite length_firstn; lia.
  - rewrite app_assoc. apply skipn_app_exact.
    rewrite length_app, length_firstn. lia.
Qed.

Lemma one_hot_length M k : k < M -> length (one_hot M k) = M.
Proof.
  intros H. unfold one_hot. rewrite length_app. simpl. rewrite !repeat_length. lia.
Qed.

Lemma put_back_row_cases M row row' :
  put_back_row M row = Ok row' ->
  exists m, compact_id row = Ok m
    /\ ((m = (-1)%Z /\ row' = set_machine_block M (repeat minus_one M) row)
        \/ ((0 <= m < Zn M)%Z /\ row' = set_machine_block M (one_hot M (Z.to_nat m)) row)).
Proof.
  unfold put_back_row. intros H.
  apply bind_ok_inv in H as (m & Hm & H). exists m. split; [exact Hm|].
  destruct (Z.eqb_spec m (-1)) as [E|E].
  - left. inversion H. split; [exact E | reflexivity].
  - destruct (Z.ltb_spec m 0) as [N|N]; simpl in H; [discriminate|].
    destruct (Z.leb_spec (Zn M) m) as [G|G]; [discriminate|].
    right. inversion H. split; [lia | reflexivity].
Qed.

Lemma has_columns_inv w features row :
  has_columns w features = true -> In row features -> w <= length row.
Proof.
  unfold has_columns. rewrite forallb_forall. intros H Hrow.
  apply Nat.leb_le. exact (H row Hrow).
Qed.

Lemma put_back_batched_inv features num_nodes M out :
  put_back_one_hot_encoding_batched features num_nodes M = Ok out ->
  0 < M /\ has_columns (6 + M) features = true
  /\ exists head,
    Forall2 (fun r r' => put_back_row M r = Ok r') (firstn num_nodes features) head
    /\ out = head ++ skipn num_nodes features.
Proof.
  unfold put_back_one_hot_encoding_batched. intros H.
  destruct (has_columns 7 features); [|discriminate]. cbn [negb] in H.
  destruct (Nat.eqb_spec M 0) as [E|E]; [discriminate|]. split; [lia|].
  destruct (has_columns (6 + M) features); [|discriminate]. cbn [negb] in H.
  split; [reflexivity|].
  apply bind_ok_inv in H as (head & Hh & H). inversion H. exists head.
  split; [apply mapM_ok_inv, Hh | reflexivity].
Qed.

Lemma put_back_batched_row features num_nodes M out k :
  put_back_one_hot_encoding_batched features num_nodes M = Ok out ->
  k < length features -> k < num_nodes ->
  put_back_row M (nth k features []) = Ok (nth k out []).
Proof.
  intros H Hk Hn. apply put_back_batched_inv in H as (_ & _ & head & F2 & ->).
  assert (Hl : length head = length (firstn num_nodes features))
    by (symmetry; eapply Forall2_length; eauto).
  rewrite length_firstn in Hl.
  rewrite app_nth1 by lia.
  assert (Hk' : k < length (firstn num_nodes features)) by (rewrite length_firstn; lia).
  replace (nth k features []) with (nth k (firstn num_nodes features) []).
  - clear Hl Hk Hn. revert k Hk'.
    induction F2 as [|r r' l l' Hr _ IH]; intros k Hk; simpl in Hk; [lia|].
    destruct k as [|k]; simpl; [exact Hr | apply IH; lia].
  - rewrite <- (firstn_skipn num_nodes features) at 2.
    rewrite app_nth1 by exact Hk'. reflexivity.
Qed.

(** What a returning call did to a selected row, with the width of the
    row. *)
Lemma put_back_row_spec features num_nodes M out k :
  put_back_one_hot_encoding_batched features num_nodes M = Ok out ->
  k < length features -> k < num_nodes ->
  exists m, compact_id (nth k features []) = Ok m
    /\ 6 + M <= length (nth k features [])
    /\ ((m = (-1)%Z
         /\ nth k out [] = set_machine_block M (repeat minus_one M) (nth k features []))
        \/ ((0 <= m < Zn M)%Z
            /\ nth k out []
               = set_machine_block M (one_hot M (Z.to_nat m)) (nth k features []))).
Proof.
  intros H Hk Hn.
  pose proof (put_back_batched_row _ _ H Hk Hn) as R.
  apply put_back_batched_inv in H as (_ & Hw & _).
  apply put_back_row_cases in R as (m & Hm & R).
  exists m. split; [exact Hm|]. split; [|exact R].
  apply (@has_columns_inv (6 + M) features _ Hw). now apply nth_In.
Qed.

(** When [put_back_one_hot_encoding_batched] returns, the tensor has the
    rows it had; a row from [num_nodes] on is unchanged; a row before
    [num_nodes] with compact machine id [m] holds in columns [6 : 6 + M]
    the value [-1.0] [M] times when [m] is [-1], and the one-hot code of
    [m] otherwise (then [0 <= m < M]); its other columns are unchanged. *)
Theorem put_back_batched_blocks (features : matrix) (num_nodes M : nat) (out : matrix) :
  put_back_one_hot_encoding_batched features num_nodes M = Ok out ->
  length out = length features
  /\ forall k, k < length features ->
       let row := nth k features [] in
       let row' := nth k out [] in
       if k <? num_nodes
       then exists m, compact_id row = Ok m
              /\ (m = (-1)%Z \/ (0 <= m < Zn M)%Z)
              /\ machine_block M row'
                 = (if (m =? -1)%Z then repeat minus_one M else one_hot M (Z.to_nat m))
              /\ firstn 6 row' = firstn 6 row
              /\ skipn (6 + M) row' = skipn (6 + M) row
       else row' = row.
Proof.
  intros H. split.
  - apply put_back_batched_inv in H as (_ & _ & head & F2 & ->).
    apply Forall2_length in F2. rewrite length_app, <- F2, <- length_app.
    rewrite firstn_skipn. reflexivity.
  - intros k Hk. cbv zeta. destruct (Nat.ltb_spec k num_nodes) as [L|L].
    + destruct (put_back_row_spec _ _ H Hk L) as (m & Hm & Hw & R).
      exists m. split; [exact Hm|].
      destruct R as [[-> ->] | [Hr ->]].
      * split; [left; reflexivity|]. simpl.
        split; [apply machine_block_set; [lia | apply repeat_length]|].
        apply set_machine_block_outside; [lia | apply repeat_length].
      * split; [right; exact Hr|].
        destruct (Z.eqb_spec m (-1)) as [E|_]; [lia|].
        assert (Hl : length (one_hot M (Z.to_nat m)) = M)
          by (apply one_hot_length; unfold Zn in Hr; lia).
        split; [apply machine_block_set; [lia | exact Hl]|].
        apply set_machine_block_outside; [lia | exact Hl].
    + apply put_back_batched_inv in H as (_ & _ & head & F2 & ->).
      apply Forall2_length in F2. rewrite length_firstn in F2.
      rewrite app_nth2 by lia.
      rewrite <- (firstn_skipn num_nodes features) at 2.
      rewrite app_nth2 by (rewrite length_firstn; lia).
      rewrite length_firstn, <- F2. reflexivity.
Qed.


Lemma put_back_batched_blocks_witness :
  exists out, put_back_one_hot_encoding_batched ex_compact 2 3 = Ok out
  /\ length out = length ex_compact
  /\ forall k, k < length ex_compact ->
       let row := nth k ex_compact [] in
       let row' := nth k out [] in
       if k <? 2
       then exists m, compact_id row = Ok m
              /\ (m = (-1)%Z \/ (0 <= m < Zn 3)%Z)
              /\ machine_block 3 row'
                 = (if (m =? -1)%Z then repeat minus_one 3 else one_hot 3 (Z.to_nat m))
              /\ firstn 6 row' = firstn 6 row
              /\ skipn (6 + 3) row' = skipn (6 + 3) row
       else row' = row.
Proof.
  eexists. split; [vm_compute; reflexivity|].
  apply (@put_back_batched_blocks ex_compact 2 3). vm_compute. reflexivity.
Defined.

Lemma max_from_repeat v n : forall i besti,
  max_from i v besti (repeat v n) = (v, besti).
Proof.
  induction n as [|n IH]; intros i besti; simpl; [reflexivity|].
  assert (E : Qc_ltb v v = false) by (apply Qc_ltb_false, Qcle_refl).
  rewrite E. apply IH.
Qed.

(** Round trip with the extractor: for a row whose compact machine id [m]
    is not [-1], the machine id that [forward] computes from the block
    written by [put_back_one_hot_encoding_batched] is [m]. *)
Theorem put_back_then_machine_id (features : matrix) (num_nodes M : nat)
  (out : matrix) (k : nat) (m : Z) :
  put_back_one_hot_encoding_batched features num_nodes M = Ok out ->
  k < length features -> k < num_nodes ->
  compact_id (nth k features []) = Ok m ->
  m <> (-1)%Z ->
  machineid_of_row M (nth k out []) = Ok m.
Proof.
  intros H Hk Hn Hm Hne.
  destruct (put_back_row_spec _ _ H Hk Hn) as (m' & Hm' & Hw & R).
  rewrite Hm in Hm'. inversion Hm'; subst m'.
  destruct R as [[E _] | [Hr ->]]; [contradiction|].
  assert (Hlt : Z.to_nat m < M) by (unfold Zn in Hr; lia).
  unfold machineid_of_row.
  rewrite machine_block_set by (try lia; apply one_hot_length, Hlt).
  rewrite (torch_max_one_hot Hlt). simpl.
  replace (Qc_eqb 1 0) with false by reflexivity.
  f_equal. lia.
Qed.

Lemma put_back_then_machine_id_witness :
  exists out, put_back_one_hot_encoding_batched ex_compact 2 3 = Ok out
  /\ machineid_of_row 3 (nth 0 out []) = Ok 2%Z.
Proof.
  eexists. split; [vm_compute; reflexivity|].
  apply (@put_back_then_machine_id ex_compact 2 3 _ 0 2%Z);
    [vm_compute; reflexivity | simpl; lia | lia | vm_compute; reflexivity | discriminate].
Defined.

(** For a row whose compact machine id is [-1], the block written by
    [put_back_one_hot_encoding_batched] is [-1.0] [M] times, and the machine
    id that [forward] computes from this block (the argmax, unless the
    maximum is 0) is machine 0, not [-1]. *)
Theorem put_back_unassigned_reads_machine_zero (features : matrix) (num_nodes M : nat)
  (out : matrix) (k : nat) :
  put_back_one_hot_encoding_batched features num_nodes M = Ok out ->
  k < length features -> k < num_nodes ->
  compact_id (nth k features []) = Ok (-1)%Z ->
  machine_block M (nth k out []) = repeat minus_one M
  /\ machineid_of_row M (nth k out []) = Ok 0%Z.
Proof.
  intros H Hk Hn Hm.
  destruct (put_back_row_spec _ _ H Hk Hn) as (m' & Hm' & Hw & R).
  apply put_back_batched_inv in H as (HM & _).
  rewrite Hm in Hm'. inversion Hm'; subst m'.
  destruct R as [[_ ->] | [Hr _]]; [|lia].
  assert (B : machine_block M (set_machine_block M (repeat minus_one M) (nth k features []))
              = repeat minus_one M)
    by (apply machine_block_set; [lia | apply repeat_length]).
  split; [exact B|].
  unfold machineid_of_row. rewrite B.
  destruct M as [|M']; [lia|]. simpl.
  rewrite max_from_repeat. simpl. reflexivity.
Qed.

Lemma put_back_unassigned_reads_machine_zero_witness :
  exists out, put_back_one_hot_encoding_batched ex_compact 2 3 = Ok out
  /\ machine_block 3 (nth 1 out []) = repeat minus_one 3
  /\ machineid_of_row 3 (nth 1 out []) = Ok 0%Z.
Proof.
  eexists. split; [vm_compute; reflexivity|].
  apply (@put_back_unassigned_reads_machine_zero ex_compact 2 3 _ 1);
    [vm_compute; reflexivity | simpl; lia | lia | vm_compute; reflexivity].
Defined.

Lemma mapM_is_ok_iff {A B : Type} (f : A -> result B) l :
  is_ok (mapM f l) = true <-> Forall (fun a => is_ok (f a) = true) l.
Proof.
  induction l as [|a l IH]; simpl.
  - split; [constructor | reflexivity].
  - destruct (f a) as [b|e] eqn:E; simpl.
    + destruct (mapM f l) as [bs|e']; simpl in *.
      * split; [intros _; constructor; [rewrite E; reflexivity | apply IH; reflexivity] | reflexivity].
      * split; [discriminate|]. intros H. inversion H; subst. apply IH. assumption.
    + split; [discriminate|]. intros H. inversion H as [|? ? Ha _]; subst.
      rewrite E in Ha. discriminate.
Qed.

Lemma mapM_put_back_rows M f :
  has_columns 7 f = true -> 0 < M -> has_columns (6 + M) f = true ->
  is_ok (mapM (put_back_row M) f) = true ->
  is_ok (put_back_one_hot_encoding_batched f (length f) M) = true.
Proof.
  intros H7 HM Hw H. unfold put_back_one_hot_encoding_batched.
  rewrite H7, Hw. cbn [negb].
  destruct (Nat.eqb_spec M 0) as [E|_]; [lia|].
  rewrite firstn_all. destruct (mapM (put_back_row M) f); [reflexivity | exact H].
Qed.

(** Whenever [put_back_one_hot_encoding_unbatched] returns, it returns its
    argument unchanged; there is then a machine column, and the batched
    version returns on every element of the batch taken with all its
    nodes. *)
Theorem put_back_unbatched_returns_argument (features out : list matrix) (M : nat) :
  put_back_one_hot_encoding_unbatched features M = Ok out ->
  out = features
  /\ 0 < M
  /\ Forall (fun f => is_ok (put_back_one_hot_encoding_batched f (length f) M) = true)
            features.
Proof.
  unfold put_back_one_hot_encoding_unbatched. intros H.
  destruct (forallb (has_columns 7) features) eqn:H7; [|discriminate]. cbn [negb] in H.
  destruct (Nat.eqb_spec M 0) as [E|E]; [discriminate|].
  destruct (forallb (has_columns (6 + M)) features) eqn:Hw; [|discriminate].
  cbn [negb] in H.
  apply bind_ok_inv in H as (u & Hu & H). inversion H as [Hout]. clear H.
  subst out. split; [reflexivity|]. split; [lia|].
  assert (Hok : is_ok (mapM (mapM (put_back_row M)) features) = true) by now rewrite Hu.
  apply mapM_is_ok_iff in Hok. rewrite forallb_forall in H7, Hw.
  apply Forall_forall. intros f Hf. rewrite Forall_forall in Hok.
  apply mapM_put_back_rows.
  - exact (H7 f Hf).
  - lia.
  - exact (Hw f Hf).
  - exact (Hok f Hf).
Qed.

Lemma put_back_unbatched_returns_argument_witness :
  put_back_one_hot_encoding_unbatched [ex_compact] 3 = Ok [ex_compact]
  /\ 0 < 3
  /\ Forall (fun f => is_ok (put_back_one_hot_encoding_batched f (length f) 3) = true)
            [ex_compact].
Proof.
  split; [vm_compute; reflexivity|].
  destruct (@put_back_unbatched_returns_argument [ex_compact] [ex_compact] 3) as (_ & H);
    [vm_compute; reflexivity | exact H].
Defined.

(** ** Generated problems *)

Lemma insert_key_perm k i l : Permutation ((k, i) :: l) (insert_key k i l).
Proof.
  induction l as [|[k' i'] l IH]; simpl; [apply Permutation_refl|].
  destruct (Qc_ltb k' k); [|apply Permutation_refl].
  eapply Permutation_trans; [apply perm_swap|]. apply perm_skip, IH.
Qed.

Lemma sort_keys_perm l : Permutation l (sort_keys l).
Proof.
  induction l as [|[k i] l IH]; simpl; [apply Permutation_refl|].
  eapply Permutation_trans; [apply perm_skip, IH | apply insert_key_perm].
Qed.

Lemma map_snd_combine_seq {A : Type} (l : list A) : forall s,
  map snd (combine l (seq s (length l))) = seq s (length l).
Proof.
  induction l as [|a l IH]; intros s; simpl; [reflexivity|]. rewrite IH. reflexivity.
Qed.

Lemma argsort_perm keys : Permutation (seq 0 (length keys)) (argsort keys).
Proof.
  unfold argsort. rewrite <- (map_snd_combine_seq keys 0) at 1.
  apply Permutation_map, sort_keys_perm.
Qed.

Lemma map_nth_seq_id (row : list Z) : forall d,
  map (fun j => nth j row d) (seq 0 (length row)) = row.
Proof.
  induction row as [|a row IH]; intros d; simpl; [reflexivity|].
  rewrite <- seq_shift, map_map. simpl. rewrite IH. reflexivity.
Qed.

Lemma permuted_row (row : list Z) (keys : vector) :
  length keys = length row ->
  Permutation row (map (fun j => nth j row 0%Z) (argsort keys)).
Proof.
  intros H. rewrite <- (map_nth_seq_id row 0%Z) at 1. rewrite <- H.
  apply Permutation_map, argsort_perm.
Qed.

Lemma permute_rows_Forall2 (samples : matrix) (x : list (list Z)) :
  Forall2 (fun row keys => length keys = length row) x samples ->
  Forall2 (fun row row' => Permutation row row') x (_permute_rows samples x).
Proof.
  unfold _permute_rows. induction 1 as [|row keys x' samples' Hk _ IH]; simpl.
  - constructor.
  - constructor; [apply permuted_row, Hk | exact IH].
Qed.

(** [_permute_rows] returns as many rows as it is given, and every row of
    the result is a permutation of the row of its argument at the same
    index, whatever the random samples are. *)
Theorem permute_rows_permutes_each_row (samples : matrix) (x : list (list Z)) :
  Forall2 (fun row keys => length keys = length row) x samples ->
  length (_permute_rows samples x) = length x
  /\ forall i, i < length x ->
       Permutation (nth i x []) (nth i (_permute_rows samples x) []).
Proof.
  intros H. apply permute_rows_Forall2 in H.
  pose proof (Forall2_length H) as Hl. split; [symmetry; exact Hl|].
  intros i Hi. revert i Hi. clear Hl.
  induction H as [|r r' l l' Hp _ IH]; intros i Hi; simpl in Hi; [lia|].
  destruct i as [|i]; simpl; [exact Hp | apply IH; lia].
Qed.

Lemma permute_rows_permutes_each_row_witness :
  let samples := [[Q2Qc (3 # 10); Q2Qc (1 # 10); Q2Qc (2 # 10)];
                  [Q2Qc (1 # 2); Q2Qc (1 # 3); Q2Qc (1 # 4)]] in
  let x := [[0; 1; 2]%Z; [0; 1; 2]%Z] in
  length (_permute_rows samples x) = length x
  /\ forall i, i < length x ->
       Permutation (nth i x []) (nth i (_permute_rows samples x) []).
Proof.
  apply (@permute_rows_permutes_each_row
           [[Q2Qc (3 # 10); Q2Qc (1 # 10); Q2Qc (2 # 10)];
            [Q2Qc (1 # 2); Q2Qc (1 # 3); Q2Qc (1 # 4)]]
           [[0; 1; 2]%Z; [0; 1; 2]%Z]).
  repeat constructor.
Defined.

Lemma float_of_int_minus_one d : Q2Qc (inject_Z d) = minus_one -> d = (-1)%Z.
Proof.
  intros H.
  assert (E : (this (Q2Qc (inject_Z d)) == inject_Z d)%Q) by apply Qred_correct.
  rewrite H in E. change (this minus_one) with ((-1) # 1)%Q in E.
  unfold Qeq, inject_Z in E. cbn [Qnum Qden] in E. lia.
Qed.

Lemma check_jobs_ok (affectations : list (list Z)) : forall (durations : list matrix) job,
  Forall (fun jb => Forall (fun slot => slot_ok (fst slot) (snd slot))
                           (combine (fst jb) (snd jb)))
         (combine affectations durations) ->
  check_jobs job affectations durations = Returned tt.
Proof.
  induction affectations as [|affs A IH]; intros durations job H; [reflexivity|].
  destruct durations as [|durs D]; [reflexivity|]. simpl in *.
  inversion H as [|? ? Hrow Hrest]; subst.
  apply (check_row_ok job affs durs 0) in Hrow. rewrite Hrow. apply IH, Hrest.
Qed.

Lemma repeat_Forall2 {A B : Type} (R : A -> B -> Prop) (a : A) (l : list B) :
  Forall (R a) l -> Forall2 R (repeat a (length l)) l.
Proof. induction 1; simpl; constructor; auto. Qed.

(** A problem generated by [generate_deterministic_problem] has one row of
    affectations per job, each a permutation of the machines
    [0 .. n_machines - 1], and passes [check_sanity], whatever the random
    draws are. *)
Theorem generated_problem_is_sane (draws : list (list Z)) (samples : matrix)
  (n_jobs n_machines : nat) (high : Z) :
  draws_okb n_jobs n_machines high draws = true ->
  samples_okb n_jobs n_machines samples = true ->
  let problem := generate_deterministic_problem draws samples n_jobs n_machines in
  length (fst problem) = n_jobs
  /\ Forall (fun row => Permutation (map Z.of_nat (seq 0 n_machines)) row) (fst problem)
  /\ check_sanity (fst problem) (as_floats (snd problem)) = Returned tt.
Proof.
  unfold draws_okb, samples_okb. rewrite !andb_true_iff, !forallb_forall.
  intros [Hdl Hd] [Hsl Hs]. apply Nat.eqb_eq in Hdl, Hsl.
  cbv zeta. unfold generate_deterministic_problem. cbn [fst snd].
  set (machines := map Z.of_nat (seq 0 n_machines)).
  assert (Hshape : Forall2 (fun (row : list Z) (keys : vector) => length keys = length row)
                           (repeat machines n_jobs) samples).
  { rewrite <- Hsl. apply repeat_Forall2. apply Forall_forall. intros keys Hk.
    apply Hs, Nat.eqb_eq in Hk. unfold machines. rewrite length_map, length_seq. exact Hk. }
  pose proof (@permute_rows_Forall2 samples _ Hshape) as Hperm.
  assert (Hrows : Forall (fun row => Permutation machines row)
                         (_permute_rows samples (repeat machines n_jobs))).
  { clear - Hperm. remember (repeat machines n_jobs) as x eqn:Ex.
    assert (Hx : Forall (fun r => r = machines) x).
    { subst x. apply Forall_forall. intros r Hr. apply repeat_spec in Hr. exact Hr. }
    clear Ex. induction Hperm as [|r r' l l' Hp _ IH]; constructor.
    - inversion Hx; subst. exact Hp.
    - apply IH. inversion Hx; assumption. }
  split; [|split; [exact Hrows|]].
  - apply Forall2_length in Hperm. rewrite <- Hperm. apply repeat_length.
  - apply check_jobs_ok. apply Forall_forall. intros [affs durs] Hin.
    cbn [fst snd]. apply Forall_forall. intros [aff dur] Hslot. cbn [fst snd].
    pose proof (in_combine_l _ _ _ _ Hin) as Haffs.
    pose proof (in_combine_r _ _ _ _ Hin) as Hdurs.
    pose proof (in_combine_l _ _ _ _ Hslot) as Haff.
    pose proof (in_combine_r _ _ _ _ Hslot) as Hdur.
    rewrite Forall_forall in Hrows. specialize (Hrows _ Haffs).
    assert (Hnn : (0 <= aff)%Z).
    { apply Permutation_sym in Hrows.
      apply (Permutation_in _ Hrows) in Haff.
      unfold machines in Haff. apply in_map_iff in Haff as (k & <- & _). lia. }
    unfold as_floats in Hdurs.
    apply in_map_iff in Hdurs as (drow & <- & Hdrow).
    apply in_map_iff in Hdur as (dslot & <- & Hdslot).
    apply in_map_iff in Hdrow as (draw_row & <- & Hdraw).
    apply in_map_iff in Hdslot as (d & <- & Hdin).
    apply Hd in Hdraw. apply andb_true_iff in Hdraw as [_ Hrange].
    rewrite forallb_forall in Hrange. specialize (Hrange _ Hdin).
    apply andb_true_iff in Hrange as [Hlo _]. apply Z.leb_le in Hlo.
    split; [intros E; lia|]. intros _.
    apply Forall_forall. intros v Hv. apply In_skipn_incl in Hv.
    apply in_map_iff in Hv as (d' & <- & Hd').
    apply repeat_spec in Hd'. subst d'.
    intros E. apply float_of_int_minus_one in E. lia.
Qed.

Lemma generated_problem_is_sane_witness :
  let problem :=
    generate_deterministic_problem
      [[3; 5]%Z; [2; 7]%Z]
      [[Q2Qc (1 # 2); Q2Qc (1 # 3)]; [Q2Qc (1 # 4); Q2Qc (1 # 2)]] 2 2 in
  length (fst problem) = 2
  /\ Forall (fun row => Permutation (map Z.of_nat (seq 0 2)) row) (fst problem)
  /\ check_sanity (fst problem) (as_floats (snd problem)) = Returned tt.
Proof.
  apply (@generated_problem_is_sane
           [[3; 5]%Z; [2; 7]%Z]
           [[Q2Qc (1 # 2); Q2Qc (1 # 3)]; [Q2Qc (1 # 4); Q2Qc (1 # 2)]] 2 2 10%Z);
    reflexivity.
Defined.

Lemma permuted_machines_nonneg samples n_jobs n_machines :
  samples_okb n_jobs n_machines samples = true ->
  Forall (Forall (fun aff => (0 <= aff)%Z))
         (_permute_rows samples (repeat (map Z.of_nat (seq 0 n_machines)) n_jobs)).
Proof.
  unfold samples_okb. rewrite andb_true_iff, forallb_forall.
  intros [Hsl Hs]. apply Nat.eqb_eq in Hsl.
  set (machines := map Z.of_nat (seq 0 n_machines)).
  assert (Hshape : Forall2 (fun (row : list Z) (keys : vector) => length keys = length row)
                           (repeat machines n_jobs) samples).
  { rewrite <- Hsl. apply repeat_Forall2. apply Forall_forall. intros keys Hk.
    apply Hs, Nat.eqb_eq in Hk. unfold machines. rewrite length_map, length_seq. exact Hk. }
  pose proof (@permute_rows_Forall2 samples _ Hshape) as Hperm.
  remember (repeat machines n_jobs) as x eqn:Ex.
  assert (Hx : Forall (fun r => r = machines) x).
  { subst x. apply Forall_forall. intros r Hr. apply repeat_spec in Hr. exact Hr. }
  clear Ex Hshape. induction Hperm as [|r r' l l' Hp _ IH]; constructor.
  - inversion Hx; subst. apply Forall_forall. intros aff Ha.
    apply Permutation_sym in Hp. apply (Permutation_in _ Hp) in Ha.
    unfold machines in Ha. apply in_map_iff in Ha as (k & <- & _). lia.
  - apply IH. inversion Hx; assumption.
Qed.

Lemma check_row_assigned job : forall affs durs machine,
  Forall (fun aff => (0 <= aff)%Z) affs ->
  Forall (fun dur => Forall (fun v => v <> minus_one) (skipn 1 dur)) durs ->
  check_row job machine affs durs = Returned tt.
Proof.
  induction affs as [|aff affs IH]; intros durs machine Ha Hd; [reflexivity|].
  destruct durs as [|dur durs]; [reflexivity|]. simpl.
  inversion Ha as [|? ? Ha1 Ha2]; subst. inversion Hd as [|? ? Hd1 Hd2]; subst.
  assert (S : slot_check job machine aff dur = Returned tt).
  { apply slot_check_ok. split; [intros E; lia | intros _; exact Hd1]. }
  rewrite S. apply IH; assumption.
Qed.

Lemma check_jobs_assigned (rows : list (list Z)) : forall durations job,
  Forall (Forall (fun aff => (0 <= aff)%Z)) rows ->
  Forall (Forall (fun dur => Forall (fun v => v <> minus_one) (skipn 1 dur))) durations ->
  check_jobs job rows durations = Returned tt.
Proof.
  induction rows as [|affs A IH]; intros durations job Ha Hd; [reflexivity|].
  destruct durations as [|durs D]; [reflexivity|]. simpl.
  inversion Ha as [|? ? Ha1 Ha2]; subst. inversion Hd as [|? ? Hd1 Hd2]; subst.
  rewrite (@check_row_assigned job affs durs 0 Ha1 Hd1). apply IH; assumption.
Qed.

Lemma wrap32_small z : (- 2 ^ 31 <= z < 2 ^ 31)%Z -> wrap32 z = z.
Proof.
  intros H. unfold wrap32. rewrite Z.mod_small by lia. lia.
Qed.

(** Whatever the random draws are, as long as the modes are at least 1,
    the two offsets are at least 1 (as [randint(1, ...)] draws them), and
    the draws and the sum of the mode and the right offset are within the
    32 bits of the array (at most [2 ^ 31 - 1]), every slot generated by
    [generate_problem_distrib] satisfies [1 <= left <= mode < right], and
    the problem passes [check_sanity] although the real durations (entry 0)
    are left uninitialized. *)
Theorem generated_distribution_is_triangular
  (uninitialized modes dd_left dd_right : nat -> nat -> Z) (samples : matrix)
  (n_jobs n_machines : nat) :
  (forall j m, j < n_jobs -> m < n_machines -> (1 <= modes j m)%Z) ->
  (forall j m, j < n_jobs -> m < n_machines -> (1 <= dd_left j m <= 2 ^ 31 - 1)%Z) ->
  (forall j m, j < n_jobs -> m < n_machines -> (1 <= dd_right j m)%Z) ->
  (forall j m, j < n_jobs -> m < n_machines ->
               (modes j m + dd_right j m <= 2 ^ 31 - 1)%Z) ->
  samples_okb n_jobs n_machines samples = true ->
  let problem := generate_problem_distrib uninitialized modes dd_left dd_right samples
                                          n_jobs n_machines in
  Forall (Forall triangular_slot) (snd problem)
  /\ check_sanity (fst problem) (as_floats (snd problem)) = Returned tt.
Proof.
  intros Hm Hl Hr Hsum Hs. cbv zeta. unfold generate_problem_distrib. cbn [fst snd].
  assert (Hslots : Forall (Forall triangular_slot)
            (map (fun j => map (fun m =>
                    [wrap32 (uninitialized j m);
                     wrap32 (Z.max 1 (wrap32 (wrap32 (modes j m) - dd_left j m)));
                     wrap32 (wrap32 (modes j m) + dd_right j m);
                     wrap32 (modes j m)])
                  (seq 0 n_machines)) (seq 0 n_jobs))).
  { apply Forall_forall. intros row Hrow.
    apply in_map_iff in Hrow as (j & <- & Hj). apply in_seq in Hj.
    apply Forall_forall. intros slot Hslot.
    apply in_map_iff in Hslot as (m & <- & Hmm). apply in_seq in Hmm.
    specialize (Hm j m). specialize (Hl j m). specialize (Hr j m).
    specialize (Hsum j m).
    rewrite (wrap32_small (z := modes j m)) by lia.
    rewrite (wrap32_small (z := modes j m - dd_left j m)) by lia.
    rewrite (wrap32_small (z := Z.max 1 (modes j m - dd_left j m))) by lia.
    rewrite (wrap32_small (z := modes j m + dd_right j m)) by lia.
    do 4 eexists. split; [reflexivity|]. lia. }
  split; [exact Hslots|].
  apply check_jobs_assigned.
  - apply permuted_machines_nonneg, Hs.
  - unfold as_floats. apply Forall_forall. intros frow Hfrow.
    apply in_map_iff in Hfrow as (row & <- & Hrow).
    apply Forall_forall. intros fslot Hfslot.
    apply in_map_iff in Hfslot as (slot & <- & Hslot).
    rewrite Forall_forall in Hslots. specialize (Hslots _ Hrow).
    rewrite Forall_forall in Hslots. specialize (Hslots _ Hslot).
    destruct Hslots as (real & left & right & mode & -> & H1 & H2 & H3).
    cbn [map skipn].
    repeat constructor; intros E; apply float_of_int_minus_one in E; lia.
Qed.

Lemma generated_distribution_is_triangular_witness :
  let problem :=
    generate_problem_distrib (fun j m => (-1)%Z) (fun j m => Z.of_nat (j + m + 1))
      (fun j m => 2%Z) (fun j m => 3%Z)
      [[Q2Qc (1 # 2); Q2Qc (1 # 3)]; [Q2Qc (1 # 4); Q2Qc (1 # 2)]] 2 2 in
  Forall (Forall triangular_slot) (snd problem)
  /\ check_sanity (fst problem) (as_floats (snd problem)) = Returned tt.
Proof.
  apply (@generated_distribution_is_triangular
           (fun j m => (-1)%Z) (fun j m => Z.of_nat (j + m + 1))
           (fun j m => 2%Z) (fun j m => 3%Z)
           [[Q2Qc (1 # 2); Q2Qc (1 # 3)]; [Q2Qc (1 # 4); Q2Qc (1 # 2)]] 2 2);
    first [reflexivity | intros; lia].
Defined.

(** Beyond 32 bits the sum wraps around: a mode of [2 ^ 31 - 1] with a
    right offset of 1 gives a right value of [- 2 ^ 31], below the mode. *)
Example generated_right_value_wraps :
  snd (generate_problem_distrib (fun j m => 0%Z) (fun j m => (2 ^ 31 - 1)%Z)
         (fun j m => 1%Z) (fun j m => 1%Z) [[0%Qc]] 1 1)
  = [[[0; 2147483646; -2147483648; 2147483647]%Z]].
Proof. vm_compute. reflexivity. Qed.

(** * Further properties of the augmented graph *)

(** ** Index ranges *)

Lemma max_from_index r : forall i best besti,
  snd (max_from i best besti r) = besti
  \/ i <= snd (max_from i best besti r) < i + length r.
Proof.
  induction r as [|v r IH]; intros i best besti; simpl; [left; reflexivity|].
  destruct (Qc_ltb best v).
  - right. destruct (IH (S i) v i) as [E|E]; lia.
  - destruct (IH (S i) best besti) as [E|E]; [left; exact E | right; lia].
Qed.

Lemma torch_max_index b v k : torch_max b = Ok (v, k) -> k < length b.
Proof.
  destruct b as [|u b]; simpl; [discriminate|]. intros H.
  pose proof (max_from_index b 1 u 0) as I.
  inversion H as [E]. rewrite E in I. simpl in I. lia.
Qed.

Lemma argmax_lt b : b <> [] -> argmax b < length b.
Proof.
  destruct b as [|u b]; [congruence|]. intros _. simpl.
  pose proof (max_from_index b 1 u 0) as I. lia.
Qed.

Lemma machine_block_length M row : length (machine_block M row) <= M.
Proof.
  unfold machine_block, slice. rewrite length_firstn. lia.
Qed.

Lemma machineid_of_row_upper M row m :
  machineid_of_row M row = Ok m -> (m < Zn M)%Z.
Proof.
  unfold machineid_of_row. intros H.
  apply bind_ok_inv in H as ([v i] & Hmax & H).
  apply torch_max_index in Hmax.
  pose proof (machine_block_length M row).
  destruct (Qc_eqb v 0); inversion H; unfold Zn; lia.
Qed.

Lemma machine_ids_upper M f ms :
  machine_ids M f = Ok ms -> Forall (fun m => (m < Zn M)%Z) ms.
Proof.
  unfold machine_ids. destruct (M =? 0); [discriminate|]. intros H.
  eapply mapM_Forall_out; [exact H|].
  intros row m _. apply machineid_of_row_upper.
Qed.

Lemma nth_upper_default M ms i :
  Forall (fun m => (m < Zn M)%Z) ms -> (nth i ms (-1) < Zn M)%Z.
Proof.
  intros H. destruct (Nat.lt_ge_cases i (length ms)) as [Hi|Hi].
  - rewrite Forall_forall in H. apply H, nth_In, Hi.
  - rewrite nth_overflow by exact Hi. unfold Zn. lia.
Qed.

Lemma graph_range_inv p n bi lo hi :
  graph_range p n bi = Ok (lo, hi) ->
  ptr_at p bi = Ok lo /\ ptr_at p (S bi) = Ok hi /\ lo <= hi <= n.
Proof.
  unfold graph_range. intros H.
  apply bind_ok_inv in H as (lo' & Hlo & H).
  apply bind_ok_inv in H as (hi' & Hhi & H).
  destruct (Nat.leb_spec lo' hi'); simpl in H; [|discriminate].
  destruct (Nat.leb_spec hi' n); simpl in H; [|discriminate].
  inversion H; subst. auto.
Qed.

Lemma clique_highmem_within M features nnodes b new :
  clique_highmem M features nnodes b = Ok new ->
  Forall (edge_within nnodes 3 (3 + Zn M)) new.
Proof.
  unfold clique_highmem. intros H.
  apply bind_ok_inv in H as (machineid & Hm & H).
  apply bind_ok_inv in H as (aff & _ & H).
  destruct (negb (length b =? nnodes)); [discriminate|].
  inversion H; subst; clear H.
  pose proof (machine_ids_range _ _ Hm) as Hr.
  pose proof (machine_ids_upper _ _ Hm) as Hu.
  apply Forall_forall. intros e He.
  apply in_map_iff in He as ([i j] & <- & Hin).
  apply in_nonzero2 in Hin as (Hi & Hj & Hc).
  unfold clique_cond_batch in Hc.
  repeat (apply andb_true_iff in Hc as [Hc _]).
  apply (clique_match_affected _ _ Hr) in Hc.
  pose proof (@nth_upper_default M _ i Hu).
  unfold edge_within, src, tgt, code, Zn in *; cbn [fst snd]. lia.
Qed.

Lemma clique_of_graph_within M features lo hi new :
  lo <= hi ->
  clique_of_graph M features lo hi = Ok new ->
  Forall (edge_within hi 3 (3 + Zn M)) new.
Proof.
  unfold clique_of_graph. intros Hlh H.
  apply bind_ok_inv in H as (machineid & Hm & H).
  apply bind_ok_inv in H as (aff & _ & H).
  inversion H; subst; clear H.
  pose proof (machine_ids_range _ _ Hm) as Hr.
  pose proof (machine_ids_upper _ _ Hm) as Hu.
  apply Forall_forall. intros e He.
  apply in_map_iff in He as ([i j] & <- & Hin).
  apply in_nonzero2 in Hin as (Hi & Hj & Hc).
  unfold clique_cond in Hc.
  repeat (apply andb_true_iff in Hc as [Hc _]).
  apply (clique_match_affected _ _ Hr) in Hc.
  pose proof (@nth_upper_default M _ i Hu).
  unfold edge_within, src, tgt, code, Zn in *; cbn [fst snd]. lia.
Qed.

Lemma edge_within_mono rows rows' lo hi e :
  rows <= rows' -> edge_within rows lo hi e -> edge_within rows' lo hi e.
Proof. unfold edge_within, Zn. intros H (H1 & H2 & H3). lia. Qed.

Lemma clique_mediummem_within M features p n_batch new :
  clique_mediummem M features p n_batch = Ok new ->
  Forall (edge_within (length features) 3 (3 + Zn M)) new.
Proof.
  unfold clique_mediummem. intros H.
  apply bind_ok_inv in H as (per_graph & Hpg & H).
  inversion H; subst; clear H.
  apply Forall_concat.
  eapply mapM_Forall_out; [exact Hpg|].
  intros bi es _ Hes.
  apply bind_ok_inv in Hes as ([lo hi] & Hr & Hes).
  apply graph_range_inv in Hr as (_ & _ & Hr).
  eapply Forall_impl; [|exact (@clique_of_graph_within _ _ _ _ _ (proj1 Hr) Hes)].
  intros e. apply edge_within_mono. lia.
Qed.

Lemma lowmem_inner_within M machinecpu aff ni1 hi :
  Forall (fun b => length b <= M) machinecpu ->
  Forall (edge_within hi 3 (3 + Zn M)) (lowmem_inner machinecpu aff ni1 hi).
Proof.
  intros Hb. unfold lowmem_inner.
  destruct (all_zero (nth ni1 machinecpu [])) eqn:Z1; [constructor|].
  assert (Hne : nth ni1 machinecpu [] <> []) by (intros E; rewrite E in Z1; discriminate).
  pose proof (argmax_lt Hne) as Ha.
  assert (Hl : length (nth ni1 machinecpu []) <= M).
  { destruct (Nat.lt_ge_cases ni1 (length machinecpu)) as [Hi|Hi].
    - rewrite Forall_forall in Hb. apply Hb, nth_In, Hi.
    - rewrite nth_overflow by exact Hi. simpl. lia. }
  apply Forall_forall. intros e He.
  apply in_flat_map in He as (ni2 & Hin & He). apply in_seq in Hin.
  destruct (all_zero (nth ni2 machinecpu [])); [contradiction|].
  destruct (vector_eqb _ _ && _); [|contradiction].
  destruct He as [<-|[<-|[]]]; unfold edge_within, src, tgt, code, Zn; cbn [fst snd]; lia.
Qed.

Lemma clique_lowmem_within M features nnodes p n_batch new :
  clique_lowmem M features nnodes p n_batch = Ok new ->
  Forall (edge_within nnodes 3 (3 + Zn M)) new.
Proof.
  unfold clique_lowmem. intros H.
  apply bind_ok_inv in H as (aff & _ & H).
  apply bind_ok_inv in H as (per_graph & Hpg & H).
  inversion H; subst; clear H.
  apply Forall_concat.
  eapply mapM_Forall_out; [exact Hpg|].
  intros bi es _ Hes.
  apply bind_ok_inv in Hes as ([lo hi] & Hr & Hes).
  apply graph_range_inv in Hr as (_ & _ & Hr).
  inversion Hes; subst; clear Hes.
  apply Forall_forall. intros e He.
  apply in_flat_map in He as (ni1 & _ & He).
  assert (Hb : Forall (fun b => length b <= M)
                      (map (machine_block M) (firstn nnodes features))).
  { apply Forall_forall. intros b Hin. apply in_map_iff in Hin as (row & <- & _).
    apply machine_block_length. }
  pose proof (@lowmem_inner_within M _ aff ni1 hi Hb) as Hf.
  rewrite Forall_forall in Hf.
  apply (@edge_within_mono hi); [lia | auto].
Qed.

(** The hubs of the machine-node mode. *)
Lemma node_conflict_edges_inv M features nnodes node_offset b new :
  node_conflict_edges M features nnodes node_offset b = Ok new ->
  exists machineid hubs,
    machine_ids M (firstn nnodes features) = Ok machineid
    /\ mapM (hub_of M node_offset machineid b) (idxaffected_of machineid) = Ok hubs
    /\ new = map (fun h => let '(i, m, t) := h in (i, t, (m + 3)%Z)) hubs
             ++ map (fun h => let '(i, m, t) := h in (t, i, (m + 3 + Zn M)%Z)) hubs.
Proof.
  unfold node_conflict_edges. intros H.
  apply bind_ok_inv in H as (machineid & Hm & H).
  apply bind_ok_inv in H as (hubs & Hh & H).
  inversion H; subst; clear H. eauto.
Qed.

Lemma hub_of_inv M node_offset machineid b i h :
  hub_of M node_offset machineid b i = Ok h ->
  exists bid, nth_error b i = Some bid
    /\ h = (Zn i, nth i machineid (-1)%Z,
            (Zn bid * Zn M + nth i machineid (-1)%Z + Zn node_offset)%Z).
Proof.
  unfold hub_of. destruct (nth_error b i) as [bid|]; [|discriminate].
  intros H. inversion H. eauto.
Qed.

Lemma node_hubs_spec M features nnodes node_offset b machineid hubs :
  machine_ids M (firstn nnodes features) = Ok machineid ->
  mapM (hub_of M node_offset machineid b) (idxaffected_of machineid) = Ok hubs ->
  Forall (fun h => exists i bid,
            i < nnodes /\ i < length features /\ nth_error b i = Some bid
            /\ (0 <= nth i machineid (-1) < Zn M)%Z
            /\ h = (Zn i, nth i machineid (-1)%Z,
                    (Zn bid * Zn M + nth i machineid (-1)%Z + Zn node_offset)%Z))
         hubs.
Proof.
  intros Hm Hh.
  pose proof (machine_ids_range _ _ Hm) as Hr.
  pose proof (machine_ids_upper _ _ Hm) as Hu.
  pose proof (machine_ids_length _ _ Hm) as Hl. rewrite length_firstn in Hl.
  eapply mapM_Forall_out; [exact Hh|].
  intros i h Hin Hih.
  apply hub_of_inv in Hih as (bid & Hb & ->).
  apply in_nonzero1 in Hin as [Hi Hne].
  apply negb_true_iff, Z.eqb_neq in Hne.
  pose proof (nth_range_default i Hr). pose proof (@nth_upper_default M _ i Hu).
  exists i, bid. repeat split; try lia; assumption.
Qed.

Lemma node_conflict_edges_code_range M features nnodes node_offset b new :
  node_conflict_edges M features nnodes node_offset b = Ok new ->
  Forall (fun e => (3 <= code e < 3 + Zn (M * 2))%Z) new.
Proof.
  intros H. apply node_conflict_edges_inv in H as (machineid & hubs & Hm & Hh & ->).
  pose proof (@node_hubs_spec _ _ _ _ _ _ _ Hm Hh) as Hs.
  rewrite Forall_forall in Hs.
  apply Forall_app; split; apply Forall_forall; intros e He;
    apply in_map_iff in He as (h & <- & Hin);
    destruct (Hs _ Hin) as (i & bid & _ & _ & _ & Hr & ->);
    unfold code, Zn in *; cbn [fst snd]; lia.
Qed.

Lemma node_conflict_edges_within M features nnodes node_offset b nb new :
  Forall (fun bid => bid < nb) b ->
  nnodes <= node_offset ->
  node_conflict_edges M features nnodes node_offset b = Ok new ->
  Forall (edge_within (node_offset + nb * M) 3 (3 + Zn (M * 2))) new.
Proof.
  intros Hb Hoff H.
  apply node_conflict_edges_inv in H as (machineid & hubs & Hm & Hh & ->).
  pose proof (@node_hubs_spec _ _ _ _ _ _ _ Hm Hh) as Hs.
  rewrite Forall_forall in Hs. rewrite Forall_forall in Hb.
  apply Forall_app; split; apply Forall_forall; intros e He;
    apply in_map_iff in He as (h & <- & Hin);
    destruct (Hs _ Hin) as (i & bid & Hi & _ & Hbid & Hr & ->);
    apply nth_error_In in Hbid; apply Hb in Hbid;
    unfold edge_within, src, tgt, code, Zn in *; cbn [fst snd]; nia.
Qed.

Lemma pool_stage_inv fe g f es bid off :
  pool_stage fe g = Ok (f, es, bid, off) ->
  exists pool,
    (if streq (graph_pooling fe) "learn"
     then pooling_edges (reverse_adj fe) (ptr g) (length (x g)) (num_graphs g) = Ok pool
     else pool = [])
    /\ f = x g ++ (if streq (graph_pooling fe) "learn"
                   then zeros (num_graphs g) (width (x g)) else [])
    /\ es = map (fun c => (fst c, snd c, 1%Z)) (edge_index g) ++ pool
    /\ bid = batch g ++ (if streq (graph_pooling fe) "learn"
                         then seq 0 (num_graphs g) else [])
    /\ off = length f.
Proof.
  unfold pool_stage. destruct (streq (graph_pooling fe) "learn").
  - intros H. apply bind_ok_inv in H as (new & Hnew & H).
    inversion H; subst; clear H. exists new. repeat split; auto.
    rewrite length_app. unfold zeros. rewrite repeat_length. reflexivity.
  - intros H. inversion H; subst; clear H. exists [].
    rewrite !app_nil_r. repeat split; auto.
Qed.

Lemma augment_inv fe g a :
  augment fe g = Ok a ->
  exists f es bid off new,
    pool_stage fe g = Ok (f, es, bid, off)
    /\ conflict_edges fe f g off = Ok new
    /\ aug_edges a = (if negb (reverse_adj fe) then map swap_edge (es ++ new)
                      else es ++ new)
    /\ aug_features a
       = (if streq (conflicts fe) "node"
          then map (zero_machine_block (max_n_machines fe))
                   (f ++ zeros (num_graphs g * max_n_machines fe) (width f))
          else f)
    /\ aug_batch_id a
       = (if streq (conflicts fe) "node"
          then bid ++ flat_map (fun i => repeat i (max_n_machines fe)) (seq 0 (num_graphs g))
          else bid).
Proof.
  unfold augment. intros Ha.
  apply bind_ok_inv in Ha as ([[[f es] bid] off] & Hpool & Ha).
  apply bind_ok_inv in Ha as (new & Hnew & Ha).
  exists f, es, bid, off, new.
  destruct (streq (conflicts fe) "node"); inversion Ha; repeat split; auto.
Qed.

Lemma pooling_edges_In r p off n pool e :
  pooling_edges r p off n = Ok pool -> In e pool ->
  exists i k lo hi, i < n /\ ptr_at p i = Ok lo /\ ptr_at p (S i) = Ok hi
    /\ lo <= k < hi
    /\ e = (if negb r then (Zn (off + i), Zn k, 2%Z) else (Zn k, Zn (off + i), 2%Z)).
Proof.
  unfold pooling_edges. intros H Hin.
  apply bind_ok_inv in H as (per_graph & Hpg & H).
  inversion H; subst; clear H.
  apply in_concat in Hin as (l & Hl & Hin).
  apply mapM_ok_inv in Hpg.
  assert (G : exists i, In i (seq 0 n) /\
     (lo <- ptr_at p i ;; hi <- ptr_at p (S i) ;;
      Ok (pooling_edges_of_graph r off i lo hi)) = Ok l).
  { clear Hin. induction Hpg as [|i l' il ls Hi _ IH]; [contradiction|].
    destruct Hl as [->|Hl].
    - exists i. split; [left; reflexivity | exact Hi].
    - destruct (IH Hl) as (i' & Hi' & E). exists i'. split; [right; exact Hi' | exact E]. }
  destruct G as (i & Hi & E). apply in_seq in Hi.
  apply bind_ok_inv in E as (lo & Hlo & E).
  apply bind_ok_inv in E as (hi & Hhi & E).
  inversion E; subst; clear E.
  unfold pooling_edges_of_graph in Hin.
  apply in_map_iff in Hin as (k & <- & Hk). apply in_seq in Hk.
  exists i, k, lo, hi. repeat split; try lia; assumption.
Qed.

Lemma code_swap_edge e : code (swap_edge e) = code e.
Proof. reflexivity. Qed.

Lemma conflict_edges_code_range fe f g off new :
  conflict_edges fe f g off = Ok new ->
  Forall (fun e => (3 <= code e < 3 + Zn (nmachineid_of fe))%Z) new.
Proof.
  unfold conflict_edges, nmachineid_of. intros Hc.
  destruct (streq (conflicts fe) "clique").
  - assert (W : exists n, Forall (edge_within n 3 (3 + Zn (max_n_machines fe))) new).
    { destruct (highmem_conflict_clique fe).
      - eexists. exact (clique_highmem_within _ _ _ _ Hc).
      - destruct (mediummem_conflict_clique fe).
        + eexists. exact (clique_mediummem_within _ _ _ _ Hc).
        + eexists. exact (clique_lowmem_within _ _ _ _ _ Hc). }
    destruct W as (n & W). eapply Forall_impl; [|exact W].
    intros e (_ & _ & H). exact H.
  - destruct (streq (conflicts fe) "node").
    + exact (node_conflict_edges_code_range _ _ _ _ _ Hc).
    + inversion Hc. constructor.
Qed.

Lemma pool_stage_codes fe g f es bid off :
  pool_stage fe g = Ok (f, es, bid, off) ->
  Forall (fun e => code e = 1%Z \/ code e = 2%Z) es.
Proof.
  intros H. apply pool_stage_inv in H as (pool & Hpool & _ & -> & _).
  apply Forall_app. split.
  - apply Forall_forall. intros e He. apply in_map_iff in He as (c & <- & _).
    left. reflexivity.
  - apply Forall_forall. intros e He.
    destruct (streq (graph_pooling fe) "learn"); [|subst; contradiction].
    destruct (@pooling_edges_In _ _ _ _ _ _ Hpool He) as (i & k & lo & hi & _ & _ & _ & _ & ->).
    right. destruct (negb (reverse_adj fe)); reflexivity.
Qed.

Lemma augment_code_range fe g a :
  augment fe g = Ok a ->
  Forall (fun e => (1 <= code e < 3 + Zn (nmachineid_of fe))%Z) (aug_edges a).
Proof.
  intros H. apply augment_inv in H as (f & es & bid & off & new & Hp & Hc & -> & _).
  assert (R : Forall (fun e => (1 <= code e < 3 + Zn (nmachineid_of fe))%Z) (es ++ new)).
  { apply Forall_app. split.
    - eapply Forall_impl; [|exact (pool_stage_codes _ _ Hp)].
      intros e [E|E]; rewrite E; unfold Zn; lia.
    - eapply Forall_impl; [|exact (conflict_edges_code_range _ _ _ _ Hc)].
      intros e E. cbv beta in E. lia. }
  destruct (negb (reverse_adj fe)); [|exact R].
  apply Forall_forall. intros e He. apply in_map_iff in He as (e' & <- & He').
  rewrite code_swap_edge. rewrite Forall_forall in R. auto.
Qed.

Lemma init_inv a fe :
  init a = Ok fe ->
  conflicts fe = arg_conflicts a
  /\ max_n_machines fe = arg_max_n_machines a
  /\ n_layers_features_extractor fe = arg_n_layers_features_extractor a
  /\ edge_embedder fe
     = repeat (Embedding (if streq (arg_conflicts a) "clique" || streq (arg_conflicts a) "node"
                          then 5 + nmachineid_of fe + 1 else 5)
                         (if streq (arg_gconv_type a) "gcn2" then 1
                          else arg_hidden_dim_features_extractor a))
              (arg_n_layers_features_extractor a).
Proof.
  unfold init. intros H. apply bind_ok_inv in H as (layers & _ & H).
  inversion H; subst; clear H. unfold nmachineid_of. cbn.
  repeat split.
  destruct (streq (arg_conflicts a) "clique" || streq (arg_conflicts a) "node"); reflexivity.
Qed.

(** Every edge type code of the augmented graph is an index of the edge
    embedding tables that [__init__] builds for the same conflict mode and
    number of machines, whichever clique strategy is selected. *)
Theorem edge_codes_fit_embedding (a : Args) (fe : FeaturesExtractor)
  (highmem mediummem : bool) (g : GraphBatch) (aug : Augmented) :
  init a = Ok fe ->
  augment (with_strategy fe highmem mediummem) g = Ok aug ->
  Forall (fun emb =>
            Forall (fun e => (0 <= code e < Zn (num_embeddings_of emb))%Z) (aug_edges aug))
         (edge_embedder fe).
Proof.
  intros Hi Ha. apply init_inv in Hi as (Hc & _ & _ & He).
  apply augment_code_range in Ha.
  assert (N : nmachineid_of (with_strategy fe highmem mediummem) = nmachineid_of fe)
    by reflexivity.
  rewrite N in Ha. rewrite He.
  apply Forall_forall. intros emb Hin. apply repeat_spec in Hin. subst emb.
  cbn [num_embeddings_of].
  eapply Forall_impl; [|exact Ha]. intros e E. cbv beta in E.
  unfold nmachineid_of in *. rewrite Hc in *.
  destruct (streq (arg_conflicts a) "clique"); simpl; unfold Zn in *; [lia|].
  destruct (streq (arg_conflicts a) "node"); simpl; unfold Zn in *; lia.
Qed.

Lemma wf_batch_bound g :
  wf_graphb g = true -> Forall (fun b => b < num_graphs g) (batch g).
Proof.
  intros Hwf. apply wf_graphb_inv in Hwf as (_ & _ & _ & Hl & Hn).
  apply Forall_forall. intros b Hb.
  apply (In_nth _ _ 0) in Hb as (k & Hk & <-). apply Hn. lia.
Qed.

Lemma augment_rows fe g a :
  augment fe g = Ok a -> length (aug_features a) = augmented_rows fe g.
Proof.
  intros H. apply augment_inv in H as (f & es & bid & off & new & Hp & _ & _ & -> & _).
  apply pool_stage_inv in Hp as (pool & _ & -> & _).
  unfold augmented_rows.
  destruct (streq (conflicts fe) "node").
  - rewrite length_map, !length_app. unfold zeros. rewrite !repeat_length.
    destruct (streq (graph_pooling fe) "learn"); simpl; rewrite ?repeat_length; lia.
  - rewrite length_app.
    destruct (streq (graph_pooling fe) "learn"); simpl; unfold zeros;
      rewrite ?repeat_length; lia.
Qed.

Lemma ptr_at_inv p i v : ptr_at p i = Ok v -> i < length p /\ v = nth i p 0.
Proof.
  unfold ptr_at. destruct (nth_error p i) as [u|] eqn:E; [|discriminate].
  intros H. inversion H; subst. split.
  - apply nth_error_Some. congruence.
  - symmetry. apply nth_error_nth, E.
Qed.

Lemma conflict_edges_within fe f g off new :
  wf_graphb g = true ->
  length (x g) <= length f -> off = length f ->
  conflict_edges fe f g off = Ok new ->
  Forall (edge_within
            (length f + (if streq (conflicts fe) "node"
                         then num_graphs g * max_n_machines fe else 0))
            3 (3 + Zn (nmachineid_of fe))) new.
Proof.
  intros Hwf Hlen Hoff. unfold conflict_edges, nmachineid_of. intros Hc.
  destruct (streq (conflicts fe) "clique") eqn:Ecl.
  - assert (Hnode : streq (conflicts fe) "node" = false).
    { apply streq_eq in Ecl. rewrite Ecl. reflexivity. }
    rewrite Hnode, Nat.add_0_r.
    destruct (highmem_conflict_clique fe).
    + eapply Forall_impl; [|exact (clique_highmem_within _ _ _ _ Hc)].
      intros e. apply edge_within_mono. exact Hlen.
    + destruct (mediummem_conflict_clique fe).
      * exact (clique_mediummem_within _ _ _ _ Hc).
      * eapply Forall_impl; [|exact (clique_lowmem_within _ _ _ _ _ Hc)].
        intros e. apply edge_within_mono. exact Hlen.
  - destruct (streq (conflicts fe) "node").
    + subst off.
      refine (@node_conflict_edges_within _ _ _ _ _ (num_graphs g) _ _ Hlen Hc).
      apply wf_batch_bound, Hwf.
    + inversion Hc. constructor.
Qed.

Lemma swap_edge_within rows lo hi e :
  edge_within rows lo hi e -> edge_within rows lo hi (swap_edge e).
Proof.
  unfold edge_within, swap_edge, src, tgt, code. simpl. tauto.
Qed.

(** For a well-formed batch whose edges join task nodes, every edge of
    the augmented graph joins two rows of the augmented features: the
    virtual pooling nodes and the machine hub nodes that the edges name are
    among the rows appended. *)
Theorem augmented_edges_are_in_range (fe : FeaturesExtractor) (g : GraphBatch)
  (aug : Augmented) :
  wf_graphb g = true ->
  Forall (fun c => (0 <= fst c < Zn (length (x g)))%Z
                   /\ (0 <= snd c < Zn (length (x g)))%Z) (edge_index g) ->
  augment fe g = Ok aug ->
  Forall (fun e => (0 <= src e < Zn (length (aug_features aug)))%Z
                   /\ (0 <= tgt e < Zn (length (aug_features aug)))%Z)
         (aug_edges aug).
Proof.
  intros Hwf Hin Ha.
  pose proof (augment_rows _ _ Ha) as Hrows.
  apply augment_inv in Ha as (f & es & bid & off & new & Hp & Hc & -> & _ & _).
  pose proof (pool_stage_offset _ _ Hp) as (_ & Hlen & _).
  pose proof (pool_stage_inv _ _ Hp) as (pool & Hpool & Hf & -> & _ & Hoff).
  pose proof (@conflict_edges_within fe f g off new Hwf Hlen Hoff Hc) as Hnew.
  assert (Hfl : length f = length (x g)
                + (if streq (graph_pooling fe) "learn" then num_graphs g else 0)).
  { rewrite Hf, length_app.
    destruct (streq (graph_pooling fe) "learn"); simpl; unfold zeros;
      rewrite ?repeat_length; lia. }
  assert (Hr : length (aug_features aug)
               = length f + (if streq (conflicts fe) "node"
                             then num_graphs g * max_n_machines fe else 0)).
  { rewrite Hrows. unfold augmented_rows. rewrite Hfl. lia. }
  rewrite Hr.
  set (rows := length f + _) in *.
  assert (R : Forall (edge_within rows 1 (3 + Zn (nmachineid_of fe)))
                     ((map (fun c => (fst c, snd c, 1%Z)) (edge_index g) ++ pool) ++ new)).
  { apply Forall_app. split; [apply Forall_app; split|].
    - apply Forall_forall. intros e He. apply in_map_iff in He as (c & <- & Hc').
      rewrite Forall_forall in Hin. destruct (Hin c Hc') as [H1 H2].
      unfold edge_within, src, tgt, code, Zn in *. cbn [fst snd].
      assert (length (x g) <= rows) by (unfold rows; lia). lia.
    - apply Forall_forall. intros e He.
      destruct (streq (graph_pooling fe) "learn"); [|subst pool; contradiction].
      destruct (@pooling_edges_In _ _ _ _ _ _ Hpool He)
        as (i & k & lo & hi & Hi & Hlo & Hhi & Hk & ->).
      apply ptr_at_inv in Hhi as [_ ->].
      pose proof (ptr_monotone _ Hwf (j := num_graphs g) (i := S i)) as Hm.
      pose proof (wf_graphb_inv _ Hwf) as (_ & _ & Hlast & _).
      assert (Hkn : k < length (x g)) by lia.
      assert (Hrw : length (x g) + num_graphs g <= rows) by (unfold rows; lia).
      destruct (negb (reverse_adj fe));
        unfold edge_within, src, tgt, code, Zn; cbn [fst snd]; lia.
    - eapply Forall_impl; [|exact Hnew]. intros e (H1 & H2 & H3).
      unfold edge_within. repeat split; lia. }
  assert (R' : Forall (fun e => (0 <= src e < Zn rows)%Z /\ (0 <= tgt e < Zn rows)%Z)
                      ((map (fun c => (fst c, snd c, 1%Z)) (edge_index g) ++ pool) ++ new)).
  { eapply Forall_impl; [|exact R]. intros e (H1 & H2 & _). split; assumption. }
  destruct (negb (reverse_adj fe)); [|exact R'].
  apply Forall_forall. intros e He. apply in_map_iff in He as (e' & <- & He').
  rewrite Forall_forall in R'. destruct (R' _ He') as [H1 H2].
  unfold swap_edge, src, tgt in *. cbn [fst snd]. split; assumption.
Qed.

Lemma augmented_edges_are_in_range_witness :
  exists aug,
    augment (ex_fe "eg" "learn" "node" 2 false false false false true) ex_batch = Ok aug
    /\ Forall (fun e => (0 <= src e < Zn (length (aug_features aug)))%Z
                        /\ (0 <= tgt e < Zn (length (aug_features aug)))%Z)
              (aug_edges aug).
Proof.
  eexists. split; [vm_compute; reflexivity|].
  apply (@augmented_edges_are_in_range
           (ex_fe "eg" "learn" "node" 2 false false false false true) ex_batch).
  - vm_compute. reflexivity.
  - repeat constructor; vm_compute; congruence.
  - vm_compute. reflexivity.
Defined.

Lemma edge_codes_fit_embedding_witness :
  exists fe aug,
    init (ex_args "pdn" "learn" "node" 2 true false false) = Ok fe
    /\ augment (with_strategy fe false true) ex_batch = Ok aug
    /\ Forall (fun emb =>
                 Forall (fun e => (0 <= code e < Zn (num_embeddings_of emb))%Z)
                        (aug_edges aug))
              (edge_embedder fe).
Proof.
  eexists. eexists. split; [vm_compute; reflexivity|].
  split; [vm_compute; reflexivity|].
  apply (@edge_codes_fit_embedding (ex_args "pdn" "learn" "node" 2 true false false)
           _ false true ex_batch); vm_compute; reflexivity.
Defined.

(** ** The pooling edges *)

Lemma wf_ptr_zero g : wf_graphb g = true -> nth 0 (ptr g) 0 = 0.
Proof.
  intros Hwf.
  pose proof (ptr_monotone _ Hwf) as Hmono.
  pose proof (wf_graphb_inv _ Hwf) as (_ & _ & Hlast & _ & Hn).
  destruct (length (x g)) as [|n] eqn:E.
  - specialize (Hmono (num_graphs g) 0). lia.
  - destruct (Hn 0) as (Hb & Hlo & _); [lia|].
    specialize (Hmono (nth 0 (batch g) 0) 0). lia.
Qed.

Lemma pooling_edges_exact r g pool :
  wf_graphb g = true ->
  pooling_edges r (ptr g) (length (x g)) (num_graphs g) = Ok pool ->
  pool = map (fun k => if negb r
                       then (Zn (length (x g) + nth k (batch g) 0), Zn k, 2%Z)
                       else (Zn k, Zn (length (x g) + nth k (batch g) 0), 2%Z))
             (seq 0 (length (x g))).
Proof.
  intros Hwf H.
  pose proof (wf_graphb_inv _ Hwf) as (Hlen & Hstep & Hlast & _).
  unfold pooling_edges in H.
  assert (Hpg : mapM (fun i => lo <- ptr_at (ptr g) i ;; hi <- ptr_at (ptr g) (S i) ;;
                               Ok (pooling_edges_of_graph r (length (x g)) i lo hi))
                     (seq 0 (num_graphs g))
                = Ok (map (fun i => pooling_edges_of_graph r (length (x g)) i
                                      (nth i (ptr g) 0) (nth (S i) (ptr g) 0))
                          (seq 0 (num_graphs g)))).
  { apply mapM_total. intros i Hi. apply in_seq in Hi.
    rewrite !ptr_at_total by lia. reflexivity. }
  rewrite Hpg in H. simpl in H. inversion H; subst pool; clear H Hpg.
  assert (G : forall n, n <= num_graphs g ->
    concat (map (fun i => pooling_edges_of_graph r (length (x g)) i
                            (nth i (ptr g) 0) (nth (S i) (ptr g) 0)) (seq 0 n))
    = map (fun k => if negb r
                    then (Zn (length (x g) + nth k (batch g) 0), Zn k, 2%Z)
                    else (Zn k, Zn (length (x g) + nth k (batch g) 0), 2%Z))
          (seq 0 (nth n (ptr g) 0))).
  { induction n as [|n IH]; intros Hn.
    - rewrite (@wf_ptr_zero g Hwf). reflexivity.
    - rewrite seq_S, map_app, concat_app, IH by lia. simpl.
      rewrite app_nil_r.
      assert (Hle : nth n (ptr g) 0 <= nth (S n) (ptr g) 0) by (apply Hstep; lia).
      replace (nth (S n) (ptr g) 0)
        with (nth n (ptr g) 0 + (nth (S n) (ptr g) 0 - nth n (ptr g) 0)) at 2 by lia.
      rewrite seq_app, map_app. f_equal.
      unfold pooling_edges_of_graph. apply map_ext_in. intros k Hk.
      apply in_seq in Hk.
      destruct (@in_range_batch g n k Hwf) as [_ Hb]; [lia | lia|].
      rewrite Hb. reflexivity. }
  rewrite G by lia. rewrite Hlast. reflexivity.
Qed.

(** With pooling mode "learn" and a well-formed batch, the pooling edges
    of the final edge index are, in order, one edge per task node [k], from
    [k] to the virtual node of its graph [nnodes + batch[k]], whatever
    [reverse_adj] and the conflict mode are. *)
Theorem learn_pooling_one_edge_per_node (fe : FeaturesExtractor) (g : GraphBatch)
  (aug : Augmented) :
  wf_graphb g = true ->
  streq (graph_pooling fe) "learn" = true ->
  augment fe g = Ok aug ->
  filter is_pooling_edge (aug_edges aug)
  = map (fun k => (Zn k, Zn (length (x g) + nth k (batch g) 0), 2%Z))
        (seq 0 (length (x g))).
Proof.
  intros Hwf Hlearn Ha.
  apply augment_inv in Ha as (f & es & bid & off & new & Hp & Hc & -> & _ & _).
  pose proof (conflict_edges_codes _ _ _ _ Hc) as Hcodes.
  apply pool_stage_inv in Hp as (pool & Hpool & _ & -> & _).
  rewrite Hlearn in Hpool.
  pose proof (@pooling_edges_exact _ g pool Hwf Hpool) as Epool.
  set (init := map (fun c : Z * Z => (fst c, snd c, 1%Z)) (edge_index g)).
  assert (F1 : forall h : edge -> edge, (forall e, code (h e) = code e) ->
               filter is_pooling_edge (map h init) = []).
  { intros h Hh. apply filter_none, Forall_forall. intros e He.
    apply in_map_iff in He as (e' & <- & He').
    apply in_map_iff in He' as (c & <- & _).
    unfold is_pooling_edge. rewrite Hh. reflexivity. }
  assert (F3 : forall h : edge -> edge, (forall e, code (h e) = code e) ->
               filter is_pooling_edge (map h new) = []).
  { intros h Hh. apply filter_none, Forall_forall. intros e He.
    apply in_map_iff in He as (e' & <- & He').
    rewrite Forall_forall in Hcodes. specialize (Hcodes _ He').
    unfold conflict_code in Hcodes. unfold is_pooling_edge. rewrite Hh.
    apply Z.eqb_neq. lia. }
  assert (F2 : forall h : edge -> edge, (forall e, code (h e) = code e) ->
               filter is_pooling_edge (map h pool) = map h pool).
  { intros h Hh. apply filter_all, Forall_forall. intros e He.
    apply in_map_iff in He as (e' & <- & He').
    rewrite Epool in He'. apply in_map_iff in He' as (k & <- & _).
    unfold is_pooling_edge. rewrite Hh. destruct (negb (reverse_adj fe)); reflexivity. }
  destruct (reverse_adj fe) eqn:R; cbn [negb] in *.
  - specialize (F1 (fun e => e) (fun e => eq_refl)).
    specialize (F2 (fun e => e) (fun e => eq_refl)).
    specialize (F3 (fun e => e) (fun e => eq_refl)).
    rewrite !map_id in *.
    rewrite !filter_app, F1, F2, F3, app_nil_r. simpl. exact Epool.
  - specialize (F1 swap_edge code_swap_edge).
    specialize (F2 swap_edge code_swap_edge).
    specialize (F3 swap_edge code_swap_edge).
    rewrite !map_app, !filter_app, F1, F2, F3, app_nil_r. simpl.
    rewrite Epool, map_map. reflexivity.
Qed.

Lemma learn_pooling_one_edge_per_node_witness :
  exists aug,
    augment (ex_fe "eg" "learn" "clique" 2 false false false false true) ex_batch = Ok aug
    /\ filter is_pooling_edge (aug_edges aug)
       = map (fun k => (Zn k, Zn (length (x ex_batch) + nth k (batch ex_batch) 0), 2%Z))
             (seq 0 (length (x ex_batch))).
Proof.
  eexists. split; [vm_compute; reflexivity|].
  apply (@learn_pooling_one_edge_per_node
           (ex_fe "eg" "learn" "clique" 2 false false false false true) ex_batch);
    vm_compute; reflexivity.
Defined.

(** ** Clique conflict edges come in both directions *)

Lemma clique_match_sym mids i j :
  Forall (fun m => (-1 <= m)%Z) mids ->
  (nth j mids (-1) =? m2_of (nth i mids (-1)))%Z = true ->
  nth j mids (-1)%Z = nth i mids (-1)%Z
  /\ (nth i mids (-1) =? m2_of (nth j mids (-1)))%Z = true.
Proof.
  intros Hr H. apply Z.eqb_eq in H.
  pose proof (nth_range_default j Hr) as Hj.
  unfold m2_of in *.
  destruct (nth i mids (-1) =? -1)%Z eqn:E; [lia|].
  split; [exact H|]. rewrite H, E. apply Z.eqb_refl.
Qed.

Lemma clique_cond_batch_sym mids aff b i j :
  Forall (fun m => (-1 <= m)%Z) mids ->
  clique_cond_batch mids aff b i j = true ->
  clique_cond_batch mids aff b j i = true
  /\ nth j mids (-1)%Z = nth i mids (-1)%Z.
Proof.
  unfold clique_cond_batch. intros Hr H.
  apply andb_true_iff in H as [H Hne].
  apply andb_true_iff in H as [H Haff].
  apply andb_true_iff in H as [Hm Hb].
  destruct (@clique_match_sym mids i j Hr Hm) as [E Hm'].
  split; [|exact E].
  rewrite Hm'. apply Nat.eqb_eq in Hb. rewrite Hb, Nat.eqb_refl.
  rewrite (andb_comm (truthy (nth i aff 0%Qc))), Haff.
  rewrite Nat.eqb_sym, Hne. reflexivity.
Qed.

Lemma clique_cond_sym mids aff i j :
  Forall (fun m => (-1 <= m)%Z) mids ->
  clique_cond mids aff i j = true ->
  clique_cond mids aff j i = true /\ nth j mids (-1)%Z = nth i mids (-1)%Z.
Proof.
  unfold clique_cond. intros Hr H.
  apply andb_true_iff in H as [H Hne].
  apply andb_true_iff in H as [Hm Haff].
  destruct (@clique_match_sym mids i j Hr Hm) as [E Hm'].
  split; [|exact E].
  rewrite Hm'.
  rewrite (andb_comm (truthy (nth i aff 0%Qc))), Haff.
  rewrite Nat.eqb_sym, Hne. reflexivity.
Qed.

Lemma clique_highmem_sym M features nnodes b new e :
  clique_highmem M features nnodes b = Ok new -> In e new -> In (swap_edge e) new.
Proof.
  unfold clique_highmem. intros H.
  apply bind_ok_inv in H as (machineid & Hm & H).
  apply bind_ok_inv in H as (aff & _ & H).
  destruct (negb (length b =? nnodes)); [discriminate|].
  inversion H; subst; clear H.
  pose proof (machine_ids_range _ _ Hm) as Hr.
  intros He. apply in_map_iff in He as ([i j] & <- & Hin).
  apply in_nonzero2 in Hin as (Hi & Hj & Hc).
  destruct (@clique_cond_batch_sym _ _ _ _ _ Hr Hc) as [Hc' E].
  apply in_map_iff. exists (j, i). split.
  - unfold swap_edge, src, tgt, code. cbn [fst snd]. rewrite E. reflexivity.
  - apply in_nonzero2. auto.
Qed.

Lemma clique_of_graph_sym M features lo hi new e :
  clique_of_graph M features lo hi = Ok new -> In e new -> In (swap_edge e) new.
Proof.
  unfold clique_of_graph. intros H.
  apply bind_ok_inv in H as (machineid & Hm & H).
  apply bind_ok_inv in H as (aff & _ & H).
  inversion H; subst; clear H.
  pose proof (machine_ids_range _ _ Hm) as Hr.
  intros He. apply in_map_iff in He as ([i j] & <- & Hin).
  apply in_nonzero2 in Hin as (Hi & Hj & Hc).
  destruct (@clique_cond_sym _ _ _ _ Hr Hc) as [Hc' E].
  apply in_map_iff. exists (j, i). split.
  - unfold swap_edge, src, tgt, code. cbn [fst snd]. rewrite E. reflexivity.
  - apply in_nonzero2. auto.
Qed.

Lemma in_concat_mapM {A B : Type} (f : A -> result (list B)) l bs e :
  mapM f l = Ok bs -> In e (concat bs) ->
  exists a es, In a l /\ f a = Ok es /\ In es bs /\ In e es.
Proof.
  intros H Hin. apply mapM_ok_inv in H.
  apply in_concat in Hin as (es & Hes & Hin).
  induction H as [|a b l' bs' Hab _ IH]; [contradiction|].
  destruct Hes as [->|Hes].
  - exists a, es. repeat split; auto; left; reflexivity.
  - destruct (IH Hes) as (a' & es' & Ha' & Hf & Hb & He).
    exists a', es'. repeat split; auto; right; assumption.
Qed.

Lemma clique_mediummem_sym M features p n_batch new e :
  clique_mediummem M features p n_batch = Ok new -> In e new -> In (swap_edge e) new.
Proof.
  unfold clique_mediummem. intros H.
  apply bind_ok_inv in H as (per_graph & Hpg & H).
  inversion H; subst; clear H. intros He.
  destruct (@in_concat_mapM _ _ _ _ _ _ Hpg He) as (bi & es & _ & Hf & Hes & Hin).
  apply bind_ok_inv in Hf as ([lo hi] & _ & Hf).
  apply in_concat. exists es. split; [exact Hes|].
  exact (@clique_of_graph_sym _ _ _ _ _ _ Hf Hin).
Qed.

Lemma lowmem_inner_sym machinecpu aff ni1 hi e :
  In e (lowmem_inner machinecpu aff ni1 hi) ->
  In (swap_edge e) (lowmem_inner machinecpu aff ni1 hi).
Proof.
  unfold lowmem_inner.
  destruct (all_zero (nth ni1 machinecpu [])); [contradiction|].
  intros He. apply in_flat_map in He as (ni2 & Hin & He).
  apply in_flat_map. exists ni2. split; [exact Hin|].
  destruct (all_zero (nth ni2 machinecpu [])); [contradiction|].
  destruct (vector_eqb _ _ && _); [|contradiction].
  destruct He as [<-|[<-|[]]]; [right; left | left]; reflexivity.
Qed.

Lemma clique_lowmem_sym M features nnodes p n_batch new e :
  clique_lowmem M features nnodes p n_batch = Ok new -> In e new -> In (swap_edge e) new.
Proof.
  unfold clique_lowmem. intros H.
  apply bind_ok_inv in H as (aff & _ & H).
  apply bind_ok_inv in H as (per_graph & Hpg & H).
  inversion H; subst; clear H. intros He.
  destruct (@in_concat_mapM _ _ _ _ _ _ Hpg He) as (bi & es & _ & Hf & Hes & Hin).
  apply bind_ok_inv in Hf as ([lo hi] & _ & Hf).
  inversion Hf; subst; clear Hf.
  apply in_concat. eexists. split; [exact Hes|].
  apply in_flat_map in Hin as (ni1 & Hn & Hin).
  apply in_flat_map. exists ni1. split; [exact Hn|].
  apply lowmem_inner_sym, Hin.
Qed.

(** In clique mode every conflict edge of the final edge index comes
    with its reverse, carrying the same edge type code, in each of the
    three strategies. *)
Theorem clique_edges_are_bidirectional (fe : FeaturesExtractor) (g : GraphBatch)
  (aug : Augmented) (e : edge) :
  streq (conflicts fe) "clique" = true ->
  augment fe g = Ok aug ->
  In e (aug_edges aug) -> (3 <= code e)%Z ->
  In (swap_edge e) (aug_edges aug).
Proof.
  intros Hcl Ha He Hcode.
  apply augment_inv in Ha as (f & es & bid & off & new & Hp & Hc & Hedges & _ & _).
  pose proof (pool_stage_codes _ _ Hp) as Hes.
  assert (Hsym : forall e', In e' new -> In (swap_edge e') new).
  { intros e'. unfold conflict_edges in Hc. rewrite Hcl in Hc.
    destruct (highmem_conflict_clique fe).
    - exact (@clique_highmem_sym _ _ _ _ _ e' Hc).
    - destruct (mediummem_conflict_clique fe).
      + exact (@clique_mediummem_sym _ _ _ _ _ e' Hc).
      + exact (@clique_lowmem_sym _ _ _ _ _ _ e' Hc). }
  assert (Hnot : forall e', In e' es -> (3 <= code e')%Z -> False).
  { intros e' He' H3. rewrite Forall_forall in Hes.
    destruct (Hes _ He') as [E|E]; rewrite E in H3; lia. }
  rewrite Hedges in *. clear Hedges.
  destruct (negb (reverse_adj fe)).
  - apply in_map_iff in He as (e' & <- & He').
    rewrite code_swap_edge in Hcode.
    apply in_app_or in He' as [He'|He']; [exfalso; exact (Hnot _ He' Hcode)|].
    apply in_map_iff. exists (swap_edge e'). split; [reflexivity|].
    apply in_or_app. right. apply Hsym, He'.
  - apply in_app_or in He as [He|He]; [exfalso; exact (Hnot _ He Hcode)|].
    apply in_or_app. right. apply Hsym, He.
Qed.

Lemma clique_edges_are_bidirectional_witness :
  exists aug,
    augment (ex_fe "eg" "max" "clique" 2 true false false false false) ex_batch = Ok aug
    /\ In (swap_edge (0, 1, 3)%Z) (aug_edges aug).
Proof.
  eexists. split; [vm_compute; reflexivity|].
  apply (@clique_edges_are_bidirectional
           (ex_fe "eg" "max" "clique" 2 true false false false false) ex_batch).
  - vm_compute. reflexivity.
  - vm_compute. reflexivity.
  - vm_compute. right. right. right. left. reflexivity.
  - vm_compute. discriminate.
Defined.

(** ** The machine-node mode *)

Lemma machine_block_zeroed M row :
  machine_block M (zero_machine_block M row)
  = repeat 0%Qc (length (machine_block M row)).
Proof.
  unfold zero_machine_block.
  set (k := length (machine_block M row)).
  assert (Hk : k = Nat.min M (length row - 6)).
  { unfold k, machine_block, slice. rewrite length_firstn, length_skipn. lia. }
  destruct (Nat.le_gt_cases (length row) 6) as [Hs|Hl].
  - replace k with 0 by lia. change (repeat 0%Qc 0) with (@nil Qc).
    rewrite app_nil_l, (skipn_all2 row) by lia. rewrite app_nil_r.
    unfold machine_block, slice.
    rewrite skipn_all2 by (rewrite length_firstn; lia). apply firstn_nil.
  - unfold machine_block at 1. unfold slice.
    rewrite skipn_app_exact by (rewrite length_firstn; lia).
    replace (6 + M - 6) with M by lia.
    destruct (Nat.le_gt_cases (6 + M) (length row)) as [Hw|Hn].
    + apply firstn_app_exact. rewrite repeat_length. lia.
    + rewrite (skipn_all2 row) by lia. rewrite app_nil_r.
      apply firstn_all2. rewrite repeat_length. lia.
Qed.

(** In machine-node mode the machine block of every row of the augmented
    features is zero, and the other columns of the task rows are those of
    the input. *)
Theorem node_mode_clears_machine_blocks (fe : FeaturesExtractor) (g : GraphBatch)
  (aug : Augmented) :
  streq (conflicts fe) "node" = true ->
  augment fe g = Ok aug ->
  Forall (fun row => all_zero (machine_block (max_n_machines fe) row) = true)
         (aug_features aug)
  /\ forall k, k < length (x g) ->
       firstn 6 (nth k (aug_features aug) []) = firstn 6 (nth k (x g) [])
       /\ skipn (6 + max_n_machines fe) (nth k (aug_features aug) [])
          = skipn (6 + max_n_machines fe) (nth k (x g) []).
Proof.
  intros Hnode Ha.
  apply augment_inv in Ha as (f & es & bid & off & new & Hp & _ & _ & Hf & _).
  rewrite Hnode in Hf. rewrite Hf. split.
  - apply Forall_forall. intros row Hin.
    apply in_map_iff in Hin as (row0 & <- & _).
    rewrite machine_block_zeroed. apply all_zero_zeros.
  - intros k Hk.
    apply pool_stage_offset in Hp as (_ & Hlen & Hfirst).
    assert (Hrow : nth k (map (zero_machine_block (max_n_machines fe))
                              (f ++ zeros (num_graphs g * max_n_machines fe) (width f))) []
                   = zero_machine_block (max_n_machines fe) (nth k (x g) [])).
    { rewrite (nth_indep _ [] (zero_machine_block (max_n_machines fe) []))
        by (rewrite length_map, length_app; lia).
      rewrite map_nth. f_equal. rewrite app_nth1 by lia.
      rewrite <- Hfirst. rewrite <- (firstn_skipn (length (x g)) f) at 1.
      rewrite app_nth1 by (rewrite length_firstn; lia). reflexivity. }
    rewrite Hrow. unfold zero_machine_block.
    set (row := nth k (x g) []).
    destruct (Nat.le_gt_cases (length row) 6) as [Hs|Hl].
    + assert (E : length (machine_block (max_n_machines fe) row) = 0).
      { unfold machine_block, slice. rewrite length_firstn, length_skipn. lia. }
      rewrite E. change (repeat 0%Qc 0) with (@nil Qc).
      rewrite app_nil_l, (skipn_all2 row) by lia. rewrite app_nil_r.
      split; [apply firstn_firstn|].
      rewrite skipn_all2 by (rewrite length_firstn; lia). reflexivity.
    + split.
      * apply firstn_app_exact. rewrite length_firstn. lia.
      * destruct (Nat.le_gt_cases (6 + max_n_machines fe) (length row)) as [Hw|Hn].
        -- rewrite app_assoc. apply skipn_app_exact.
           rewrite length_app, length_firstn, repeat_length.
           unfold machine_block, slice. rewrite length_firstn, length_skipn. lia.
        -- rewrite (skipn_all2 row) by lia. rewrite app_nil_r.
           apply skipn_all2. rewrite length_app, length_firstn, repeat_length.
           unfold machine_block, slice. rewrite length_firstn, length_skipn. lia.
Qed.

Lemma node_mode_clears_machine_blocks_witness :
  exists aug,
    augment (ex_fe "eg" "max" "node" 2 true false false false true) ex_single = Ok aug
    /\ Forall (fun row => all_zero (machine_block 2 row) = true) (aug_features aug)
    /\ forall k, k < length (x ex_single) ->
         firstn 6 (nth k (aug_features aug) []) = firstn 6 (nth k (x ex_single) [])
         /\ skipn (6 + 2) (nth k (aug_features aug) [])
            = skipn (6 + 2) (nth k (x ex_single) []).
Proof.
  eexists. split; [vm_compute; reflexivity|].
  apply (@node_mode_clears_machine_blocks
           (ex_fe "eg" "max" "node" 2 true false false false true) ex_single);
    vm_compute; reflexivity.
Defined.

(** In machine-node mode two task-to-hub edges end at the same hub node
    exactly when their tasks belong to the same graph and carry the same
    machine code. *)
Theorem hub_node_identifies_graph_and_machine (M : nat) (features : matrix)
  (nnodes node_offset : nat) (b : list nat) (new : list edge) (e1 e2 : edge) :
  node_conflict_edges M features nnodes node_offset b = Ok new ->
  In e1 new -> In e2 new ->
  (code e1 < 3 + Zn M)%Z -> (code e2 < 3 + Zn M)%Z ->
  (tgt e1 = tgt e2
   <-> nth (Z.to_nat (src e1)) b 0 = nth (Z.to_nat (src e2)) b 0 /\ code e1 = code e2).
Proof.
  intros H He1 He2 Hc1 Hc2.
  apply node_conflict_edges_inv in H as (machineid & hubs & Hm & Hh & ->).
  pose proof (@node_hubs_spec _ _ _ _ _ _ _ Hm Hh) as Hs.
  rewrite Forall_forall in Hs.
  assert (Hform : forall e, In e (map (fun h : Z * Z * Z => let '(i, m, t) := h in (i, t, (m + 3)%Z)) hubs
           ++ map (fun h : Z * Z * Z => let '(i, m, t) := h in (t, i, (m + 3 + Zn M)%Z)) hubs) ->
           (code e < 3 + Zn M)%Z ->
           exists i bid m, nth i b 0 = bid /\ (0 <= m < Zn M)%Z
             /\ e = (Zn i, (Zn bid * Zn M + m + Zn node_offset)%Z, (m + 3)%Z)).
  { intros e He Hc. apply in_app_or in He as [He|He];
      apply in_map_iff in He as (h & <- & Hin);
      destruct (Hs _ Hin) as (i & bid & _ & _ & Hbid & Hr & ->).
    - exists i, bid, (nth i machineid (-1)%Z). split; [|split; [exact Hr | reflexivity]].
      apply nth_error_nth. exact Hbid.
    - exfalso. unfold code in Hc. cbn [fst snd] in Hc. lia. }
  destruct (Hform _ He1 Hc1) as (i1 & b1 & m1 & Hb1 & Hr1 & ->).
  destruct (Hform _ He2 Hc2) as (i2 & b2 & m2 & Hb2 & Hr2 & ->).
  unfold tgt, src, code. cbn [fst snd]. unfold Zn at 1 2.
  rewrite !Nat2Z.id, Hb1, Hb2. unfold Zn in *. split.
  - intros E. assert (Z.of_nat b1 = Z.of_nat b2) by nia. split; [lia | nia].
  - intros [E1 E2]. subst b2. lia.
Qed.

Lemma hub_node_identifies_graph_and_machine_witness :
  exists new,
    node_conflict_edges 2 (x ex_batch) 5 5 (batch ex_batch) = Ok new
    /\ (tgt (0, 5, 3)%Z = tgt (1, 5, 3)%Z
        <-> nth (Z.to_nat (src (0, 5, 3)%Z)) (batch ex_batch) 0
            = nth (Z.to_nat (src (1, 5, 3)%Z)) (batch ex_batch) 0
            /\ code (0, 5, 3)%Z = code (1, 5, 3)%Z).
Proof.
  eexists. split; [vm_compute; reflexivity|].
  eapply (@hub_node_identifies_graph_and_machine 2 (x ex_batch) 5 5 (batch ex_batch) _
           (0, 5, 3)%Z (1, 5, 3)%Z).
  - vm_compute. reflexivity.
  - vm_compute. left. reflexivity.
  - vm_compute. right. left. reflexivity.
  - vm_compute. reflexivity.
  - vm_compute. reflexivity.
Defined.

(** ** Batch ids of the virtual nodes *)

Lemma nth_flat_repeat M : forall n s i m,
  i < n -> m < M ->
  nth (i * M + m) (flat_map (fun j => repeat j M) (seq s n)) 0 = s + i.
Proof.
  induction n as [|n IH]; intros s i m Hi Hm; [lia|]. simpl.
  destruct i as [|i].
  - simpl. rewrite app_nth1 by (rewrite repeat_length; exact Hm).
    rewrite Nat.add_0_r. apply nth_repeat_lt. exact Hm.
  - rewrite app_nth2 by (rewrite repeat_length; simpl; lia).
    rewrite repeat_length.
    replace (S i * M + m - M) with (i * M + m) by (simpl; lia).
    rewrite IH by lia. lia.
Qed.

Lemma length_flat_repeat M : forall n s,
  length (flat_map (fun j => repeat j M) (seq s n)) = n * M.
Proof.
  induction n as [|n IH]; intros s; simpl; [reflexivity|].
  rewrite length_app, repeat_length, IH. reflexivity.
Qed.

(** With normalisation on and one batch id per task node, the batch ids
    are extended in step with the features: there is one id per row of the
    augmented features, the virtual pooling node of graph [i] has id [i],
    and so has every machine hub node of graph [i]. *)
Theorem batch_ids_follow_virtual_nodes (fe : FeaturesExtractor) (g : GraphBatch)
  (aug : Augmented) :
  normalize fe = true ->
  length (batch g) = length (x g) ->
  augment fe g = Ok aug ->
  let N := length (x g) in
  let node_offset :=
    N + (if streq (graph_pooling fe) "learn" then num_graphs g else 0) in
  length (aug_batch_id aug) = length (aug_features aug)
  /\ (streq (graph_pooling fe) "learn" = true ->
      forall i, i < num_graphs g -> nth (N + i) (aug_batch_id aug) 0 = i)
  /\ (streq (conflicts fe) "node" = true ->
      forall i m, i < num_graphs g -> m < max_n_machines fe ->
        nth (node_offset + i * max_n_machines fe + m) (aug_batch_id aug) 0 = i).
Proof.
  intros _ Hb Ha N node_offset.
  pose proof (augment_rows _ _ Ha) as Hrows.
  apply augment_inv in Ha as (f & es & bid & off & new & Hp & _ & _ & _ & Hbid).
  apply pool_stage_inv in Hp as (pool & _ & _ & _ & -> & _).
  assert (Hl1 : length (batch g ++ (if streq (graph_pooling fe) "learn"
                                    then seq 0 (num_graphs g) else []))
                = node_offset).
  { rewrite length_app, Hb. unfold node_offset, N.
    destruct (streq (graph_pooling fe) "learn"); simpl; rewrite ?length_seq; lia. }
  split; [|split].
  - rewrite Hrows, Hbid. unfold augmented_rows.
    destruct (streq (conflicts fe) "node").
    + rewrite length_app, Hl1, length_flat_repeat. unfold node_offset, N. lia.
    + rewrite Hl1. unfold node_offset, N. lia.
  - intros Hlearn i Hi. rewrite Hbid. rewrite Hlearn in *.
    assert (E : nth (N + i) (batch g ++ seq 0 (num_graphs g)) 0 = i).
    { rewrite app_nth2 by (unfold N; lia).
      replace (N + i - length (batch g)) with i by (unfold N; lia).
      rewrite seq_nth by exact Hi. reflexivity. }
    destruct (streq (conflicts fe) "node"); [|exact E].
    rewrite app_nth1; [exact E|]. rewrite Hl1. unfold node_offset. rewrite ?Hlearn. lia.
  - intros Hnode i m Hi Hm. rewrite Hbid, Hnode.
    rewrite app_nth2 by (rewrite Hl1; lia).
    rewrite Hl1.
    replace (node_offset + i * max_n_machines fe + m - node_offset)
      with (i * max_n_machines fe + m) by lia.
    rewrite nth_flat_repeat by assumption. reflexivity.
Qed.

Lemma batch_ids_follow_virtual_nodes_witness :
  exists aug,
    augment (ex_fe "eg" "learn" "node" 2 true false true false true) ex_batch = Ok aug
    /\ length (aug_batch_id aug) = length (aug_features aug)
    /\ (streq "learn" "learn" = true ->
        forall i, i < 2 -> nth (5 + i) (aug_batch_id aug) 0 = i)
    /\ (streq "node" "node" = true ->
        forall i m, i < 2 -> m < 2 -> nth (5 + 2 + i * 2 + m) (aug_batch_id aug) 0 = i).
Proof.
  eexists. split; [vm_compute; reflexivity|].
  apply (@batch_ids_follow_virtual_nodes
           (ex_fe "eg" "learn" "node" 2 true false true false true) ex_batch);
    vm_compute; reflexivity.
Defined.

(** ** [__init__] and [forward] together *)

(** The width [features_dim] that [__init__] announces is the last
    dimension of what [forward] returns, for an observation of the data
    model whose rows have the width passed to [__init__]. *)
Theorem forward_width_is_features_dim (a : Args) (lp : Learned) (fe : FeaturesExtractor)
  (obs : Observation) (cw : nat) :
  init a = Ok fe ->
  shape_contract lp fe (input_dim_features_extractor a) cw ->
  obs_okb fe obs (input_dim_features_extractor a) = true ->
  accepted_pooling (graph_pooling fe) = true ->
  exists out, forward lp fe obs = Ok out
              /\ has_shape3 (get_batch_size obs) (get_n_nodes obs) (features_dim fe) out.
Proof.
  intros Hi Hc Ho Hp.
  destruct (@forward_ok lp fe obs _ cw Hc Ho Hp)
    as (a' & st & features & ge & _ & _ & _ & _ & _ & _ & Hf & Hs).
  eexists. split; [exact Hf|].
  rewrite (init_features_dim _ Hi).
  replace (n_layers_features_extractor fe + 1) with (S (n_layers_features_extractor fe))
    by lia.
  exact Hs.
Qed.

Lemma forward_width_is_features_dim_witness :
  exists fe, init (ex_args "pdn" "avg" "node" 2 false true false) = Ok fe
    /\ exists out, forward ex_lp fe ex_obs = Ok out
                   /\ has_shape3 1 4 (features_dim fe) out.
Proof.
  eexists. split; [vm_compute; reflexivity|].
  apply (@forward_width_is_features_dim
           (ex_args "pdn" "avg" "node" 2 false true false) ex_lp _ ex_obs 3).
  - vm_compute. reflexivity.
  - apply ex_lp_contract. reflexivity.
  - vm_compute. reflexivity.
  - reflexivity.
Defined.

(** ** One module per layer *)

(** An object built by [__init__] holds one convolution and one edge
    embedder per layer, one auxiliary MLP per layer when the type is
    "gatv2" and none otherwise, and one normalisation of each kind per
    layer when [normalize] is set and none otherwise. *)
Theorem init_one_module_per_layer (a : Args) (fe : FeaturesExtractor) :
  init a = Ok fe ->
  let L := arg_n_layers_features_extractor a in
  n_layers_features_extractor fe = L
  /\ length (features_extractors fe) = L
  /\ length (edge_embedder fe) = L
  /\ length (mlps fe) = (if streq (arg_gconv_type a) "gatv2" then L else 0)
  /\ length (norms fe) = (if arg_normalize a then L else 0)
  /\ length (normsbis fe) = (if arg_normalize a then L else 0).
Proof.
  unfold init. intros H. apply bind_ok_inv in H as (layers & Hl & H).
  inversion H; subst; clear H. cbv zeta.
  cbn [n_layers_features_extractor features_extractors edge_embedder mlps norms normsbis].
  pose proof (mapM_length _ _ Hl) as Hlen. rewrite length_seq in Hlen.
  split; [reflexivity|]. split; [rewrite length_map; exact Hlen|].
  split.
  { destruct (streq (arg_conflicts a) "clique" || streq (arg_conflicts a) "node");
      apply repeat_length. }
  split.
  - apply mapM_ok_inv in Hl. rewrite <- Hlen. clear Hlen.
    induction Hl as [|i c l cs Hc _ IH]; simpl.
    + destruct (streq (arg_gconv_type a) "gatv2"); reflexivity.
    + rewrite length_app, IH. unfold build_layer in Hc.
      destruct (streq (arg_gconv_type a) "gin"); [discriminate|].
      destruct (streq (arg_gconv_type a) "gatv2"); [inversion Hc; reflexivity|].
      destruct (streq (arg_gconv_type a) "eg");
        [destruct (arg_hidden_dim_features_extractor a mod 8 =? 0);
           [inversion Hc; reflexivity | discriminate]|].
      destruct (streq (arg_gconv_type a) "pdn"); [inversion Hc; reflexivity|].
      discriminate.
  - split; destruct (arg_normalize a); simpl; rewrite ?repeat_length; reflexivity.
Qed.

Lemma init_one_module_per_layer_witness :
  exists fe, init (ex_args "gatv2" "max" "clique" 3 true true true) = Ok fe
    /\ n_layers_features_extractor fe = 3
    /\ length (features_extractors fe) = 3
    /\ length (edge_embedder fe) = 3
    /\ length (mlps fe) = 3
    /\ length (norms fe) = 3
    /\ length (normsbis fe) = 3.
Proof.
  eexists. split; [vm_compute; reflexivity|].
  apply (@init_one_module_per_layer (ex_args "gatv2" "max" "clique" 3 true true true)).
  vm_compute. reflexivity.
Defined.

(** ** An observation without nodes *)

(** On an observation with [batch_size * n_nodes = 0], [forward] raises:
    the reshape of the node features has no valid shape. *)
Theorem forward_raises_without_nodes (lp : Learned) (fe : FeaturesExtractor)
  (obs : Observation) :
  get_batch_size obs * get_n_nodes obs = 0 ->
  is_ok (forward lp fe obs) = false.
Proof.
  intros H. unfold forward.
  destruct (augment fe (to_graph obs)) as [a|e]; [|reflexivity]. cbn [bind].
  destruct (embed_layers lp fe a) as [st|e]; [|reflexivity]. cbn [bind].
  destruct (final_features st) as [features|e]; [|reflexivity]. cbn [bind].
  unfold readout, reshape3. rewrite H. reflexivity.
Qed.

Lemma forward_raises_without_nodes_witness :
  is_ok (forward ex_lp (ex_fe "eg" "max" "clique" 2 true false false false true)
                 ex_empty_obs) = false.
Proof.
  apply (@forward_raises_without_nodes ex_lp
           (ex_fe "eg" "max" "clique" 2 true false false false true) ex_empty_obs).
  reflexivity.
Defined.

(** ** No machine column *)

(** Without machine columns ([max_n_machines = 0]) the machine-node mode
    and the all-at-once clique strategy raise [IndexError] (a maximum over
    an empty dimension), while the exhaustive scan, when it returns, adds
    no edge. *)
Theorem conflict_stage_without_machines (fe : FeaturesExtractor) (f : matrix)
  (g : GraphBatch) (off : nat) :
  max_n_machines fe = 0 ->
  (streq (conflicts fe) "node" = true ->
   conflict_edges fe f g off = Raise IndexError)
  /\ (streq (conflicts fe) "clique" = true -> highmem_conflict_clique fe = true ->
      conflict_edges fe f g off = Raise IndexError)
  /\ (streq (conflicts fe) "clique" = true -> highmem_conflict_clique fe = false ->
      mediummem_conflict_clique fe = false ->
      forall new, conflict_edges fe f g off = Ok new -> new = []).
Proof.
  intros HM. unfold conflict_edges. rewrite HM. split; [|split].
  - intros Hn. assert (Hc : streq (conflicts fe) "clique" = false).
    { apply streq_eq in Hn. rewrite Hn. reflexivity. }
    rewrite Hc, Hn. reflexivity.
  - intros Hc Hh. rewrite Hc, Hh. reflexivity.
  - intros Hc Hh Hm new. rewrite Hc, Hh, Hm. unfold clique_lowmem. intros H.
    apply bind_ok_inv in H as (aff & _ & H).
    apply bind_ok_inv in H as (per_graph & Hpg & H).
    inversion H; subst; clear H.
    assert (E : Forall (fun es : list edge => es = []) per_graph).
    { eapply mapM_Forall_out; [exact Hpg|].
      intros bi es _ Hes.
      apply bind_ok_inv in Hes as ([lo hi] & _ & Hes).
      inversion Hes; subst; clear Hes.
      induction (seq lo (hi - lo)) as [|ni1 l IH]; [reflexivity|].
      simpl. rewrite IH, app_nil_r.
      unfold lowmem_inner.
      assert (Z0 : nth ni1 (map (machine_block 0) (firstn (length (x g)) f)) [] = []).
      { destruct (Nat.lt_ge_cases ni1 (length (map (machine_block 0)
                                                   (firstn (length (x g)) f)))) as [Hi|Hi].
        - pose proof (nth_In _ (@nil Qc) Hi) as Hin.
          apply in_map_iff in Hin as (row & Hrow & _).
          rewrite <- Hrow. pose proof (machine_block_length 0 row) as Hl.
          destruct (machine_block 0 row); [reflexivity | simpl in Hl; lia].
        - apply nth_overflow, Hi. }
      rewrite Z0. reflexivity. }
    clear Hpg. induction E as [|es l Hes _ IH]; [reflexivity|].
    simpl. rewrite Hes, IH. reflexivity.
Qed.

Lemma conflict_stage_without_machines_witness :
  let fe := ex_fe_no_machine "clique" false false in
  (streq (conflicts fe) "node" = true ->
   conflict_edges fe (x ex_single) ex_single 4 = Raise IndexError)
  /\ (streq (conflicts fe) "clique" = true -> highmem_conflict_clique fe = true ->
      conflict_edges fe (x ex_single) ex_single 4 = Raise IndexError)
  /\ (streq (conflicts fe) "clique" = true -> highmem_conflict_clique fe = false ->
      mediummem_conflict_clique fe = false ->
      forall new, conflict_edges fe (x ex_single) ex_single 4 = Ok new -> new = []).
Proof.
  exact (@conflict_stage_without_machines (ex_fe_no_machine "clique" false false)
           (x ex_single) ex_single 4 eq_refl).
Defined.

(** ** The recorded layer embeddings *)

Lemma map_load_app (h ext : heap) fl :
  Forall (fun l => l < length h) fl -> map (load (h ++ ext)) fl = map (load h) fl.
Proof.
  intros H. apply map_ext_in. intros l Hl. apply load_app_l.
  rewrite Forall_forall in H. auto.
Qed.

Lemma Forall_lt_mono (fl : list nat) n n' :
  n <= n' -> Forall (fun l => l < n) fl -> Forall (fun l => l < n') fl.
Proof. intros Hn. apply Forall_impl. intros l Hl. lia. Qed.

Lemma layer_loop_records lp fe es bid : forall layers st,
  st_features_list st <> [] ->
  Forall (fun l => l < length (st_heap st)) (st_features_list st) ->
  st_features st < length (st_heap st) ->
  (st' <- layer_loop lp fe es bid layers st ;;
   Ok (map (load (st_heap st')) (st_features_list st')))
  = (others <- recorded_entries lp fe es bid layers
                 (load (st_heap st) (st_features st))
                 (load (st_heap st)
                       (nth (length (st_features_list st) - 1) (st_features_list st) 0)) ;;
     Ok (map (load (st_heap st)) (st_features_list st) ++ others)).
Proof.
  induction layers as [|layer rest IH]; intros st Hne Hfl Hf.
  - simpl. rewrite app_nil_r. reflexivity.
  - destruct st as [h features fl]. cbn [st_heap st_features st_features_list] in *.
    cbn [layer_loop recorded_entries].
    unfold layer_step, layer_record, alloc.
    cbn [st_heap st_features st_features_list].
    set (out := layer_output lp fe es bid layer (load h features)).
    set (prev := load h (nth (length fl - 1) fl 0)).
    assert (Hlast : 0 < length fl) by (destruct fl; [congruence | simpl; lia]).
    assert (Hprev : load (h ++ [out]) (nth (length (fl ++ [length h]) - 2)
                                           (fl ++ [length h]) 0) = prev).
    { rewrite length_app. cbn [length].
      replace (length fl + 1 - 2) with (length fl - 1) by lia.
      rewrite app_nth1 by lia. apply load_app_l.
      rewrite Forall_forall in Hfl. apply Hfl, nth_In. lia. }
    assert (Hfl1 : forall t, Forall (fun l => l < length (h ++ [t])) (fl ++ [length h])).
    { intros t. rewrite length_app. cbn [length]. apply Forall_app. split.
      - eapply Forall_lt_mono; [|exact Hfl]. lia.
      - constructor; [lia | constructor]. }
    assert (Hmap : forall t, map (load (h ++ [t])) (fl ++ [length h])
                             = map (load h) fl ++ [t]).
    { intros t. rewrite map_app, (@map_load_app h [t] fl Hfl). cbn [map].
      rewrite load_last. reflexivity. }
    assert (Hnth : nth (length (fl ++ [length h]) - 1) (fl ++ [length h]) 0
                   = length h).
    { rewrite length_app. cbn [length].
      rewrite app_nth2 by lia.
      replace (length fl + 1 - 1 - length fl) with 0 by lia. reflexivity. }
    assert (Hne1 : fl ++ [length h] <> []) by (destruct fl; discriminate).
    destruct (residual fe).
    + rewrite Hprev, load_last.
      destruct (iadd out prev) as [sum|e]; [|reflexivity]. cbn [bind].
      rewrite store_last.
      destruct (normalize fe); unfold alloc; cbn [bind].
      * rewrite load_last.
        set (nb := run_normsbis lp layer sum bid).
        rewrite IH; cbn [st_heap st_features st_features_list].
        -- rewrite load_last.
           rewrite Hnth.
           rewrite load_app_l by (rewrite length_app; cbn [length]; lia).
           rewrite load_last.
           rewrite map_load_app by apply Hfl1.
           rewrite Hmap.
           destruct (recorded_entries lp fe es bid rest nb sum); cbn [bind];
             [rewrite <- app_assoc; reflexivity | reflexivity].
        -- exact Hne1.
        -- eapply Forall_lt_mono; [|apply (Hfl1 sum)]. rewrite !length_app. lia.
        -- rewrite !length_app. cbn [length]. lia.
      * rewrite IH; cbn [st_heap st_features st_features_list].
        -- rewrite Hnth, load_last, Hmap.
           destruct (recorded_entries lp fe es bid rest sum sum); cbn [bind];
             [rewrite <- app_assoc; reflexivity | reflexivity].
        -- exact Hne1.
        -- apply Hfl1.
        -- rewrite length_app. cbn [length]. lia.
    + cbn [bind]. rewrite IH; cbn [st_heap st_features st_features_list].
      * rewrite Hnth, load_last, Hmap.
        destruct (recorded_entries lp fe es bid rest out out); cbn [bind];
          [rewrite <- app_assoc; reflexivity | reflexivity].
      * exact Hne1.
      * apply Hfl1.
      * rewrite length_app. cbn [length]. lia.
Qed.

(** For every setting of [residual] and [normalize], the tensors that
    [features_list] refers to at the end of the loop are the input entry,
    the embedder entry and then the entries of the recurrence
    [recorded_entries]: the layer output, plus the previous entry when
    [residual] is set; the second normalisation changes what the next layer
    reads, not what is recorded.  Both sides raise together. *)
Theorem features_list_is_the_recurrence (lp : Learned) (fe : FeaturesExtractor)
  (a : Augmented) :
  (st <- embed_layers lp fe a ;;
   Ok (map (load (st_heap st)) (st_features_list st)))
  = (others <- recorded_entries lp fe (aug_edges a) (aug_batch_id a)
                 (seq 0 (n_layers_features_extractor fe))
                 (embedder_entry lp fe a) (embedder_entry lp fe a) ;;
     Ok (input_entry lp fe a :: embedder_entry lp fe a :: others)).
Proof.
  unfold embed_layers, alloc. cbn [length app].
  rewrite layer_loop_records; cbn [st_heap st_features st_features_list length].
  - reflexivity.
  - discriminate.
  - repeat constructor.
  - lia.
Qed.

(** ** Hub edges in both directions *)

(** In machine-node mode every task-to-hub edge comes with the hub-to-task
    edge whose code is larger by [max_n_machines], and conversely. *)
Theorem machine_node_edges_are_paired (M : nat) (features : matrix)
  (nnodes node_offset : nat) (b : list nat) (new : list edge) (e : edge) :
  node_conflict_edges M features nnodes node_offset b = Ok new ->
  In e new ->
  if (code e <? 3 + Zn M)%Z
  then In (tgt e, src e, (code e + Zn M)%Z) new
  else In (tgt e, src e, (code e - Zn M)%Z) new.
Proof.
  intros H He.
  apply node_conflict_edges_inv in H as (machineid & hubs & Hm & Hh & ->).
  pose proof (@node_hubs_spec _ _ _ _ _ _ _ Hm Hh) as Hs.
  rewrite Forall_forall in Hs.
  apply in_app_or in He as [He|He];
    apply in_map_iff in He as (h & <- & Hin);
    destruct (Hs _ Hin) as (i & bid & _ & _ & _ & Hr & Eh);
    rewrite Eh in *; unfold code, src, tgt; cbn [fst snd].
  - destruct (Z.ltb_spec (nth i machineid (-1)%Z + 3)%Z (3 + Zn M)%Z) as [L|L]; [|lia].
    apply in_or_app. right. apply in_map_iff.
    eexists. split; [|exact Hin]. cbn beta iota. reflexivity.
  - destruct (Z.ltb_spec (nth i machineid (-1)%Z + 3 + Zn M)%Z (3 + Zn M)%Z) as [L|L]; [lia|].
    apply in_or_app. left. apply in_map_iff.
    eexists. split; [|exact Hin]. cbn beta iota. f_equal. lia.
Qed.

Lemma machine_node_edges_are_paired_witness :
  exists new,
    node_conflict_edges 2 (x ex_batch) 5 5 (batch ex_batch) = Ok new
    /\ In (tgt (0, 5, 3)%Z, src (0, 5, 3)%Z, (code (0, 5, 3)%Z + Zn 2)%Z) new.
Proof.
  eexists. split; [vm_compute; reflexivity|].
  eapply (@machine_node_edges_are_paired 2 (x ex_batch) 5 5 (batch ex_batch) _
            (0, 5, 3)%Z).
  - vm_compute. reflexivity.
  - vm_compute. left. reflexivity.
Defined.
